(** * Lock-free pool, block allocator and hazard-pointer queue

    A shallow embedding of three C++ components:

    - [LockFreeQueue] with its hazard-pointer table and the [main] that
      drives it (13_buggy_code_snippet/fixed_code_lock_free.cpp),
    - [LockFreeObjectPool] (09_objectPooling/objectPoolLockFree.h),
    - [LockFreePool] and the adapter [PoolAllocator]
      (09_objectPooling/poolAllocator.h).

    Every member function is a computation in a state-and-outcome monad
    over the memory it touches.  A call runs to completion before the next
    one starts; [compare_exchange_weak] may fail spuriously, following a
    schedule of failures carried by the state, and the retry loops take
    fuel.  For the pool a second reading lets the calls of several threads
    overlap, one access to the shared members at a time. *)

From stdpp Require Import gmap list.
From Stdlib Require Import ZArith Lia.

Local Open Scope Z_scope.

(** ** Outcomes of a call *)

(** Undefined behaviour and aborts, kept apart from C++ exceptions. *)
Inductive fault : Set :=
| NullDeref      (* [p->f] with [p == nullptr] *)
| DanglingDeref  (* [p->f] after [delete p] *)
| OutOfRange     (* [v[i]] with [i >= v.size()] *)
| DoubleFree     (* [delete p] of storage that is not live *)
| AssertFail.    (* a failed [assert] *)

Inductive exn : Set :=
| bad_alloc.

Inductive outcome (A : Type) : Type :=
| Done (a : A)
| Throw (e : exn)
| Fault (f : fault)
| OutOfFuel.
Arguments Done {A} a.
Arguments Throw {A} e.
Arguments Fault {A} f.
Arguments OutOfFuel {A}.

Definition M (S A : Type) : Type := S -> outcome (A * S).

Definition ret {S A} (a : A) : M S A := fun s => Done (a, s).

Definition bind {S A B} (c : M S A) (k : A -> M S B) : M S B :=
  fun s =>
    match c s with
    | Done (a, s') => k a s'
    | Throw e => Throw e
    | Fault f => Fault f
    | OutOfFuel => OutOfFuel
    end.

Definition crash {S A} (f : fault) : M S A := fun _ => Fault f.
Definition throw {S A} (e : exn) : M S A := fun _ => Throw e.
Definition spin {S A} : M S A := fun _ => OutOfFuel.
Definition get {S} : M S S := fun s => Done (s, s).
Definition modify {S} (f : S -> S) : M S unit := fun s => Done (tt, f s).

Declare Scope monad_scope.
Delimit Scope monad_scope with monad.
Notation "'let*' x := c 'in' k" := (bind c (fun x => k))
  (at level 10, x name, c at level 100, k at level 200) : monad_scope.
Local Open Scope monad_scope.

(** The next entry of a schedule of spurious [compare_exchange_weak]
    failures; an exhausted schedule means no further spurious failure. *)
Definition pop_flag (sp : list bool) : bool * list bool :=
  match sp with
  | [] => (false, [])
  | b :: sp' => (b, sp')
  end.

(** [for (size_t i = first; ...; ++i) a = body(i, a)], run for exactly
    [count] rounds unless a round fails.  The recursion halves [count], so
    a bound as large as [SIZE_MAX] is no obstacle when a round fails early. *)
Fixpoint for_pos {S A} (count : positive) (body : N -> A -> M S A) (i : N) (a : A)
  : M S (N * A) :=
  match count with
  | xH => let* a' := body i a in ret (N.succ i, a')
  | xO c =>
      let* r := for_pos c body i a in
      for_pos c body (fst r) (snd r)
  | xI c =>
      let* a' := body i a in
      let* r := for_pos c body (N.succ i) a' in
      for_pos c body (fst r) (snd r)
  end.

(** [for (size_t i = 0; i < bound; ++i) a = body(i, a)]. *)
Definition for_loop {S A} (bound : N) (body : N -> A -> M S A) (a : A) : M S A :=
  match bound with
  | N0 => ret a
  | Npos c => let* r := for_pos c body 0%N a in ret (snd r)
  end.

(** The same loop by recursion on the number of rounds left. *)
Fixpoint for_nat {S A} (count : nat) (body : N -> A -> M S A) (i : N) (a : A)
  : M S (N * A) :=
  match count with
  | O => ret (i, a)
  | S c => let* a' := body i a in for_nat c body (N.succ i) a'
  end.

(** [size_t] arithmetic is modulo 2^64. *)
Definition size_t_wrap (n : Z) : N := Z.to_N (n mod 2 ^ 64).

(** A computation that returns leaves the observation [f] of the state as
    it found it. *)
Definition keeps {S A X} (f : S -> X) (c : M S A) : Prop :=
  forall s r s', c s = Done (r, s') -> f s' = f s.

(** * The queue: fixed_code_lock_free.cpp *)

Module Queue.

Definition MAX_THREADS : Z := 16.

(** [Node<int>]: the payload and the atomic [next] link. *)
Record Node : Set := mkNode { value : Z; next : option positive }.

(** The memory the queue code touches: the heap of [Node]s with the
    addresses handed to [delete], the global [hazard_pointers] table, the
    statics of [get_hazard_index] ([next], and the [thread_local idx] of
    each thread, absent while it is still -1), and the members [head] and
    [tail] of the one queue. *)
Record world : Type := World {
  heap : gmap positive Node;
  brk : positive;
  freed : list positive;
  hazard_pointers : list (option positive);
  next_index : Z;
  tls_idx : gmap nat Z;
  head : option positive;
  tail : option positive;
  spurious : list bool;
}.

Definition set_heap (h : gmap positive Node) (w : world) : world :=
  World h (brk w) (freed w) (hazard_pointers w) (next_index w) (tls_idx w)
        (head w) (tail w) (spurious w).
Definition set_brk (b : positive) (w : world) : world :=
  World (heap w) b (freed w) (hazard_pointers w) (next_index w) (tls_idx w)
        (head w) (tail w) (spurious w).
Definition set_freed (f : list positive) (w : world) : world :=
  World (heap w) (brk w) f (hazard_pointers w) (next_index w) (tls_idx w)
        (head w) (tail w) (spurious w).
Definition set_hazard_pointers (hp : list (option positive)) (w : world) : world :=
  World (heap w) (brk w) (freed w) hp (next_index w) (tls_idx w)
        (head w) (tail w) (spurious w).
Definition set_next_index (n : Z) (w : world) : world :=
  World (heap w) (brk w) (freed w) (hazard_pointers w) n (tls_idx w)
        (head w) (tail w) (spurious w).
Definition set_tls_idx (t : gmap nat Z) (w : world) : world :=
  World (heap w) (brk w) (freed w) (hazard_pointers w) (next_index w) t
        (head w) (tail w) (spurious w).
Definition set_head (p : option positive) (w : world) : world :=
  World (heap w) (brk w) (freed w) (hazard_pointers w) (next_index w) (tls_idx w)
        p (tail w) (spurious w).
Definition set_tail (p : option positive) (w : world) : world :=
  World (heap w) (brk w) (freed w) (hazard_pointers w) (next_index w) (tls_idx w)
        (head w) p (spurious w).
Definition set_spurious (sp : list bool) (w : world) : world :=
  World (heap w) (brk w) (freed w) (hazard_pointers w) (next_index w) (tls_idx w)
        (head w) (tail w) sp.

(** Static storage is zero-initialised: sixteen null slots, [next == 0],
    no thread has an index, and the queue is not yet constructed. *)
Definition boot (sp : list bool) : world :=
  World ∅ 1%positive [] (replicate (Z.to_nat MAX_THREADS) None) 0 ∅ None None sp.

(** ** Memory primitives *)

(** [new Node<T>(v)]: a fresh node with a null [next].  Addresses are
    given out in increasing order and never given out twice. *)
Definition new_Node (v : Z) : M world positive :=
  fun w =>
    let l := brk w in
    Done (l, set_brk (Pos.succ l) (set_heap (<[l := mkNode v None]> (heap w)) w)).

(** [*p] for a [Node*]. *)
Definition deref (p : option positive) : M world Node :=
  fun w =>
    match p with
    | None => Fault NullDeref
    | Some l =>
        match heap w !! l with
        | Some n => Done (n, w)
        | None => Fault DanglingDeref
        end
    end.

(** [delete p]. *)
Definition delete_Node (p : option positive) : M world unit :=
  fun w =>
    match p with
    | None => Done (tt, w)
    | Some l =>
        match heap w !! l with
        | Some _ => Done (tt, set_freed (l :: freed w) (set_heap (delete l (heap w)) w))
        | None => Fault DoubleFree
        end
    end.

(** Whether the next weak compare-exchange fails spuriously. *)
Definition flip : M world bool :=
  fun w =>
    let '(b, sp) := pop_flag (spurious w) in
    Done (b, set_spurious sp w).

(** [head.compare_exchange_weak(expected, desired)]; the callers reload
    [expected] after a failure, so only the success flag is returned. *)
Definition cas_head (expected desired : option positive) : M world bool :=
  let* w := get in
  if decide (head w = expected) then
    let* fails := flip in
    if (fails : bool) then ret false
    else (let* _ := modify (set_head desired) in ret true)
  else ret false.

(** [tail.compare_exchange_weak(expected, desired)]. *)
Definition cas_tail (expected desired : option positive) : M world bool :=
  let* w := get in
  if decide (tail w = expected) then
    let* fails := flip in
    if (fails : bool) then ret false
    else (let* _ := modify (set_tail desired) in ret true)
  else ret false.

(** [p->next.compare_exchange_weak(expected, desired)]. *)
Definition cas_next (p expected desired : option positive) : M world bool :=
  let* n := deref p in
  if decide (next n = expected) then
    let* fails := flip in
    if (fails : bool) then ret false
    else
      match p with
      | Some l =>
          (let* _ := modify (fun w => set_heap (<[l := mkNode (value n) desired]> (heap w)) w) in
           ret true)
      | None => crash NullDeref
      end
  else ret false.

(** ** get_hazard_index *)

(** The [thread_local idx] starts at -1; the first call of a thread takes
    the next index and asserts that it is in the table ([assert] enabled). *)
Definition get_hazard_index (tid : nat) : M world Z :=
  fun w =>
    let idx := default (-1) (tls_idx w !! tid) in
    if decide (idx = -1) then
      let idx := next_index w in
      let w' := set_tls_idx (<[tid := idx]> (tls_idx w)) (set_next_index (idx + 1) w) in
      if decide (idx < MAX_THREADS) then Done (idx, w') else Fault AssertFail
    else Done (idx, w).

(** [hazard_pointers[hidx].ptr.store(p)]. *)
Definition store_hazard (hidx : Z) (p : option positive) : M world unit :=
  fun w =>
    if decide (0 <= hidx < Z.of_nat (length (hazard_pointers w))) then
      Done (tt, set_hazard_pointers (<[Z.to_nat hidx := p]> (hazard_pointers w)) w)
    else Fault OutOfRange.

(** ** LockFreeQueue *)

(** The constructor: one dummy node, [head] and [tail] both on it. *)
Definition LockFreeQueue : M world unit :=
  let* dummy := new_Node 0 in
  let* _ := modify (set_head (Some dummy)) in
  modify (set_tail (Some dummy)).

(** The loop of [retire_node] over the [MAX_THREADS] slots of the table:
    is some slot equal to [node]? *)
Fixpoint hazard_scan (slots : list (option positive)) (node : option positive) : bool :=
  match slots with
  | [] => false
  | p :: rest => if decide (p = node) then true else hazard_scan rest node
  end.

Definition retire_node (node : option positive) : M world unit :=
  let* w := get in
  if hazard_scan (hazard_pointers w) node then
    (* Defer deletion: yield and return *)
    ret tt
  else delete_Node node.

Fixpoint enqueue_loop (fuel : nat) (new_node : positive) : M world unit :=
  match fuel with
  | O => spin
  | S fuel' =>
      let* w := get in
      let last := tail w in
      let* n := deref last in
      let nxt := next n in
      let* w' := get in
      if decide (last = tail w') then
        if decide (nxt = None) then
          let* linked := cas_next last nxt (Some new_node) in
          if (linked : bool) then
            (let* _ := cas_tail last (Some new_node) in ret tt)
          else enqueue_loop fuel' new_node
        else
          (let* _ := cas_tail last nxt in enqueue_loop fuel' new_node)
      else enqueue_loop fuel' new_node
  end.

Definition enqueue (fuel : nat) (v : Z) : M world unit :=
  let* new_node := new_Node v in
  enqueue_loop fuel new_node.

(** [dequeue(result)]: [result] says whether a non-null [T*] was passed;
    [out] is what has been written through it so far.  The call returns
    the [bool] and the final content written through [result]. *)
Fixpoint dequeue_loop (fuel : nat) (hidx : Z) (result : bool) (out : option Z)
  : M world (bool * option Z) :=
  match fuel with
  | O => spin
  | S fuel' =>
      let* w := get in
      let first := head w in
      let* _ := store_hazard hidx first in
      let* w1 := get in
      let last := tail w1 in
      let* n := deref first in
      let nxt := next n in
      let* w2 := get in
      if decide (first = head w2) then
        if decide (first = last) then
          if decide (nxt = None) then ret (false, out)
          else (let* _ := cas_tail last nxt in dequeue_loop fuel' hidx result out)
        else
          (let* out' := (if result && bool_decide (nxt <> None)
                          then (let* n' := deref nxt in ret (Some (value n')))
                          else ret out) in
           let* moved := cas_head first nxt in
           if (moved : bool) then
             (let* _ := retire_node first in ret (true, out'))
           else dequeue_loop fuel' hidx result out')
      else dequeue_loop fuel' hidx result out
  end.

Definition dequeue (fuel : nat) (tid : nat) (result : bool)
  : M world (bool * option Z) :=
  let* hidx := get_hazard_index tid in
  dequeue_loop fuel hidx result None.

(** [~LockFreeQueue()]: [while (dequeue());] and then
    [delete head.load()].  [rounds] bounds the [while]. *)
Fixpoint drain (rounds fuel : nat) (tid : nat) : M world unit :=
  match rounds with
  | O => spin
  | S rounds' =>
      let* r := dequeue fuel tid false in
      if fst r then drain rounds' fuel tid else ret tt
  end.

Definition LockFreeQueue_dtor (rounds fuel : nat) (tid : nat) : M world unit :=
  let* _ := drain rounds fuel tid in
  let* w := get in
  delete_Node (head w).

(** ** Clients: sequences of calls *)

Inductive op : Set :=
| Enq (v : Z)
| Deq (tid : nat) (result : bool).

Definition step (fuel : nat) (o : op) : M world (option (bool * option Z)) :=
  match o with
  | Enq v => let* _ := enqueue fuel v in ret None
  | Deq tid result => let* r := dequeue fuel tid result in ret (Some r)
  end.

Fixpoint run (fuel : nat) (ops : list op) : M world (list (option (bool * option Z))) :=
  match ops with
  | [] => ret []
  | o :: ops' =>
      let* r := step fuel o in
      let* rs := run fuel ops' in
      ret (r :: rs)
  end.

(** A program: static initialisation, the constructor, then the calls. *)
Definition program (sp : list bool) (fuel : nat) (ops : list op)
  : outcome (list (option (bool * option Z)) * world) :=
  (let* _ := LockFreeQueue in run fuel ops) (boot sp).

(** ** The shape of the queue *)

(** The nodes met by following [next] from [p] to null, with their
    payloads. *)
Fixpoint chain (h : gmap positive Node) (p : option positive)
         (ls : list (positive * Z)) : Prop :=
  match ls with
  | [] => p = None
  | (l, v) :: ls' =>
      p = Some l ∧ ∃ nx, h !! l = Some (mkNode v nx) ∧ chain h nx ls'
  end.

(** [tail] is on a node whose [next] is null, or whose successor's is. *)
Definition tail_near_end (h : gmap positive Node) (t : positive) : Prop :=
  ∃ nd, h !! t = Some nd ∧
        (next nd = None ∨
         ∃ l nd', next nd = Some l ∧ h !! l = Some nd' ∧ next nd' = None).

Record queue_inv (w : world) (ls : list (positive * Z)) : Prop := QueueInv {
  inv_chain : chain (heap w) (head w) ls;
  inv_nodup : NoDup ls.*1;
  inv_tail : ∃ t, tail w = Some t ∧ t ∈ ls.*1 ∧ tail_near_end (heap w) t;
  inv_brk : ∀ l, is_Some (heap w !! l) → (l < brk w)%positive;
  inv_slots : length (hazard_pointers w) = Z.to_nat MAX_THREADS;
  inv_tls : ∀ tid idx, tls_idx w !! tid = Some idx → 0 <= idx < next_index w;
  inv_count : next_index w = Z.of_nat (size (dom (tls_idx w)));
  inv_bound : next_index w <= MAX_THREADS;
}.

(** The values still to be dequeued: everything after the dummy. *)
Definition contents (ls : list (positive * Z)) : list Z := (List.tl ls).*2.

(** The threads that dequeue in a sequence of calls. *)
Fixpoint consumers (ops : list op) : gset nat :=
  match ops with
  | [] => ∅
  | Enq _ :: ops' => consumers ops'
  | Deq tid _ :: ops' => {[tid]} ∪ consumers ops'
  end.

(** The reference the queue is compared with: what a first-in first-out
    list [q] answers to the calls, in the shape of the results of [run]. *)
Fixpoint fifo (ops : list op) (q : list Z) : list (option (bool * option Z)) :=
  match ops with
  | [] => []
  | Enq v :: ops' => None :: fifo ops' (q ++ [v])
  | Deq _ result :: ops' =>
      match q with
      | [] => Some (false, None) :: fifo ops' []
      | v :: q' => Some (true, if result then Some v else None) :: fifo ops' q'
      end
  end.

(** [hazard_pointers[hidx].ptr.store(head)], the first step of a round of
    [dequeue]. *)
Definition publish (hidx : Z) (w : world) : world :=
  set_hazard_pointers (<[Z.to_nat hidx := head w]> (hazard_pointers w)) w.

(** The calling thread has a slot already, or one is left to give out. *)
Definition has_slot (w : world) (tid : nat) : Prop :=
  is_Some (tls_idx w !! tid) ∨ next_index w < MAX_THREADS.

(** [head == tail && head->next == nullptr]. *)
Definition structurally_empty (w : world) : Prop :=
  head w = tail w ∧
  ∃ l nd, head w = Some l ∧ heap w !! l = Some nd ∧ next nd = None.

(** Nothing has been handed to [delete], and every address given out by
    [new] is still live. *)
Definition no_free (w : world) : Prop :=
  freed w = [] ∧ ∀ l, (l < brk w)%positive → is_Some (heap w !! l).

(** What [enqueue_loop] leaves alone. *)
Definition enq_frame (w w' : world) : Prop :=
  head w' = head w ∧ hazard_pointers w' = hazard_pointers w ∧
  tls_idx w' = tls_idx w ∧ next_index w' = next_index w ∧
  freed w' = freed w ∧ brk w' = brk w ∧
  (∀ l, is_Some (heap w' !! l) ↔ is_Some (heap w !! l)) ∧
  (length (spurious w') <= length (spurious w))%nat.

(** What a whole [enqueue] changes outside the chain. *)
Definition enq_post (w w' : world) : Prop :=
  head w' = head w ∧ hazard_pointers w' = hazard_pointers w ∧
  tls_idx w' = tls_idx w ∧ next_index w' = next_index w ∧
  freed w' = freed w ∧ brk w' = Pos.succ (brk w) ∧
  (∀ l, is_Some (heap w' !! l) ↔ is_Some (heap w !! l) ∨ l = brk w) ∧
  (length (spurious w') <= length (spurious w))%nat.

(** What a whole [dequeue] by thread [tid] changes outside the chain: no
    node is freed, and the slot of [tid] holds the address published last,
    the [head] the call found. *)
Definition deq_post (w w' : world) (tid : nat) : Prop :=
  heap w' = heap w ∧ freed w' = freed w ∧ brk w' = brk w ∧
  (length (spurious w') <= length (spurious w))%nat ∧
  dom (tls_idx w') = {[tid]} ∪ dom (tls_idx w) ∧
  ∃ hidx, tls_idx w' !! tid = Some hidx ∧ 0 <= hidx < MAX_THREADS ∧
          hazard_pointers w' !! Z.to_nat hidx = Some (head w).

(** What the reference list holds after the calls. *)
Fixpoint pending (ops : list op) (q : list Z) : list Z :=
  match ops with
  | [] => q
  | Enq v :: ops' => pending ops' (q ++ [v])
  | Deq _ _ :: ops' => pending ops' (List.tl q)
  end.

(** The number of [enqueue] calls in a sequence of calls. *)
Fixpoint enqueues (ops : list op) : nat :=
  match ops with
  | [] => 0
  | Enq _ :: ops' => S (enqueues ops')
  | Deq _ _ :: ops' => enqueues ops'
  end.

(** The registry of [get_hazard_index]: the indices given out are below
    [next], and no two threads have the same one. *)
Definition registry_ok (w : world) : Prop :=
  0 <= next_index w ∧
  (∀ tid idx, tls_idx w !! tid = Some idx → 0 <= idx < next_index w) ∧
  (∀ t1 t2 idx, tls_idx w !! t1 = Some idx → tls_idx w !! t2 = Some idx → t1 = t2).

(** ** main *)

(** The values that thread [i] of [main] enqueues: [i * 100 + j] for [j]
    from 0 to 99. *)
Definition producer (i : Z) : list Z := (λ j, i * 100 + j) <$> seqZ 0 100.

(** The calls of several threads, each with its own values to enqueue, in
    the order of a schedule: entry [k] lets thread [k] make its next call.
    [join] waits for every thread, so the calls that the schedule leaves
    out are made after it. *)
Fixpoint merge (schedule : list nat) (threads : list (list Z)) : list Z :=
  match schedule with
  | [] => concat threads
  | k :: rest =>
      match threads !! k with
      | Some (v :: vs) => v :: merge rest (<[k := vs]> threads)
      | _ => merge rest threads
      end
  end.

(** Every value of thread [off + k] carries the tag [off + k]. *)
Definition tagged (tag : Z → Z) (off : nat) (ts : list (list Z)) : Prop :=
  ∀ k vs, ts !! k = Some vs → Forall (λ v, tag v = Z.of_nat (off + k)) vs.

(** [while (q.dequeue(&value)) { std::cout << value << " "; ++count; }]:
    [value] is what the calls have written through [&value] so far, absent
    while the local is still uninitialised; [printed] is the output. *)
Fixpoint main_loop (rounds fuel : nat) (value : option Z)
         (printed : list (option Z)) (count : Z)
  : M world (list (option Z) * Z) :=
  match rounds with
  | O => spin
  | S rounds' =>
      let* r := dequeue fuel 0 true in
      let value' := match snd r with Some v => Some v | None => value end in
      if fst r then main_loop rounds' fuel value' (printed ++ [value']) (count + 1)
      else ret (printed, count)
  end.

(** [main]: four threads enqueue, the main thread (thread 0 of the model)
    joins them and drains the queue, and the queue is destroyed when
    [main] returns.  The result is the output and the final [count]. *)
Definition main (schedule : list nat) (sp : list bool) (fuel rounds : nat)
  : outcome ((list (option Z) * Z) * world) :=
  (let* _ := LockFreeQueue in
   let* _ := run fuel (Enq <$> merge schedule (producer <$> [0; 1; 2; 3])) in
   let* r := main_loop rounds fuel None [] 0 in
   let* _ := LockFreeQueue_dtor rounds fuel 0 in
   ret r) (boot sp).

End Queue.

(** * The object pool: objectPoolLockFree.h *)

Module Pool.

(** [LockFreeObjectPool<MyRes>::Node]: the payload ([MyRes] holds one
    [int], 0 by default) and the free-list link.  A [Node*] is the index of
    the [storage_] slot that owns the node; [None] is [nullptr]. *)
Record Node : Set := mkNode { obj : Z; next : option nat }.

(** The members of the pool ([storage_] holds [unique_ptr]s, [None] being
    an empty one), the number of [Node]s the free store can still supply,
    and the schedule of spurious failures. *)
Record pool : Type := PoolState {
  storage_ : list (option Node);
  head_ : option nat;
  acquire_addresses_ : gset nat;
  release_addresses_ : gset nat;
  exhaust_count_ : Z;
  free_store : N;
  spurious : list bool;
}.

Definition set_storage_ (st : list (option Node)) (p : pool) : pool :=
  PoolState st (head_ p) (acquire_addresses_ p) (release_addresses_ p)
            (exhaust_count_ p) (free_store p) (spurious p).
Definition set_head_ (h : option nat) (p : pool) : pool :=
  PoolState (storage_ p) h (acquire_addresses_ p) (release_addresses_ p)
            (exhaust_count_ p) (free_store p) (spurious p).
Definition set_acquire_addresses_ (a : gset nat) (p : pool) : pool :=
  PoolState (storage_ p) (head_ p) a (release_addresses_ p)
            (exhaust_count_ p) (free_store p) (spurious p).
Definition set_exhaust_count_ (c : Z) (p : pool) : pool :=
  PoolState (storage_ p) (head_ p) (acquire_addresses_ p) (release_addresses_ p)
            c (free_store p) (spurious p).
Definition set_free_store (n : N) (p : pool) : pool :=
  PoolState (storage_ p) (head_ p) (acquire_addresses_ p) (release_addresses_ p)
            (exhaust_count_ p) n (spurious p).
Definition set_spurious (sp : list bool) (p : pool) : pool :=
  PoolState (storage_ p) (head_ p) (acquire_addresses_ p) (release_addresses_ p)
            (exhaust_count_ p) (free_store p) sp.

(** The members before the constructor body runs: [exhaust_count_] has no
    initialiser, so it starts from whatever [junk] the memory holds. *)
Definition raw (mem : N) (junk : Z) (sp : list bool) : pool :=
  PoolState [] None ∅ ∅ junk mem sp.

(** ** Storage primitives *)

(** [storage_[i]], unchecked in C++: out of range is undefined behaviour. *)
Definition storage_at (i : N) : M pool (option Node) :=
  fun p =>
    match storage_ p !! N.to_nat i with
    | Some u => Done (u, p)
    | None => Fault OutOfRange
    end.

(** [storage_[i] = std::move(u)]. *)
Definition storage_put (i : N) (u : option Node) : M pool unit :=
  fun p =>
    if decide (N.to_nat i < length (storage_ p))%nat then
      Done (tt, set_storage_ (<[N.to_nat i := u]> (storage_ p)) p)
    else Fault OutOfRange.

(** [storage_[i].get()]: the address of the owned node, or [nullptr]. *)
Definition storage_get (i : N) : M pool (option nat) :=
  let* u := storage_at i in
  ret (match u with Some _ => Some (N.to_nat i) | None => None end).

(** [std::make_unique<Node>()]. *)
Definition make_unique_Node : M pool Node :=
  fun p =>
    if decide (free_store p = 0%N) then Throw bad_alloc
    else Done (mkNode 0 None, set_free_store (N.pred (free_store p)) p).

(** [*node] for a [Node*]. *)
Definition deref (node : option nat) : M pool Node :=
  fun p =>
    match node with
    | None => Fault NullDeref
    | Some i =>
        match storage_ p !! i with
        | Some (Some nd) => Done (nd, p)
        | Some None => Fault NullDeref
        | None => Fault OutOfRange
        end
    end.

(** [node->next = nxt]. *)
Definition store_next (node : option nat) (nxt : option nat) : M pool unit :=
  let* nd := deref node in
  match node with
  | Some i =>
      modify (fun p => set_storage_ (<[i := Some (mkNode (obj nd) nxt)]> (storage_ p)) p)
  | None => crash NullDeref
  end.

(** Whether the next weak compare-exchange fails spuriously. *)
Definition flip : M pool bool :=
  fun p =>
    let '(b, sp) := pop_flag (spurious p) in
    Done (b, set_spurious sp p).

(** [head_.compare_exchange_weak(expected, desired)]: the success flag and
    [expected] as the call leaves it (the current [head_] after a failure). *)
Definition cas_head_ (expected desired : option nat) : M pool (bool * option nat) :=
  let* p := get in
  if decide (head_ p = expected) then
    let* fails := flip in
    if (fails : bool) then ret (false, head_ p)
    else (let* _ := modify (set_head_ desired) in ret (true, expected))
  else ret (false, head_ p).

(** ** LockFreeObjectPool *)

(** [explicit LockFreeObjectPool(size_t size) : storage_(size)].  A vector
    larger than what the free store can supply is an allocation failure. *)
Definition LockFreeObjectPool (size : N) : M pool unit :=
  let* p := get in
  if decide (free_store p < size)%N then throw bad_alloc
  else
    let* _ := modify (set_storage_ (replicate (N.to_nat size) None)) in
    let* _ := for_loop size
                (fun i _ => let* nd := make_unique_Node in storage_put i (Some nd)) tt in
    (* link them *)
    let* _ := for_loop (size_t_wrap (Z.of_N size - 1))
                (fun i _ =>
                   let* nxt := storage_get (N.succ i) in
                   let* u := storage_at i in
                   match u with
                   | Some _ => store_next (Some (N.to_nat i)) nxt
                   | None => crash NullDeref
                   end) tt in
    let last := size_t_wrap (Z.of_N size - 1) in
    let* u := storage_at last in
    let* _ := match u with
              | Some _ => store_next (Some (N.to_nat last)) None
              | None => crash NullDeref
              end in
    let* first := storage_get 0%N in
    modify (set_head_ first).

(** The bookkeeping of [acquire]: [acquire_addresses_] gets the address
    unless it is there already. *)
Definition note_acquired (i : nat) (p : pool) : pool :=
  if decide (i ∈ acquire_addresses_ p) then p
  else set_acquire_addresses_ ({[i]} ∪ acquire_addresses_ p) p.

(** [acquire()]: the returned [shared_ptr] is the node it owns, [None]
    when null.  The loop is [while (node)]; the check of [node] comes
    before any round is spent.  The allocations behind [std::set::insert]
    and the [shared_ptr] control block, both on the path that got a node,
    are taken to succeed. *)
Fixpoint acquire_loop (fuel : nat) (node : option nat) : M pool (option nat) :=
  match node with
  | None =>
      (* pool exhausted: the message is printed and the counter bumped *)
      let* _ := modify (fun p => set_exhaust_count_ (exhaust_count_ p + 1) p) in
      ret None
  | Some i =>
      match fuel with
      | O => spin
      | S fuel' =>
          let* nd := deref node in
          let nxt := next nd in
          let* r := cas_head_ node nxt in
          if fst r then
            (* got a node *)
            let* _ := modify (note_acquired i) in
            ret (Some i)
          else acquire_loop fuel' (snd r)
      end
  end.

Definition acquire (fuel : nat) : M pool (option nat) :=
  let* p := get in
  acquire_loop fuel (head_ p).

Definition capacity : M pool N :=
  let* p := get in
  ret (N.of_nat (length (storage_ p))).

(** [approximateAvailable()]: the walk along [next] from [head_]. *)
Fixpoint count_loop (fuel : nat) (curr : option nat) (count : N) : M pool N :=
  match curr with
  | None => ret count
  | Some _ =>
      match fuel with
      | O => spin
      | S fuel' =>
          let* nd := deref curr in
          count_loop fuel' (next nd) (N.succ count)
      end
  end.

Definition approximateAvailable (fuel : nat) : M pool N :=
  let* p := get in
  count_loop fuel (head_ p) 0%N.

(** [release(obj)]: [obj] is identified with the node that contains it
    (the code recovers the node by [offsetof]).  A [do ... while] loop. *)
Fixpoint release_loop (fuel : nat) (node : nat) (oldHead : option nat) : M pool unit :=
  match fuel with
  | O => spin
  | S fuel' =>
      let* _ := store_next (Some node) oldHead in
      let* r := cas_head_ oldHead (Some node) in
      if fst r then ret tt
      else release_loop fuel' node (snd r)
  end.

Definition release (fuel : nat) (obj : nat) : M pool unit :=
  let* p := get in
  release_loop fuel obj (head_ p).

(** ** Clients *)

(** A client holds the non-null [shared_ptr]s it got from [acquire] and
    drops them one at a time; dropping runs the deleter, that is
    [release].  [release] is private: this is the only way to reach it. *)
Inductive op : Set :=
| Acquire
| Release (h : nat).

Fixpoint remove_one (h : nat) (held : list nat) : list nat :=
  match held with
  | [] => []
  | x :: rest => if decide (x = h) then rest else x :: remove_one h rest
  end.

Definition step (fuel : nat) (o : op) (held : list nat) : M pool (list nat) :=
  match o with
  | Acquire =>
      let* r := acquire fuel in
      ret (match r with Some i => i :: held | None => held end)
  | Release h =>
      if decide (h ∈ held) then
        let* _ := release fuel h in ret (remove_one h held)
      else ret held
  end.

Fixpoint run (fuel : nat) (ops : list op) (held : list nat) : M pool (list nat) :=
  match ops with
  | [] => ret held
  | o :: ops' => let* held' := step fuel o held in run fuel ops' held'
  end.

(** ** Overlapping calls *)

(** Where a thread stands inside [acquire] or [release], between two
    accesses to the shared members. *)
Inductive position : Set :=
| Idle
| Acquire_loaded (node : option nat)
| Acquire_read (node : nat) (nxt : option nat)
| Release_loaded (node : nat) (oldHead : option nat)
| Release_linked (node : nat) (oldHead : option nat).

(** A thread: where it stands, the calls it still has to make, and the
    handles it holds. *)
Record thread : Set := Thread {
  position_of : position;
  calls : list op;
  handles : list nat;
}.

(** One access to the shared members by thread [t]: [head_.load()],
    [node->next], [node->next = oldHead] or one compare-exchange. *)
Definition advance (t : thread) : M pool thread :=
  match position_of t with
  | Idle =>
      match calls t with
      | [] => ret t
      | Acquire :: rest =>
          let* p := get in
          ret (Thread (Acquire_loaded (head_ p)) rest (handles t))
      | Release h :: rest =>
          if decide (h ∈ handles t) then
            let* p := get in
            ret (Thread (Release_loaded h (head_ p)) rest (remove_one h (handles t)))
          else ret (Thread Idle rest (handles t))
      end
  | Acquire_loaded None =>
      let* _ := modify (fun p => set_exhaust_count_ (exhaust_count_ p + 1) p) in
      ret (Thread Idle (calls t) (handles t))
  | Acquire_loaded (Some i) =>
      let* nd := deref (Some i) in
      ret (Thread (Acquire_read i (next nd)) (calls t) (handles t))
  | Acquire_read i nxt =>
      let* r := cas_head_ (Some i) nxt in
      if fst r then
        let* _ := modify (note_acquired i) in
        ret (Thread Idle (calls t) (i :: handles t))
      else ret (Thread (Acquire_loaded (snd r)) (calls t) (handles t))
  | Release_loaded h oldHead =>
      let* _ := store_next (Some h) oldHead in
      ret (Thread (Release_linked h oldHead) (calls t) (handles t))
  | Release_linked h oldHead =>
      let* r := cas_head_ oldHead (Some h) in
      if fst r then ret (Thread Idle (calls t) (handles t))
      else ret (Thread (Release_loaded h (snd r)) (calls t) (handles t))
  end.

(** The threads advance one access at a time, in the order of the
    schedule. *)
Fixpoint interleave (schedule : list nat) (ts : list thread) : M pool (list thread) :=
  match schedule with
  | [] => ret ts
  | k :: rest =>
      match ts !! k with
      | Some t => let* t' := advance t in interleave rest (<[k := t']> ts)
      | None => interleave rest ts
      end
  end.

(** The free list: the nodes met by following [next] from [p] to null. *)
Fixpoint free_list (st : list (option Node)) (p : option nat) (fl : list nat) : Prop :=
  match fl with
  | [] => p = None
  | i :: fl' => p = Some i ∧ ∃ nd, st !! i = Some (Some nd) ∧ free_list st (next nd) fl'
  end.

(** A program: the constructor on raw members, then the client's calls. *)
Definition program (mem : N) (junk : Z) (sp : list bool) (size : N)
           (fuel : nat) (ops : list op) : outcome (list nat * pool) :=
  (let* _ := LockFreeObjectPool size in run fuel ops []) (raw mem junk sp).

(** The arena of [n] nodes is split between the handles held by the
    client and the free list [fl]. *)
Record pool_inv (p : pool) (n : nat) (held fl : list nat) : Prop := PoolInv {
  pinv_len : length (storage_ p) = n;
  pinv_nodes : ∀ i, (i < n)%nat → ∃ nd, storage_ p !! i = Some (Some nd);
  pinv_free : free_list (storage_ p) (head_ p) fl;
  pinv_part : held ++ fl ≡ₚ seq 0 n;
}.

(** A vector of [n] slots whose content is given slot by slot. *)
Definition shaped (f : nat → option Node) (n : nat) (l : list (option Node)) : Prop :=
  length l = n ∧ ∀ j, (j < n)%nat → l !! j = Some (f j).

(** The slots during the first loop of the constructor: the first [i]
    hold a fresh node. *)
Definition filled_to (i : nat) (j : nat) : option Node :=
  if decide (j < i)%nat then Some (mkNode 0 None) else None.

(** The slots during the second loop: the first [i] nodes are linked to
    their successors. *)
Definition linked_to (i : nat) (j : nat) : option Node :=
  Some (mkNode 0 (if decide (j < i)%nat then Some (S j) else None)).

(** The reference the pool is compared with: a stack [fl] of free nodes
    and the handles [held] by the client, after the calls. *)
Fixpoint stack (ops : list op) (held fl : list nat) : list nat * list nat :=
  match ops with
  | [] => (held, fl)
  | Acquire :: ops' =>
      match fl with
      | i :: fl' => stack ops' (i :: held) fl'
      | [] => stack ops' held []
      end
  | Release h :: ops' =>
      if decide (h ∈ held) then stack ops' (remove_one h held) (h :: fl)
      else stack ops' held fl
  end.

End Pool.

(** * The block allocator: poolAllocator.h *)

Module Alloc.

(** [sizeof(Node)] for [struct Node { Node* next; }] on a 64-bit target. *)
Definition sizeof_Node : N := 8.

(** The members of [LockFreePool].  Addresses are byte offsets from
    [buffer_]; [None] is [nullptr].  [links] holds the [next] field written
    at the start of a block; [buffer_size] is the byte size given to
    [operator new]. *)
Record LockFreePool : Type := PoolState {
  head_ : option N;
  links : gmap N (option N);
  buffer_size : N;
  blockSize_ : N;
  capacity_ : N;
  spurious : list bool;
}.

Definition set_head_ (h : option N) (a : LockFreePool) : LockFreePool :=
  PoolState h (links a) (buffer_size a) (blockSize_ a) (capacity_ a) (spurious a).
Definition set_links (l : gmap N (option N)) (a : LockFreePool) : LockFreePool :=
  PoolState (head_ a) l (buffer_size a) (blockSize_ a) (capacity_ a) (spurious a).
Definition set_spurious (sp : list bool) (a : LockFreePool) : LockFreePool :=
  PoolState (head_ a) (links a) (buffer_size a) (blockSize_ a) (capacity_ a) sp.

(** [node->next = nxt] for [node] at offset [off]. *)
Definition store_next (node : option N) (nxt : option N) : M LockFreePool unit :=
  fun a =>
    match node with
    | None => Fault NullDeref
    | Some off =>
        if decide (off + sizeof_Node <= buffer_size a)%N then
          Done (tt, set_links (<[off := nxt]> (links a)) a)
        else Fault OutOfRange
    end.

(** [node->next]. *)
Definition load_next (node : option N) : M LockFreePool (option N) :=
  fun a =>
    match node with
    | None => Fault NullDeref
    | Some off =>
        match links a !! off with
        | Some nxt => Done (nxt, a)
        | None => Fault OutOfRange
        end
    end.

Definition flip : M LockFreePool bool :=
  fun a =>
    let '(b, sp) := pop_flag (spurious a) in
    Done (b, set_spurious sp a).

Definition cas_head_ (expected desired : option N) : M LockFreePool (bool * option N) :=
  let* a := get in
  if decide (head_ a = expected) then
    let* fails := flip in
    if (fails : bool) then ret (false, head_ a)
    else (let* _ := modify (set_head_ desired) in ret (true, expected))
  else ret (false, head_ a).

(** One round of the constructor's loop: the block at
    [start + i * blockSize_] is linked to [prev] and becomes [prev]. *)
Definition link_block (blockSize_ : N) (i : N) (prev : option N)
  : M LockFreePool (option N) :=
  let node := Some (size_t_wrap (Z.of_N i * Z.of_N blockSize_)) in
  let* _ := store_next node prev in
  ret node.

(** The constructor; [mem] is the number of bytes [operator new] can
    supply. *)
Definition LockFreePool_ctor (mem : N) (sp : list bool) (blockSize capacity : N)
  : outcome (unit * LockFreePool) :=
  let blockSize_ := if decide (blockSize < sizeof_Node)%N then sizeof_Node else blockSize in
  let bytes := size_t_wrap (Z.of_N blockSize_ * Z.of_N capacity) in
  if decide (mem < bytes)%N then Throw bad_alloc
  else
    (let* prev := for_loop capacity (link_block blockSize_) None in
     modify (set_head_ prev))
      (PoolState None ∅ bytes blockSize_ capacity sp).

(** [allocate()]: the block, or [std::bad_alloc]. *)
Fixpoint allocate_loop (fuel : nat) (oldHead : option N) : M LockFreePool N :=
  match oldHead with
  | None => throw bad_alloc
  | Some b =>
      match fuel with
      | O => spin
      | S fuel' =>
          let* nxt := load_next oldHead in
          let* r := cas_head_ oldHead nxt in
          if fst r then ret b
          else allocate_loop fuel' (snd r)
      end
  end.

Definition allocate (fuel : nat) : M LockFreePool N :=
  let* a := get in
  allocate_loop fuel (head_ a).

(** [deallocate(p)]. *)
Fixpoint deallocate_loop (fuel : nat) (node : option N) (oldHead : option N)
  : M LockFreePool unit :=
  match fuel with
  | O => spin
  | S fuel' =>
      let* _ := store_next node oldHead in
      let* r := cas_head_ oldHead node in
      if fst r then ret tt
      else deallocate_loop fuel' node (snd r)
  end.

Definition deallocate (fuel : nat) (p : option N) : M LockFreePool unit :=
  let* a := get in
  deallocate_loop fuel p (head_ a).

(** Every block that [head_] or a link points to has its own link
    written: the walk along the free list never reads outside it. *)
Definition links_closed (a : LockFreePool) : Prop :=
  (∀ b, head_ a = Some b → is_Some (links a !! b)) ∧
  (∀ b nxt, links a !! b = Some (Some nxt) → is_Some (links a !! nxt)).

(** The free list: the blocks met by following [next] from [p] to null. *)
Fixpoint free_blocks (l : gmap N (option N)) (p : option N) (bs : list N) : Prop :=
  match bs with
  | [] => p = None
  | b :: bs' => p = Some b ∧ ∃ nxt, l !! b = Some nxt ∧ free_blocks l nxt bs'
  end.

(** ** Clients *)

(** A client holds the blocks it got from [allocate] and gives them back
    one at a time, each one once; an [allocate] that throws ends the
    run. *)
Inductive op : Set :=
| Allocate
| Deallocate (p : N).

Fixpoint remove_one (p : N) (held : list N) : list N :=
  match held with
  | [] => []
  | x :: rest => if decide (x = p) then rest else x :: remove_one p rest
  end.

Definition step (fuel : nat) (o : op) (held : list N) : M LockFreePool (list N) :=
  match o with
  | Allocate =>
      let* b := allocate fuel in
      ret (b :: held)
  | Deallocate p =>
      if decide (p ∈ held) then
        let* _ := deallocate fuel (Some p) in ret (remove_one p held)
      else ret held
  end.

Fixpoint run (fuel : nat) (ops : list op) (held : list N) : M LockFreePool (list N) :=
  match ops with
  | [] => ret held
  | o :: ops' => let* held' := step fuel o held in run fuel ops' held'
  end.

(** A program: the constructor, then the client's calls. *)
Definition program (mem : N) (sp : list bool) (blockSize capacity : N)
           (fuel : nat) (ops : list op) : outcome (list N * LockFreePool) :=
  match LockFreePool_ctor mem sp blockSize capacity with
  | Done (_, a) => run fuel ops [] a
  | Throw e => Throw e
  | Fault x => Fault x
  | OutOfFuel => OutOfFuel
  end.

(** The reference the allocator is compared with: a stack [fl] of free
    blocks and the blocks [held] by the client after the calls, or nothing
    when an [allocate] found the stack empty. *)
Fixpoint blocks (ops : list op) (held fl : list N) : option (list N * list N) :=
  match ops with
  | [] => Some (held, fl)
  | Allocate :: ops' =>
      match fl with
      | b :: fl' => blocks ops' (b :: held) fl'
      | [] => None
      end
  | Deallocate p :: ops' =>
      if decide (p ∈ held) then blocks ops' (remove_one p held) (p :: fl)
      else blocks ops' held fl
  end.

(** [count] calls of [allocate()] in a row, with the blocks they return. *)
Fixpoint allocate_many (fuel count : nat) : M LockFreePool (list N) :=
  match count with
  | O => ret []
  | S count' =>
      let* b := allocate fuel in
      let* bs := allocate_many fuel count' in
      ret (b :: bs)
  end.

End Alloc.

(** * The allocator adapter: PoolAllocator<T> of poolAllocator.h *)

Module PoolAllocator.

(** The [LockFreePool] objects of a program, by address. *)
Definition pools : Type := gmap nat Alloc.LockFreePool.

(** The one member: [pool_], the address of a pool or [nullptr]. *)
Record PoolAllocator : Set := mkPoolAllocator { pool_ : option nat }.

(** [PoolAllocator(LockFreePool* pool = nullptr)]. *)
Definition PoolAllocator_ctor (pool : option nat) : PoolAllocator := mkPoolAllocator pool.

(** [PoolAllocator(const PoolAllocator<U>& other)]. *)
Definition PoolAllocator_copy (other : PoolAllocator) : PoolAllocator :=
  mkPoolAllocator (pool_ other).

(** [pool_->f(...)]: the member function [f] runs on the pool that [pool_]
    points to. *)
Definition on_pool {A} (pool_ : option nat) (f : M Alloc.LockFreePool A) : M pools A :=
  fun ps =>
    match pool_ with
    | None => Fault NullDeref
    | Some k =>
        match ps !! k with
        | None => Fault DanglingDeref
        | Some a =>
            match f a with
            | Done (r, a') => Done (r, <[k := a']> ps)
            | Throw e => Throw e
            | Fault x => Fault x
            | OutOfFuel => OutOfFuel
            end
        end
    end.

(** [T* allocate(std::size_t n)]. *)
Definition allocate (fuel : nat) (this : PoolAllocator) (n : N) : M pools N :=
  if decide (n ≠ 1%N) then throw bad_alloc (* fixed-size pool *)
  else on_pool (pool_ this) (Alloc.allocate fuel).

(** [void deallocate(T* p, std::size_t)]. *)
Definition deallocate (fuel : nat) (this : PoolAllocator) (p : option N) (n : N)
  : M pools unit :=
  on_pool (pool_ this) (Alloc.deallocate fuel p).

(** [operator==] and [operator!=]. *)
Definition operator_eq (a b : PoolAllocator) : bool := bool_decide (pool_ a = pool_ b).
Definition operator_ne (a b : PoolAllocator) : bool := negb (operator_eq a b).

End PoolAllocator.

(** * Facts about the monad and the loops *)

Section Monad.
Context {S A B : Type}.

Lemma bind_Done (c : M S A) (k : A -> M S B) s a s' :
  c s = Done (a, s') → bind c k s = k a s'.
Proof. unfold bind. by intros ->. Qed.

End Monad.

(** Symbolic execution of one round: simplify, rewrite with the facts at
    hand, settle the comparisons that are decided. *)
Ltac msimp tac :=
  repeat (simpl;
          first [ tac
                | rewrite decide_True by done
                | rewrite decide_False by done ]);
  simpl.

(** The same with the two facts most rounds need: what a pointer points
    to, and what the [next] of that node is. *)
Ltac round Hnode Hnext := msimp ltac:(first [rewrite Hnode | rewrite Hnext]).

Section Loops.
Context {S A : Type} (body : N -> A -> M S A).

Lemma for_nat_add j : ∀ k i a s,
  for_nat (j + k) body i a s
  = (let* r := for_nat j body i a in for_nat k body (fst r) (snd r)) s.
Proof.
  induction j as [|j IH]; intros k i a s; simpl; [done |].
  unfold bind. destruct (body i a s) as [[a' s']| | |]; first [done | by rewrite IH].
Qed.

Lemma for_pos_nat c : ∀ i a s,
  for_pos c body i a s = for_nat (Pos.to_nat c) body i a s.
Proof.
  induction c as [c IH|c IH|]; intros i a s.
  - rewrite Pos2Nat.inj_xI.
    replace (2 * Pos.to_nat c)%nat with (Pos.to_nat c + Pos.to_nat c)%nat by lia.
    simpl. unfold bind. destruct (body i a s) as [[a' s']| | |]; try done.
    rewrite for_nat_add. unfold bind. rewrite IH.
    destruct (for_nat (Pos.to_nat c) body (N.succ i) a' s') as [[r s'']| | |];
      first [done | apply IH].
  - rewrite Pos2Nat.inj_xO.
    replace (2 * Pos.to_nat c)%nat with (Pos.to_nat c + Pos.to_nat c)%nat by lia.
    simpl. rewrite for_nat_add. unfold bind. rewrite IH.
    destruct (for_nat (Pos.to_nat c) body i a s) as [[r s'']| | |];
      first [done | apply IH].
  - simpl. unfold bind. by destruct (body i a s) as [[a' s']| | |].
Qed.

Lemma for_pos_fails_first c : ∀ i a s f,
  body i a s = Fault f → for_pos c body i a s = Fault f.
Proof.
  induction c as [c IH|c IH|]; intros i a s f Hf; simpl; unfold bind.
  - by rewrite Hf.
  - by rewrite (IH _ _ _ _ Hf).
  - by rewrite Hf.
Qed.

Lemma for_loop_nat bound a s :
  for_loop bound body a s
  = (let* r := for_nat (N.to_nat bound) body 0%N a in ret (snd r)) s.
Proof.
  destruct bound as [|c]; simpl; [done |].
  unfold bind. by rewrite for_pos_nat.
Qed.
End Loops.

(** * Facts about the queue *)

Module QueueFacts.
Import Queue.

(** ** The scan of the hazard table *)

Lemma hazard_scan_true slots node :
  hazard_scan slots node = true ↔ node ∈ slots.
Proof.
  induction slots as [|p rest IH]; simpl.
  - split; [done | by intros ?%elem_of_nil].
  - case_decide as Hp.
    + subst. split; [intros _; left | done].
    + rewrite IH. split; [by right |].
      intros [?|?]%elem_of_cons; [congruence | done].
Qed.

Lemma hazard_scan_false slots node :
  hazard_scan slots node = false ↔ node ∉ slots.
Proof.
  rewrite <- hazard_scan_true. destruct (hazard_scan slots node); naive_solver.
Qed.

(** C1.  For every state of the hazard-pointer table, [retire_node] frees
    the (live) node it is given only if no slot of [hazard_pointers] holds
    its address: the node leaves the heap exactly when no slot holds it,
    it enters [freed] only then, and when some slot holds it the call
    leaves the whole state as it was (the free is deferred). *)
Theorem retire_node_respects_hazards (w : world) (node : positive) :
  is_Some (heap w !! node) →
  ∃ w', retire_node (Some node) w = Done (tt, w') ∧
        (heap w' !! node = None ↔ Some node ∉ hazard_pointers w) ∧
        (node ∈ freed w' → node ∉ freed w → Some node ∉ hazard_pointers w) ∧
        (Some node ∈ hazard_pointers w → w' = w).
Proof.
  intros [nd Hnd]. unfold retire_node, bind, get, ret, delete_Node.
  destruct (hazard_scan (hazard_pointers w) (Some node)) eqn:Hscan.
  - apply hazard_scan_true in Hscan. exists w. split; [done |].
    split; [| by split].
    rewrite Hnd. split; [done | intros Hn; by destruct Hn].
  - apply hazard_scan_false in Hscan. rewrite Hnd.
    eexists. split; [done |]. simpl.
    split; [| by split].
    split; [done | intros _; apply lookup_delete_eq].
Qed.

Lemma retire_node_respects_hazards_witness :
  let w := World {[ 1%positive := mkNode 0 (Some 2%positive);
                    2%positive := mkNode 5 None ]} 3 []
                 (<[3%nat := Some 1%positive]> (replicate 16 None)) 4 ∅
                 (Some 2%positive) (Some 2%positive) [] in
  is_Some (heap w !! 1%positive) ∧
  ∃ w', retire_node (Some 1%positive) w = Done (tt, w') ∧
        (heap w' !! 1%positive = None ↔ Some 1%positive ∉ hazard_pointers w) ∧
        (1%positive ∈ freed w' → 1%positive ∉ freed w →
         Some 1%positive ∉ hazard_pointers w) ∧
        (Some 1%positive ∈ hazard_pointers w → w' = w).
Proof.
  intros w.
  assert (Hlive : is_Some (heap w !! 1%positive)) by (by eexists).
  split; [exact Hlive |].
  exact (retire_node_respects_hazards w 1%positive Hlive).
Defined.

(** ** Chains of nodes *)

Lemma chain_frame h h' p ls :
  chain h p ls → (∀ l, l ∈ ls.*1 → h' !! l = h !! l) → chain h' p ls.
Proof.
  revert p. induction ls as [|[l v] ls IH]; simpl; intros p; [done |].
  intros (-> & nx & Hl & Hc) Hsame. split; [done |].
  exists nx. split.
  - rewrite Hsame; [done | left].
  - apply IH; [done |]. intros l' Hl'. apply Hsame. by right.
Qed.

Lemma chain_lookup h p ls l :
  chain h p ls → l ∈ ls.*1 → ∃ v nx, (l, v) ∈ ls ∧ h !! l = Some (mkNode v nx).
Proof.
  revert p. induction ls as [|[l0 v0] ls IH]; simpl; intros p.
  - by intros _ ?%elem_of_nil.
  - intros (-> & nx & Hl & Hc) [->|Hin]%elem_of_cons.
    + exists v0, nx. split; [left | done].
    + destruct (IH _ Hc Hin) as (v & nx' & ? & ?).
      exists v, nx'. split; [by right | done].
Qed.

Lemma chain_next_in h p ls t nd x :
  chain h p ls → t ∈ ls.*1 → h !! t = Some nd → next nd = Some x → x ∈ ls.*1.
Proof.
  revert p. induction ls as [|[l0 v0] ls IH]; simpl; intros p.
  - by intros _ ?%elem_of_nil.
  - intros (-> & nx & Hl & Hc) [->|Hin]%elem_of_cons Ht Hx.
    + rewrite Hl in Ht. injection Ht as <-. simpl in Hx. subst nx.
      destruct ls as [|[l1 v1] ls]; simpl in Hc; [done |].
      destruct Hc as [[= <-] _]. right. left.
    + right. by eapply IH.
Qed.

Lemma chain_end h p ls t nd :
  chain h p ls → t ∈ ls.*1 → h !! t = Some nd → next nd = None →
  ∃ pre, ls = pre ++ [(t, value nd)].
Proof.
  revert p. induction ls as [|[l0 v0] ls IH]; simpl; intros p.
  - by intros _ ?%elem_of_nil.
  - intros (-> & nx & Hl & Hc) Hin Ht Hx.
    destruct (decide (t = l0)) as [->|Hne].
    + rewrite Hl in Ht. injection Ht as <-. simpl in Hx. subst nx.
      destruct ls as [|[l1 v1] ls]; simpl in Hc; [| by destruct Hc].
      by exists [].
    + apply elem_of_cons in Hin as [?|Hin]; [done |].
      destruct (IH _ Hc Hin Ht Hx) as [pre ->].
      by exists ((l0, v0) :: pre).
Qed.

Lemma chain_snoc h p pre t v l' v' :
  chain h p (pre ++ [(t, v)]) → NoDup (pre ++ [(t, v)]).*1 →
  h !! l' = Some (mkNode v' None) → l' ∉ (pre ++ [(t, v)]).*1 →
  chain (<[t := mkNode v (Some l')]> h) p (pre ++ [(t, v); (l', v')]).
Proof.
  revert p. induction pre as [|[l0 v0] pre IH]; simpl; intros p.
  - intros (-> & nx & Hl & Hc) _ Hl' Hnin. split; [done |].
    exists (Some l'). split; [apply lookup_insert_eq |].
    split; [done |]. exists None. split; [| done].
    rewrite lookup_insert_ne; [done |]. intros ->. apply Hnin. left.
  - intros (-> & nx & Hl & Hc) Hnd Hl' Hnin. split; [done |].
    apply NoDup_cons in Hnd as [Hl0 Hnd].
    exists nx. split.
    + rewrite lookup_insert_ne; [done |]. intros ->. apply Hl0.
      rewrite fmap_app. apply elem_of_app. right. left.
    + apply IH; [done | done | done |]. intros Hin. apply Hnin. by right.
Qed.

(** ** One round of [enqueue] and of [dequeue] *)

Lemma enqueue_loop_S fuel l' w t nd :
  tail w = Some t → heap w !! t = Some nd →
  enqueue_loop (S fuel) l' w =
    match next nd with
    | None =>
        match pop_flag (spurious w) with
        | (true, sp) => enqueue_loop fuel l' (set_spurious sp w)
        | (false, sp) =>
            let w1 := set_heap (<[t := mkNode (value nd) (Some l')]> (heap w))
                               (set_spurious sp w) in
            match pop_flag sp with
            | (true, sp') => Done (tt, set_spurious sp' w1)
            | (false, sp') => Done (tt, set_tail (Some l') (set_spurious sp' w1))
            end
        end
    | Some x =>
        match pop_flag (spurious w) with
        | (true, sp) => enqueue_loop fuel l' (set_spurious sp w)
        | (false, sp) => enqueue_loop fuel l' (set_tail (Some x) (set_spurious sp w))
        end
    end.
Proof.
  intros Ht Hnd. destruct w as [h b f hp ni tl hd tp sp]. simpl in *. subst tp.
  unfold bind, get, deref, cas_next, cas_tail, bind, deref, flip, get, ret, modify.
  destruct (next nd) as [x|] eqn:Hnx.
  - round Hnd Hnx. destruct sp as [|[] sp]; by round Hnd Hnx.
  - round Hnd Hnx.
    destruct sp as [|[] sp]; round Hnd Hnx; try done.
    destruct sp as [|[] sp]; by round Hnd Hnx.
Qed.

Lemma hazard_scan_publish hidx (hp : list (option positive)) p :
  0 <= hidx < Z.of_nat (length hp) →
  hazard_scan (<[Z.to_nat hidx := p]> hp) p = true.
Proof.
  intros Hr. apply hazard_scan_true, list_elem_of_lookup.
  exists (Z.to_nat hidx). apply list_lookup_insert_eq. lia.
Qed.

Lemma dequeue_loop_empty fuel hidx result out w d nd :
  head w = Some d → tail w = Some d → heap w !! d = Some nd → next nd = None →
  0 <= hidx < Z.of_nat (length (hazard_pointers w)) →
  dequeue_loop (S fuel) hidx result out w = Done ((false, out), publish hidx w).
Proof.
  intros Hh Ht Hnd Hnx Hr. destruct w as [h b f hp ni tl hd tp sp].
  simpl in *. subst hd tp.
  unfold bind, get, store_hazard, deref, ret. by round Hnd Hnx.
Qed.

Lemma dequeue_loop_help fuel hidx result out w d nd x :
  head w = Some d → tail w = Some d → heap w !! d = Some nd → next nd = Some x →
  0 <= hidx < Z.of_nat (length (hazard_pointers w)) →
  dequeue_loop (S fuel) hidx result out w =
    match pop_flag (spurious w) with
    | (true, sp) => dequeue_loop fuel hidx result out (set_spurious sp (publish hidx w))
    | (false, sp) =>
        dequeue_loop fuel hidx result out
                     (set_tail (Some x) (set_spurious sp (publish hidx w)))
    end.
Proof.
  intros Hh Ht Hnd Hnx Hr. destruct w as [h b f hp ni tl hd tp sp].
  simpl in *. subst hd tp.
  unfold bind, get, store_hazard, deref, cas_tail, bind, get, flip, ret, modify.
  round Hnd Hnx. destruct sp as [|[] sp]; by round Hnd Hnx.
Qed.

Lemma dequeue_loop_take fuel hidx (result : bool) out w d nd x ndx :
  head w = Some d → tail w ≠ Some d → heap w !! d = Some nd → next nd = Some x →
  heap w !! x = Some ndx →
  0 <= hidx < Z.of_nat (length (hazard_pointers w)) →
  let out' := if result then Some (value ndx) else out in
  dequeue_loop (S fuel) hidx result out w =
    match pop_flag (spurious w) with
    | (true, sp) => dequeue_loop fuel hidx result out' (set_spurious sp (publish hidx w))
    | (false, sp) =>
        Done ((true, out'), set_head (Some x) (set_spurious sp (publish hidx w)))
    end.
Proof.
  intros Hh Ht Hnd Hnx Hx Hr. destruct w as [h b f hp ni tl hd tp sp].
  simpl in *. subst hd.
  pose proof (hazard_scan_publish hidx hp (Some d) Hr) as Hscan.
  unfold bind, get, store_hazard, deref, cas_head, retire_node,
    bind, get, flip, ret, modify.
  round Hnd Hnx.
  destruct result; msimp ltac:(first [rewrite Hx | rewrite Hnd]).
  all: destruct sp as [|[] sp]; by msimp ltac:(rewrite Hscan).
Qed.

(** ** [enqueue] keeps the shape and appends *)

Lemma queue_inv_ext w w' ls :
  queue_inv w ls →
  heap w' = heap w → head w' = head w → tail w' = tail w → brk w' = brk w →
  length (hazard_pointers w') = length (hazard_pointers w) →
  tls_idx w' = tls_idx w → next_index w' = next_index w →
  queue_inv w' ls.
Proof.
  intros [] Hh Hhd Htl Hb Hhp Htls Hni.
  split; rewrite ?Hh, ?Hhd, ?Htl, ?Hb, ?Hhp, ?Htls, ?Hni; done.
Qed.

Lemma fst_snoc_last (ls : list (positive * Z)) l v : l ∈ (ls ++ [(l, v)]).*1.
Proof. rewrite fmap_app. apply elem_of_app. right. left. Qed.

Lemma fst_snoc_old (ls : list (positive * Z)) x l : l ∈ ls.*1 → l ∈ (ls ++ [x]).*1.
Proof. intros ?. rewrite fmap_app. apply elem_of_app. by left. Qed.

Lemma enq_frame_trans w1 w2 w3 :
  enq_frame w1 w2 → enq_frame w2 w3 → enq_frame w1 w3.
Proof.
  unfold enq_frame.
  intros (?&?&?&?&?&?&Hd&?) (?&?&?&?&?&?&Hd'&?).
  repeat split; try congruence; try lia.
  - intros ?. by apply Hd, Hd'.
  - intros ?. by apply Hd', Hd.
Qed.

Lemma enqueue_loop_at_end sp : ∀ w ls t nd l' v' fuel,
  spurious w = sp → queue_inv w ls →
  tail w = Some t → heap w !! t = Some nd → next nd = None →
  heap w !! l' = Some (mkNode v' None) → l' ∉ ls.*1 →
  (length sp < fuel)%nat →
  ∃ w', enqueue_loop fuel l' w = Done (tt, w') ∧
        queue_inv w' (ls ++ [(l', v')]) ∧ enq_frame w w'.
Proof.
  induction sp as [|flag sp IH]; intros w ls t nd l' v' fuel Hsp Hinv Ht Hnd Hnx Hl' Hfresh Hfuel;
    (destruct fuel as [|fuel]; [simpl in Hfuel; lia |]);
    rewrite (enqueue_loop_S _ _ _ _ _ Ht Hnd), Hnx, Hsp; simpl.
  2: destruct flag.
  2: { (* a spurious failure of the linking exchange *)
    destruct (IH (set_spurious sp w) ls t nd l' v' fuel) as (w' & Hrun & Hinv' & Hfr);
      try done.
    - by eapply queue_inv_ext.
    - simpl in Hfuel. lia.
    - exists w'. split; [done |]. split; [done |].
      eapply enq_frame_trans; [| exact Hfr].
      unfold enq_frame. simpl. rewrite Hsp. simpl. repeat split; auto; lia. }
  all: destruct Hinv as [Hch Hnd' (t0 & Ht0 & Htin & Hnear) Hbrk Hslots Htls Hcnt Hbound];
    rewrite Ht in Ht0; injection Ht0 as <-;
    destruct (chain_end _ _ _ _ _ Hch Htin Hnd Hnx) as [pre ->];
    assert (Hne : t ≠ l') by (by intros ->);
    pose proof (chain_snoc _ _ _ _ _ _ _ Hch Hnd' Hl' Hfresh) as Hch';
    assert (Hnd'' : NoDup ((pre ++ [(t, value nd)]) ++ [(l', v')]).*1)
      by (rewrite fmap_app; apply NoDup_app; split; [done |];
          split; [by intros ? ? ->%list_elem_of_singleton | apply NoDup_singleton]);
    assert (Hdom : ∀ l, is_Some (<[t := mkNode (value nd) (Some l')]> (heap w) !! l)
                        ↔ is_Some (heap w !! l))
      by (intros l; destruct (decide (l = t)) as [->|];
          [rewrite lookup_insert_eq, Hnd; split; eauto
          | by rewrite lookup_insert_ne]).
  - (* no failure left: linked, and [tail] moved *)
    eexists. split; [done |]. split.
    + split; simpl; try done.
      * rewrite <- (assoc_L (++)). exact Hch'.
      * exists l'. split; [done |]. split.
        { apply fst_snoc_last. }
        exists (mkNode v' None). split; [by rewrite lookup_insert_ne | by left].
      * intros l Hl. apply Hbrk. by apply Hdom.
    + unfold enq_frame. simpl. rewrite Hsp. repeat split; auto; apply Hdom.
  - (* linked; the next exchange may fail and leave [tail] behind *)
    destruct sp as [|[] sp]; simpl.
    all: eexists; (split; [done |]); split.
    all: try (unfold enq_frame; simpl; rewrite Hsp; simpl; repeat split; auto; try apply Hdom; lia).
    all: split; simpl; try done.
    all: try (rewrite <- (assoc_L (++)); exact Hch').
    all: try (intros l Hl; apply Hbrk; by apply Hdom).
    + exists l'. split; [done |]. split.
      { apply fst_snoc_last. }
      exists (mkNode v' None). split; [by rewrite lookup_insert_ne | by left].
    + exists t. split; [done |]. split.
      { by apply fst_snoc_old. }
      exists (mkNode (value nd) (Some l')). split; [apply lookup_insert_eq |].
      right. exists l', (mkNode v' None). split; [done |].
      split; [by rewrite lookup_insert_ne | done].
    + exists l'. split; [done |]. split.
      { apply fst_snoc_last. }
      exists (mkNode v' None). split; [by rewrite lookup_insert_ne | by left].
Qed.

Lemma queue_inv_advance_tail w ls t nd x sp :
  queue_inv w ls → tail w = Some t → heap w !! t = Some nd → next nd = Some x →
  queue_inv (set_tail (Some x) (set_spurious sp w)) ls ∧
  ∃ ndx, heap w !! x = Some ndx ∧ next ndx = None.
Proof.
  intros [Hch Hnd' (t0 & Ht0 & Htin & Hnear) Hbrk Hslots Htls Hcnt Hbound] Ht Hnd Hnx.
  rewrite Ht in Ht0. injection Ht0 as <-.
  destruct Hnear as (nd0 & Hnd0 & Hcase). rewrite Hnd in Hnd0. injection Hnd0 as <-.
  destruct Hcase as [Hnone | (l & ndl & Hl & Hndl & Hnl)]; [congruence |].
  rewrite Hnx in Hl. injection Hl as <-.
  split; [| by exists ndl].
  split; simpl; try done.
  exists x. split; [done |]. split; [by eapply chain_next_in |].
  exists ndl. split; [done | by left].
Qed.

Lemma enqueue_loop_spec sp : ∀ w ls l' v' fuel,
  spurious w = sp → queue_inv w ls →
  heap w !! l' = Some (mkNode v' None) → l' ∉ ls.*1 →
  (length sp + 1 < fuel)%nat →
  ∃ w', enqueue_loop fuel l' w = Done (tt, w') ∧
        queue_inv w' (ls ++ [(l', v')]) ∧ enq_frame w w'.
Proof.
  induction sp as [|flag sp IH]; intros w ls l' v' fuel Hsp Hinv Hl' Hfresh Hfuel.
  all: pose proof Hinv as [_ _ (t & Ht & Htin & nd & Hnd & _) _ _ _ _ _].
  all: destruct (next nd) as [x|] eqn:Hnx;
    [| eapply enqueue_loop_at_end; eauto; simpl in *; lia].
  all: destruct fuel as [|fuel]; [simpl in Hfuel; lia |].
  all: rewrite (enqueue_loop_S _ _ _ _ _ Ht Hnd), Hnx, Hsp; simpl.
  all: try destruct flag.
  2: { destruct (IH (set_spurious sp w) ls l' v' fuel) as (w' & Hrun & Hinv' & Hfr);
         try done.
       - by eapply queue_inv_ext.
       - simpl in Hfuel. lia.
       - exists w'. split; [done |]. split; [done |].
         eapply enq_frame_trans; [| exact Hfr].
         unfold enq_frame. simpl. rewrite Hsp. simpl. repeat split; auto; lia. }
  all: match goal with
       | |- context [set_tail (Some ?y) (set_spurious ?sp' ?w0)] =>
           destruct (queue_inv_advance_tail w0 ls t nd y sp' Hinv Ht Hnd Hnx)
             as (Hinv2 & ndx & Hndx & Hnone);
           destruct (enqueue_loop_at_end sp' (set_tail (Some y) (set_spurious sp' w0))
                       ls y ndx l' v' fuel) as (w' & Hrun & Hinv' & Hfr);
           try done; try (simpl in *; lia)
       end.
  all: exists w'; (split; [done |]); (split; [done |]).
  all: eapply enq_frame_trans; [| exact Hfr].
  all: unfold enq_frame; simpl; rewrite Hsp; simpl; repeat split; auto; lia.
Qed.

Lemma enqueue_spec w ls v fuel :
  queue_inv w ls → (length (spurious w) + 1 < fuel)%nat →
  ∃ w', enqueue fuel v w = Done (tt, w') ∧
        queue_inv w' (ls ++ [(brk w, v)]) ∧ enq_post w w'.
Proof.
  intros Hinv Hfuel. unfold enqueue, new_Node, bind.
  set (w1 := set_brk _ _).
  assert (Hnew : heap w !! brk w = None).
  { destruct (heap w !! brk w) eqn:E; [| done].
    assert (brk w < brk w)%positive by (apply (inv_brk _ _ Hinv); eauto). lia. }
  assert (Hfresh : brk w ∉ ls.*1).
  { intros Hin. destruct (chain_lookup _ _ _ _ (inv_chain _ _ Hinv) Hin) as (?&?&_&?).
    congruence. }
  assert (Hother : ∀ l, l ∈ ls.*1 →
                        <[brk w := mkNode v None]> (heap w) !! l = heap w !! l).
  { intros l Hl. rewrite lookup_insert_ne; [done |]. by intros <-. }
  assert (Hinv1 : queue_inv w1 ls).
  { destruct Hinv as [Hch Hnd' (t & Ht & Htin & nd & Hnd & Hcase) Hbrk Hslots Htls Hcnt Hbound].
    split; simpl; try done.
    - by apply chain_frame with (heap w).
    - exists t. split; [done |]. split; [done |].
      exists nd. split; [by rewrite (Hother t Htin) |].
      destruct Hcase as [?|(l & ndl & ? & Hndl & ?)]; [by left | right].
      exists l, ndl. split; [done |]. split; [| done].
      rewrite lookup_insert_ne; [done |]. intros <-. congruence.
    - intros l [n Hl]. destruct (decide (l = brk w)) as [->|Hne]; [lia |].
      rewrite lookup_insert_ne in Hl by done.
      assert (l < brk w)%positive by (apply Hbrk; eauto). lia. }
  destruct (enqueue_loop_spec (spurious w) w1 ls (brk w) v fuel)
    as (w' & Hrun & Hinv' & Hfr); try done.
  { simpl. apply lookup_insert_eq. }
  exists w'. split; [done |]. split; [done |].
  destruct Hfr as (?&?&?&?&?&?&Hd&?). unfold enq_post.
  repeat split; try done.
  - intros Hl. apply Hd in Hl. simpl in Hl.
    destruct (decide (l = brk w)) as [->|Hne]; [by right | left].
    by rewrite lookup_insert_ne in Hl.
  - intros [Hl | ->]; apply Hd; simpl.
    + destruct (decide (l = brk w)) as [->|Hne].
      * rewrite lookup_insert_eq. eauto.
      * by rewrite lookup_insert_ne.
    + rewrite lookup_insert_eq. eauto.
Qed.

(** ** [dequeue] keeps the shape and takes the first value *)

Lemma publish_again hidx sp w :
  publish hidx (set_spurious sp (publish hidx w)) = set_spurious sp (publish hidx w).
Proof.
  destruct w. unfold publish. simpl. by rewrite list_insert_insert_eq.
Qed.

Lemma publish_after_tail hidx sp p w :
  publish hidx (set_tail p (set_spurious sp (publish hidx w)))
  = set_tail p (set_spurious sp (publish hidx w)).
Proof.
  destruct w. unfold publish. simpl. by rewrite list_insert_insert_eq.
Qed.

(** [head] is ahead of [tail]: the loop takes the successor of [head]. *)
Lemma dequeue_loop_takes sp : ∀ fuel hidx (result : bool) out w d nd x ndx,
  spurious w = sp →
  head w = Some d → tail w ≠ Some d → heap w !! d = Some nd → next nd = Some x →
  heap w !! x = Some ndx →
  0 <= hidx < Z.of_nat (length (hazard_pointers w)) →
  (length sp < fuel)%nat →
  ∃ sp', (length sp' <= length sp)%nat ∧
    dequeue_loop fuel hidx result out w =
      Done ((true, if result then Some (value ndx) else out),
            set_head (Some x) (set_spurious sp' (publish hidx w))).
Proof.
  induction sp as [|flag sp IH];
    intros fuel hidx result out w d nd x ndx Hsp Hh Ht Hnd Hnx Hx Hr Hfuel.
  all: destruct fuel as [|fuel]; [simpl in Hfuel; lia |].
  all: rewrite (dequeue_loop_take _ _ _ _ _ _ _ _ _ Hh Ht Hnd Hnx Hx Hr), Hsp; simpl.
  - exists []. done.
  - destruct flag.
    + destruct (IH fuel hidx result (if result then Some (value ndx) else out)
                  (set_spurious sp (publish hidx w)) d nd x ndx)
        as (sp' & Hlen & Hrun); try done.
      { unfold publish. simpl. by rewrite length_insert. }
      { simpl in Hfuel. lia. }
      exists sp'. split; [simpl; lia |].
      rewrite Hrun, publish_again. by destruct result, w.
    + exists sp. split; [simpl; lia | done].
Qed.

(** [tail] lags on [head]: the loop first helps [tail] forward. *)
Lemma dequeue_loop_helps sp : ∀ fuel hidx (result : bool) out w d nd x ndx,
  spurious w = sp →
  head w = Some d → tail w = Some d → heap w !! d = Some nd → next nd = Some x →
  heap w !! x = Some ndx → x ≠ d →
  0 <= hidx < Z.of_nat (length (hazard_pointers w)) →
  (length sp + 1 < fuel)%nat →
  ∃ sp', (length sp' <= length sp)%nat ∧
    dequeue_loop fuel hidx result out w =
      Done ((true, if result then Some (value ndx) else out),
            set_head (Some x) (set_tail (Some x) (set_spurious sp' (publish hidx w)))).
Proof.
  induction sp as [|flag sp IH];
    intros fuel hidx result out w d nd x ndx Hsp Hh Ht Hnd Hnx Hx Hne Hr Hfuel.
  all: destruct fuel as [|fuel]; [simpl in Hfuel; lia |].
  all: rewrite (dequeue_loop_help _ _ _ _ _ _ _ _ Hh Ht Hnd Hnx Hr), Hsp; simpl.
  all: try destruct flag.
  2: { destruct (IH fuel hidx result out (set_spurious sp (publish hidx w)) d nd x ndx)
         as (sp' & Hlen & Hrun); try done.
       { unfold publish. simpl. by rewrite length_insert. }
       { simpl in Hfuel. lia. }
       exists sp'. split; [simpl; lia |].
       rewrite Hrun, publish_again. by destruct w. }
  all: match goal with
       | |- context [set_tail (Some ?y) (set_spurious ?sp0 (publish _ ?w0))] =>
           destruct (dequeue_loop_takes sp0 fuel hidx result out
                       (set_tail (Some y) (set_spurious sp0 (publish hidx w0)))
                       d nd y ndx) as (sp' & Hlen & Hrun);
           try done;
           [ simpl; congruence
           | unfold publish; simpl; by rewrite length_insert
           | simpl in *; lia
           | exists sp'; split; [simpl in *; lia |];
             rewrite Hrun, publish_after_tail; by destruct w0 ]
       end.
Qed.

Lemma get_hazard_index_spec w ls tid :
  queue_inv w ls → has_slot w tid →
  ∃ hidx w', get_hazard_index tid w = Done (hidx, w') ∧ queue_inv w' ls ∧
    tls_idx w' !! tid = Some hidx ∧ 0 <= hidx < MAX_THREADS ∧
    dom (tls_idx w') = {[tid]} ∪ dom (tls_idx w) ∧
    heap w' = heap w ∧ head w' = head w ∧ tail w' = tail w ∧
    freed w' = freed w ∧ brk w' = brk w ∧
    hazard_pointers w' = hazard_pointers w ∧ spurious w' = spurious w.
Proof.
  intros Hinv Hslot. unfold get_hazard_index.
  destruct (tls_idx w !! tid) as [idx|] eqn:Htid; simpl.
  - pose proof (inv_tls _ _ Hinv _ _ Htid) as Hidx.
    pose proof (inv_bound _ _ Hinv) as Hb.
    rewrite decide_False by lia.
    exists idx, w. split_and!; try done; try lia.
    apply elem_of_dom_2 in Htid. clear -Htid. set_solver.
  - destruct Hslot as [[? Hsome]|Hroom]; [congruence |].
    rewrite decide_True by done.
    pose proof (inv_count _ _ Hinv) as Hcnt.
    eexists _, _. split; [done |].
    split; [| simpl; repeat split; try done; try lia;
              [apply lookup_insert_eq | apply dom_insert_L]].
    destruct Hinv as [Hch Hnd' Htl Hbrk Hslots Htls _ Hbound].
    split; simpl; try done.
    + intros tid' idx'. destruct (decide (tid' = tid)) as [->|Hne].
      * rewrite lookup_insert_eq. intros [= <-]. lia.
      * rewrite lookup_insert_ne by done. intros H%Htls. lia.
    + rewrite dom_insert_L, size_union, size_singleton; [lia |].
      apply not_elem_of_dom in Htid. clear -Htid. set_solver.
    + lia.
Qed.

Lemma dequeue_spec w d dv rest tid (result : bool) fuel :
  queue_inv w ((d, dv) :: rest) → has_slot w tid →
  (length (spurious w) + 1 < fuel)%nat →
  ∃ w', deq_post w w' tid ∧
    match rest with
    | [] =>
        dequeue fuel tid result w = Done ((false, None), w') ∧
        queue_inv w' [(d, dv)]
    | (x, xv) :: rest' =>
        dequeue fuel tid result w
          = Done ((true, if result then Some xv else None), w') ∧
        queue_inv w' ((x, xv) :: rest')
    end.
Proof.
  intros Hinv Hslot Hfuel.
  destruct (get_hazard_index_spec w _ tid Hinv Hslot)
    as (hidx & w1 & Hget & Hinv1 & Htid & Hidx & Hdom & Hh & Hhd & Htl & Hfr & Hbrk & Hhp & Hsp).
  unfold dequeue. rewrite (bind_Done _ _ _ _ _ Hget).
  pose proof Hinv1 as [Hch Hnd (t & Ht & Htin & Hnear) _ Hslots _ _ _].
  assert (Hr : 0 <= hidx < Z.of_nat (length (hazard_pointers w1)))
    by (rewrite Hslots; unfold MAX_THREADS in *; lia).
  simpl in Hch. destruct Hch as (Hhead & nx & Hd & Hch).
  assert (Hslot' : hazard_pointers (publish hidx w1) !! Z.to_nat hidx = Some (head w)).
  { unfold publish. simpl. rewrite Hhd. apply list_lookup_insert_eq. lia. }
  destruct rest as [|[x xv] rest'].
  - (* only the dummy *)
    simpl in Hch. subst nx.
    assert (t = d) as -> by (simpl in Htin; by apply list_elem_of_singleton in Htin).
    destruct fuel as [|fuel]; [lia |].
    rewrite (dequeue_loop_empty _ _ _ _ _ _ _ Hhead Ht Hd eq_refl Hr).
    exists (publish hidx w1). split.
    + unfold deq_post. simpl. rewrite Hsp. split_and!; try done.
      exists hidx. split_and!; try done; lia.
    + split; [done |]. eapply queue_inv_ext; [exact Hinv1 | try done ..].
      unfold publish. simpl. by rewrite length_insert.
  - (* at least one value *)
    simpl in Hch. destruct Hch as (-> & nx' & Hx & Hch).
    simpl in Hnd. apply NoDup_cons in Hnd as [Hdx Hnd].
    assert (Hne : x ≠ d) by (intros ->; apply Hdx; left).
    destruct (decide (t = d)) as [->|Htd].
    + (* [tail] lags on the dummy *)
      destruct (dequeue_loop_helps (spurious w1) fuel hidx result None w1 d _ x _
                  eq_refl Hhead Ht Hd eq_refl Hx Hne Hr) as (sp' & Hlen & Hrun);
        [rewrite Hsp; lia |].
      rewrite Hrun. simpl. eexists. split; [| split; [done |]].
      * unfold deq_post. simpl. rewrite <- Hsp. split_and!; try done.
        exists hidx. split_and!; try done; lia.
      * destruct Hnear as (nd0 & Hnd0 & Hcase). rewrite Hd in Hnd0.
        injection Hnd0 as <-. simpl in Hcase.
        destruct Hcase as [? | (l & ndl & [= <-] & Hndl & Hnl)]; [done |].
        rewrite Hx in Hndl. injection Hndl as <-. simpl in Hnl. subst nx'.
        destruct Hinv1 as [_ _ _ Hbrk1 _ Htls1 Hcnt1 Hb1].
        split; simpl; try done.
        -- split; [done |]. by exists None.
        -- exists x. split; [done |]. split; [left |].
           exists (mkNode xv None). split; [done | by left].
        -- by rewrite length_insert.
    + (* [head] is ahead of [tail] *)
      assert (Ht' : tail w1 ≠ Some d) by (rewrite Ht; congruence).
      destruct (dequeue_loop_takes (spurious w1) fuel hidx result None w1 d _ x _
                  eq_refl Hhead Ht' Hd eq_refl Hx Hr) as (sp' & Hlen & Hrun);
        [rewrite Hsp; lia |].
      rewrite Hrun. simpl. eexists. split; [| split; [done |]].
      * unfold deq_post. simpl. rewrite <- Hsp. split_and!; try done.
        exists hidx. split_and!; try done; lia.
      * destruct Hinv1 as [_ _ _ Hbrk1 _ Htls1 Hcnt1 Hb1].
        split; simpl; try done.
        -- split; [done |]. by exists nx'.
        -- exists t. split; [done |]. split; [| done].
           simpl in Htin. apply elem_of_cons in Htin as [?|?]; done.
        -- by rewrite length_insert.
Qed.

(** ** Sequences of calls *)

Lemma queue_inv_nonempty w ls : queue_inv w ls → ∃ d dv rest, ls = (d, dv) :: rest.
Proof.
  intros [_ _ (t & _ & Htin & _) _ _ _ _ _].
  destruct ls as [|[d dv] rest]; [by apply elem_of_nil in Htin | eauto].
Qed.

Lemma contents_snoc ls x v : ls ≠ [] → contents (ls ++ [(x, v)]) = contents ls ++ [v].
Proof. destruct ls; [done |]. intros _. unfold contents. simpl. by rewrite fmap_app. Qed.

Lemma has_slot_room w ls tid :
  queue_inv w ls →
  (size ({[tid]} ∪ dom (tls_idx w)) <= Z.to_nat MAX_THREADS)%nat →
  has_slot w tid.
Proof.
  intros Hinv Hsize.
  destruct (tls_idx w !! tid) as [idx|] eqn:Htid; [left; eauto | right].
  rewrite (inv_count _ _ Hinv).
  apply not_elem_of_dom in Htid.
  rewrite size_union, size_singleton in Hsize by (clear -Htid; set_solver).
  unfold MAX_THREADS in *. lia.
Qed.

Lemma queue_step_spec o w ls fuel :
  queue_inv w ls → no_free w →
  (size (consumers [o] ∪ dom (tls_idx w)) <= Z.to_nat MAX_THREADS)%nat →
  (length (spurious w) + 1 < fuel)%nat →
  ∃ r q' w' ls',
    fifo [o] (contents ls) = [r] ∧
    step fuel o w = Done (r, w') ∧
    (∀ ops, fifo (o :: ops) (contents ls) = r :: fifo ops q') ∧
    contents ls' = q' ∧
    queue_inv w' ls' ∧ no_free w' ∧
    (length (spurious w') <= length (spurious w))%nat ∧
    dom (tls_idx w') = consumers [o] ∪ dom (tls_idx w).
Proof.
  intros Hinv [Hfreed Hlive] Hthreads Hfuel.
  destruct (queue_inv_nonempty _ _ Hinv) as (d & dv & rest & ->).
  destruct o as [v | tid result]; simpl.
  - destruct (enqueue_spec w _ v fuel Hinv Hfuel) as (w' & Hrun & Hinv' & Hpost).
    destruct Hpost as (_ & _ & Htls & _ & Hfr & Hbrk & Hdom & Hlen).
    exists None, (contents ((d, dv) :: rest) ++ [v]), w', (((d, dv) :: rest) ++ [(brk w, v)]).
    split; [done |]. split; [by rewrite (bind_Done _ _ _ _ _ Hrun) |].
    split; [done |]. split; [by apply contents_snoc |]. split; [done |].
    split; [| split; [done |]].
    + split; [congruence |]. intros l Hl. apply Hdom. rewrite Hbrk in Hl.
      destruct (decide (l = brk w)) as [->|]; [by right | left].
      apply Hlive. lia.
    + rewrite Htls. clear. set_solver.
  - assert (Hslot : has_slot w tid).
    { eapply has_slot_room; [done |]. etrans; [| exact Hthreads].
      apply subseteq_size. simpl. clear. set_solver. }
    destruct (dequeue_spec w d dv rest tid result fuel Hinv Hslot Hfuel) as (w' & Hpost & Hcase).
    destruct Hpost as (Hh & Hfr & Hbrk & Hlen & Hdom & _).
    assert (Hnf : no_free w').
    { split; [congruence |]. intros l Hl. rewrite Hh. apply Hlive. by rewrite <- Hbrk. }
    assert (Hdom' : dom (tls_idx w') = {[tid]} ∪ ∅ ∪ dom (tls_idx w)).
    { rewrite Hdom. clear. set_solver. }
    destruct rest as [|[x xv] rest']; destruct Hcase as [Hrun Hinv'].
    + exists (Some (false, None)), [], w', [(d, dv)].
      split; [done |]. split; [by rewrite (bind_Done _ _ _ _ _ Hrun) |]. done.
    + exists (Some (true, if result then Some xv else None)), (contents ((x, xv) :: rest')),
        w', ((x, xv) :: rest').
      split; [done |]. split; [by rewrite (bind_Done _ _ _ _ _ Hrun) |]. done.
Qed.

Lemma queue_run_spec ops : ∀ w ls fuel,
  queue_inv w ls → no_free w →
  (size (consumers ops ∪ dom (tls_idx w)) <= Z.to_nat MAX_THREADS)%nat →
  (length (spurious w) + 1 < fuel)%nat →
  ∃ w' ls',
    run fuel ops w = Done (fifo ops (contents ls), w') ∧
    queue_inv w' ls' ∧ no_free w' ∧
    (length (spurious w') <= length (spurious w))%nat ∧
    dom (tls_idx w') = consumers ops ∪ dom (tls_idx w).
Proof.
  induction ops as [|o ops IH]; intros w ls fuel Hinv Hnf Hthreads Hfuel.
  - exists w, ls. simpl. split_and!; try done. clear. set_solver.
  - assert (Hsub : consumers (o :: ops) = consumers [o] ∪ consumers ops).
    { destruct o; simpl; clear; set_solver. }
    destruct (queue_step_spec o w ls fuel Hinv Hnf) as
      (r & q' & w1 & ls1 & _ & Hstep & Hfifo & Hq & Hinv1 & Hnf1 & Hlen & Hdom);
      [| done |].
    { etrans; [| exact Hthreads]. apply subseteq_size. rewrite Hsub. clear. set_solver. }
    destruct (IH w1 ls1 fuel Hinv1 Hnf1) as (w' & ls' & Hrun & Hinv' & Hnf' & Hlen' & Hdom');
      [| lia |].
    { etrans; [| exact Hthreads]. apply subseteq_size. rewrite Hdom, Hsub. clear. set_solver. }
    exists w', ls'. split; [| split_and!; try done; try lia].
    2: { rewrite Hdom', Hdom, Hsub. clear. set_solver. }
    rewrite Hfifo, <- Hq. simpl.
    by rewrite (bind_Done _ _ _ _ _ Hstep), (bind_Done _ _ _ _ _ Hrun).
Qed.

(** The state the constructor leaves. *)
Lemma LockFreeQueue_spec sp :
  ∃ w, LockFreeQueue (boot sp) = Done (tt, w) ∧
       queue_inv w [(1%positive, 0)] ∧ no_free w ∧
       tls_idx w = ∅ ∧ spurious w = sp.
Proof.
  eexists. split; [done |]. simpl. split_and!; try done.
  - split; simpl; try done.
    + split; [done |]. exists None. split; [| done]. apply lookup_insert_eq.
    + apply NoDup_singleton.
    + exists 1%positive. split; [done |]. split; [left |].
      exists (mkNode 0 None). split; [apply lookup_insert_eq | by left].
    + intros l [n Hl]. destruct (decide (l = 1%positive)) as [->|Hne]; [done |].
      by rewrite lookup_insert_ne in Hl.
  - split; [done |]. simpl. intros l Hl. assert (l = 1%positive) as -> by lia.
    rewrite lookup_insert_eq. eauto.
Qed.

Lemma queue_program_spec sp fuel ops :
  (length sp + 1 < fuel)%nat →
  (size (consumers ops) <= Z.to_nat MAX_THREADS)%nat →
  ∃ w ls,
    program sp fuel ops = Done (fifo ops [], w) ∧
    queue_inv w ls ∧ no_free w ∧ (length (spurious w) <= length sp)%nat ∧
    dom (tls_idx w) = consumers ops.
Proof.
  intros Hfuel Hthreads.
  destruct (LockFreeQueue_spec sp) as (w0 & Hctor & Hinv0 & Hnf0 & Htls0 & Hsp0).
  destruct (queue_run_spec ops w0 _ fuel Hinv0 Hnf0) as (w & ls & Hrun & Hinv & Hnf & Hlen & Hdom).
  - rewrite Htls0, dom_empty_L, (right_id_L ∅ (∪)). done.
  - rewrite Hsp0. done.
  - exists w, ls. split; [| split_and!; try done; [by rewrite <- Hsp0 |]].
    + unfold program. by rewrite (bind_Done _ _ _ _ _ Hctor).
    + rewrite Hdom, Htls0, dom_empty_L. clear. set_solver.
Qed.

(** ** The statements about the queue *)

Lemma fifo_enqueues vs : ∀ q rest,
  fifo (map Enq vs ++ rest) q = replicate (length vs) None ++ fifo rest (q ++ vs).
Proof.
  induction vs as [|v vs IH]; intros q rest; simpl.
  - by rewrite (right_id_L [] (++)).
  - by rewrite IH, <- (assoc_L (++)).
Qed.

Lemma fifo_drain tid q : ∀ rest,
  fifo (replicate (length q) (Deq tid true) ++ rest) q
  = map (λ v, Some (true, Some v)) q ++ fifo rest [].
Proof.
  induction q as [|v q IH]; intros rest; simpl; [done |]. by rewrite IH.
Qed.

Lemma consumers_app ops1 ops2 : consumers (ops1 ++ ops2) = consumers ops1 ∪ consumers ops2.
Proof.
  induction ops1 as [|[v|tid r] ops1 IH]; simpl; rewrite ?IH; clear; set_solver.
Qed.

Lemma consumers_enqueues vs : consumers (map Enq vs) = ∅.
Proof. by induction vs. Qed.

Lemma consumers_one tid r n : consumers (replicate n (Deq tid r)) ⊆ {[tid]}.
Proof. induction n as [|n IH]; simpl; [clear | clear -IH]; set_solver. Qed.

(** For any sequence of calls, by at most [MAX_THREADS] dequeuing
    threads, the queue answers as the first-in first-out reference. *)
Lemma program_refines_fifo sp fuel ops :
  (length sp + 1 < fuel)%nat →
  (size (consumers ops) <= Z.to_nat MAX_THREADS)%nat →
  ∃ w, program sp fuel ops = Done (fifo ops [], w).
Proof.
  intros Hfuel Hthreads.
  destruct (queue_program_spec sp fuel ops Hfuel Hthreads) as (w & _ & Hrun & _).
  by exists w.
Qed.

(** C2.  First in, first out for one producer and one consumer: after
    construction, for every list [vs] of values enqueued in order, every
    schedule [sp] of spurious exchange failures and enough fuel, the
    consumer [tid] dequeues exactly [vs] in the same order, and one more
    [dequeue] reports Empty.  (Enqueue answers nothing, hence the [None]s.)
    The instance [1; 2; 3] is the witness below. *)
Theorem queue_is_fifo (vs : list Z) (tid : nat) (sp : list bool) (fuel : nat) :
  (length sp + 1 < fuel)%nat →
  ∃ w, program sp fuel
         (map Enq vs ++ replicate (length vs) (Deq tid true) ++ [Deq tid true])
       = Done (replicate (length vs) None
               ++ map (λ v, Some (true, Some v)) vs
               ++ [Some (false, None)], w).
Proof.
  intros Hfuel.
  destruct (queue_program_spec sp fuel
              (map Enq vs ++ replicate (length vs) (Deq tid true) ++ [Deq tid true]) Hfuel)
    as (w & ls & Hrun & _).
  - rewrite !consumers_app, consumers_enqueues. simpl.
    pose proof (consumers_one tid true (length vs)) as Hsub.
    etrans; [apply (subseteq_size _ {[tid]}); clear -Hsub; set_solver |].
    rewrite size_singleton. unfold MAX_THREADS. lia.
  - exists w. rewrite Hrun, fifo_enqueues. simpl. by rewrite fifo_drain.
Qed.

Lemma queue_is_fifo_witness :
  (length [true; false; true] + 1 < 5)%nat ∧
  ∃ w, program [true; false; true] 5
         [Enq 1; Enq 2; Enq 3; Deq 1 true; Deq 1 true; Deq 1 true; Deq 1 true]
       = Done ([None; None; None;
                Some (true, Some 1); Some (true, Some 2); Some (true, Some 3);
                Some (false, None)], w).
Proof.
  split; [simpl; lia |].
  apply (queue_is_fifo [1; 2; 3] 1%nat [true; false; true] 5). simpl. lia.
Defined.

(** C3, where the code departs from it.  The claim has every return path
    of [dequeue] clear the slot of the calling thread.  The code has no
    such store: after any sequence of calls, a [dequeue] by [tid] returns
    (Empty or a value) and leaves the slot of [tid] holding the non-null
    address it published, the [head] node the call found.  On the path
    that removed a value this is the node handed to [retire_node], which
    therefore finds it in the table and never reaches [delete]. *)
Theorem dequeue_keeps_slot_published (sp : list bool) (fuel : nat) (ops : list op)
        (tid : nat) (result : bool) :
  (length sp + 1 < fuel)%nat →
  (size (consumers (ops ++ [Deq tid result])) <= Z.to_nat MAX_THREADS)%nat →
  ∃ rs w r w' hidx published,
    program sp fuel ops = Done (rs, w) ∧
    dequeue fuel tid result w = Done (r, w') ∧
    head w = Some published ∧
    tls_idx w' !! tid = Some hidx ∧
    hazard_pointers w' !! Z.to_nat hidx = Some (Some published).
Proof.
  intros Hfuel Hthreads. rewrite consumers_app in Hthreads. simpl in Hthreads.
  destruct (queue_program_spec sp fuel ops Hfuel) as (w & ls & Hrun & Hinv & _ & Hlen & Hdom).
  { etrans; [| exact Hthreads]. apply subseteq_size. clear. set_solver. }
  destruct (queue_inv_nonempty _ _ Hinv) as (d & dv & rest & ->).
  assert (Hslot : has_slot w tid).
  { eapply has_slot_room; [done |]. etrans; [| exact Hthreads].
    apply subseteq_size. rewrite Hdom. clear. set_solver. }
  destruct (dequeue_spec w d dv rest tid result fuel Hinv Hslot) as (w' & Hpost & Hcase);
    [lia |].
  destruct Hpost as (_ & _ & _ & _ & _ & hidx & Htid & _ & Hhp).
  pose proof (inv_chain _ _ Hinv) as (Hhead & _).
  rewrite Hhead in Hhp.
  destruct rest as [|[x xv] rest']; destruct Hcase as [Hdeq _];
    eexists _, w, _, w', hidx, d; done.
Qed.

Lemma dequeue_keeps_slot_published_witness :
  (length [true] + 1 < 3)%nat ∧
  (size (consumers ([Enq 7; Deq 4 true] ++ [Deq 2 false])) <= Z.to_nat MAX_THREADS)%nat ∧
  ∃ rs w r w' hidx published,
    program [true] 3 [Enq 7; Deq 4 true] = Done (rs, w) ∧
    dequeue 3 2 false w = Done (r, w') ∧
    head w = Some published ∧
    tls_idx w' !! 2%nat = Some hidx ∧
    hazard_pointers w' !! Z.to_nat hidx = Some (Some published).
Proof.
  assert (H1 : (length [true] + 1 < 3)%nat) by (simpl; lia).
  assert (H2 : (size (consumers ([Enq 7; Deq 4 true] ++ [Deq 2 false]))
                <= Z.to_nat MAX_THREADS)%nat) by (vm_compute; lia).
  split; [exact H1 |]. split; [exact H2 |].
  exact (dequeue_keeps_slot_published [true] 3 [Enq 7; Deq 4 true] 2 false H1 H2).
Defined.

(** The failing run of C3, on both return paths.  Thread 0 dequeues twice
    from a queue holding 7: the first call removes 7 and returns with
    slot 0 still on node 1, the old head it published; the second call
    reports Empty and returns with slot 0 on node 2, the head it
    published. *)
Lemma dequeue_clears_slot_counterexample :
  ∃ w w1 w2,
    program [] 2 [Enq 7] = Done ([None], w) ∧
    head w = Some 1%positive ∧
    dequeue 2 0 true w = Done ((true, Some 7), w1) ∧
    tls_idx w1 !! 0%nat = Some 0 ∧
    hazard_pointers w1 !! 0%nat = Some (Some 1%positive) ∧
    head w1 = Some 2%positive ∧
    dequeue 2 0 true w1 = Done ((false, None), w2) ∧
    tls_idx w2 !! 0%nat = Some 0 ∧
    hazard_pointers w2 !! 0%nat = Some (Some 2%positive).
Proof.
  eexists _, _, _.
  split; [vm_compute; reflexivity |].
  split; [reflexivity |].
  split; [vm_compute; reflexivity |].
  split; [reflexivity |]. split; [reflexivity |]. split; [reflexivity |].
  split; [vm_compute; reflexivity |].
  split; reflexivity.
Qed.

(** What the slot that is not cleared costs.  In the state the first
    [dequeue] of that run leaves, [retire_node] on the removed node 1 finds
    it in slot 0 and returns without freeing it; had the slot been cleared
    first, as the claim has it, the same call would free node 1. *)
Example uncleared_slot_blocks_reclamation :
  ∃ w w1 w2 w3,
    program [] 2 [Enq 7] = Done ([None], w) ∧
    dequeue 2 0 true w = Done ((true, Some 7), w1) ∧
    retire_node (Some 1%positive) w1 = Done (tt, w1) ∧
    freed w1 = [] ∧ is_Some (heap w1 !! 1%positive) ∧
    store_hazard 0 None w1 = Done (tt, w2) ∧
    retire_node (Some 1%positive) w2 = Done (tt, w3) ∧
    freed w3 = [1%positive] ∧ heap w3 !! 1%positive = None.
Proof.
  eexists _, _, _, _.
  split; [vm_compute; reflexivity |].
  split; [vm_compute; reflexivity |].
  split; [vm_compute; reflexivity |].
  split; [reflexivity |]. split; [by eexists |].
  split; [vm_compute; reflexivity |].
  split; [vm_compute; reflexivity |].
  split; reflexivity.
Qed.

(** C4, what the code does instead.  No call ever frees a node: after any
    sequence of [enqueue] and [dequeue] calls nothing has been handed to
    [delete], and every node ever allocated, the ones removed by a
    successful [dequeue] included, is still live.  [retire_node] finds the
    node in the caller's own slot, defers, and keeps no record of it. *)
Theorem retired_nodes_never_freed (sp : list bool) (fuel : nat) (ops : list op) :
  (length sp + 1 < fuel)%nat →
  (size (consumers ops) <= Z.to_nat MAX_THREADS)%nat →
  ∃ rs w,
    program sp fuel ops = Done (rs, w) ∧
    freed w = [] ∧
    ∀ l, (l < brk w)%positive → is_Some (heap w !! l).
Proof.
  intros Hfuel Hthreads.
  destruct (queue_program_spec sp fuel ops Hfuel Hthreads) as (w & ls & Hrun & _ & [Hfr Hlive] & _).
  by exists (fifo ops []), w.
Qed.

Lemma retired_nodes_never_freed_witness :
  (length (@nil bool) + 1 < 2)%nat ∧
  (size (consumers [Enq 1; Enq 2; Deq 0 true; Deq 0 true]) <= Z.to_nat MAX_THREADS)%nat ∧
  ∃ rs w,
    program [] 2 [Enq 1; Enq 2; Deq 0 true; Deq 0 true] = Done (rs, w) ∧
    freed w = [] ∧
    ∀ l, (l < brk w)%positive → is_Some (heap w !! l).
Proof.
  assert (H1 : (length (@nil bool) + 1 < 2)%nat) by (simpl; lia).
  assert (H2 : (size (consumers [Enq 1; Enq 2; Deq 0 true; Deq 0 true])
                <= Z.to_nat MAX_THREADS)%nat) by (vm_compute; lia).
  split; [exact H1 |]. split; [exact H2 |].
  exact (retired_nodes_never_freed [] 2 [Enq 1; Enq 2; Deq 0 true; Deq 0 true] H1 H2).
Defined.

(** The first dummy after two dequeues: unreachable, in no hazard slot,
    and still not freed. *)
Example abandoned_node :
  ∃ w, program [] 2 [Enq 1; Enq 2; Deq 0 true; Deq 0 true]
       = Done ([None; None; Some (true, Some 1); Some (true, Some 2)], w) ∧
       head w = Some 3%positive ∧ tail w = Some 3%positive ∧
       Some 1%positive ∉ hazard_pointers w ∧
       is_Some (heap w !! 1%positive) ∧
       freed w = [].
Proof.
  eexists. split; [vm_compute; reflexivity |].
  split; [reflexivity |]. split; [reflexivity |].
  split; [| split; [by eexists | reflexivity]].
  apply hazard_scan_false. reflexivity.
Qed.

(** Even the destructor leaves them: it drains the queue through
    [dequeue] and deletes only the node under [head]. *)
Example destructor_leaks :
  ∃ w, (let* _ := LockFreeQueue in
        let* _ := run 2 [Enq 1; Enq 2] in
        LockFreeQueue_dtor 3 2 0) (boot [])
       = Done (tt, w) ∧
       freed w = [3%positive] ∧
       is_Some (heap w !! 1%positive) ∧ is_Some (heap w !! 2%positive).
Proof.
  eexists. split; [vm_compute; reflexivity |].
  split; [reflexivity |]. split; by eexists.
Qed.

(** C9.  After construction and any sequence of [enqueue] and [dequeue]
    calls, [head] and [tail] are non-null, the node under [head] (the
    dummy) is live, and a [dequeue] by any thread that can have a slot
    returns, reporting Empty exactly when [head == tail] and
    [head->next] is null.  The state holds no element counter. *)
Theorem queue_structure (sp : list bool) (fuel : nat) (ops : list op) :
  (length sp + 1 < fuel)%nat →
  (size (consumers ops) <= Z.to_nat MAX_THREADS)%nat →
  ∃ rs w,
    program sp fuel ops = Done (rs, w) ∧
    head w ≠ None ∧ tail w ≠ None ∧
    (∃ l nd, head w = Some l ∧ heap w !! l = Some nd) ∧
    ∀ tid result, has_slot w tid →
      ∃ b out w', dequeue fuel tid result w = Done ((b, out), w') ∧
                  (b = false ↔ structurally_empty w).
Proof.
  intros Hfuel Hthreads.
  destruct (queue_program_spec sp fuel ops Hfuel Hthreads) as (w & ls & Hrun & Hinv & _ & Hlen & _).
  exists (fifo ops []), w. split; [done |].
  destruct (queue_inv_nonempty _ _ Hinv) as (d & dv & rest & ->).
  pose proof Hinv as [(Hhead & nx & Hd & Hch) Hnd (t & Ht & Htin & _) _ _ _ _ _].
  split; [congruence |]. split; [congruence |]. split; [eauto |].
  intros tid result Hslot.
  destruct (dequeue_spec w d dv rest tid result fuel Hinv Hslot) as (w' & _ & Hcase); [lia |].
  destruct rest as [|[x xv] rest']; destruct Hcase as [Hdeq _];
    eexists _, _, w'; (split; [exact Hdeq |]).
  - split; [intros _ | done]. simpl in Hch. subst nx.
    simpl in Htin. apply list_elem_of_singleton in Htin as ->.
    split; [congruence |]. by exists d, (mkNode dv None).
  - split; [done |]. intros (_ & l & nd & Hl & Hnd' & Hnone).
    simpl in Hch. destruct Hch as [-> _].
    rewrite Hhead in Hl. injection Hl as <-. rewrite Hd in Hnd'.
    injection Hnd' as <-. done.
Qed.

Lemma queue_structure_witness :
  (length [false; true] + 1 < 4)%nat ∧
  (size (consumers [Enq 5; Deq 3 true; Enq 6]) <= Z.to_nat MAX_THREADS)%nat ∧
  ∃ rs w,
    program [false; true] 4 [Enq 5; Deq 3 true; Enq 6] = Done (rs, w) ∧
    head w ≠ None ∧ tail w ≠ None ∧
    (∃ l nd, head w = Some l ∧ heap w !! l = Some nd) ∧
    ∀ tid result, has_slot w tid →
      ∃ b out w', dequeue 4 tid result w = Done ((b, out), w') ∧
                  (b = false ↔ structurally_empty w).
Proof.
  assert (H1 : (length [false; true] + 1 < 4)%nat) by (simpl; lia).
  assert (H2 : (size (consumers [Enq 5; Deq 3 true; Enq 6]) <= Z.to_nat MAX_THREADS)%nat)
    by (vm_compute; lia).
  split; [exact H1 |]. split; [exact H2 |].
  exact (queue_structure [false; true] 4 [Enq 5; Deq 3 true; Enq 6] H1 H2).
Defined.

(** An empty queue answers at the first round, whatever the schedule. *)
Lemma dequeue_empty_at_once w ls tid result :
  queue_inv w ls → structurally_empty w → has_slot w tid →
  ∃ w', dequeue 1 tid result w = Done ((false, None), w').
Proof.
  intros Hinv (Heq & l & nd & Hl & Hnd & Hnone) Hslot.
  destruct (get_hazard_index_spec w _ tid Hinv Hslot)
    as (hidx & w1 & Hget & Hinv1 & _ & Hidx & _ & Hh & Hhd & Htl & _).
  unfold dequeue. rewrite (bind_Done _ _ _ _ _ Hget).
  erewrite dequeue_loop_empty; [by eexists | | | | done |].
  - by rewrite Hhd.
  - by rewrite Htl, <- Heq.
  - by rewrite Hh.
  - rewrite (inv_slots _ _ Hinv1). unfold MAX_THREADS in *. lia.
Qed.

End QueueFacts.

(** * Facts about the object pool *)

Module PoolFacts.
Import Pool.


(** C8, at capacity 0.  Whatever memory is available, the constructor
    called with [size == 0] reads [storage_] out of range: [size - 1]
    wraps to [SIZE_MAX], the linking loop runs, and its first round
    evaluates [storage_[1]] on an empty vector.  This is neither a pool
    nor an out-of-memory failure. *)
Theorem pool_of_capacity_zero_is_out_of_range (mem : N) (junk : Z) (sp : list bool) :
  LockFreeObjectPool 0 (raw mem junk sp) = Fault OutOfRange.
Proof.
  unfold LockFreeObjectPool, bind at 1, get.
  rewrite decide_False by (cbn; lia).
  change (size_t_wrap (Z.of_N 0 - 1)) with (Npos (2 ^ 64 - 1)).
  unfold for_loop. unfold bind, modify, ret. cbv beta iota.
  erewrite (for_pos_fails_first _ _ _ _ _ OutOfRange); [done |].
  reflexivity.
Qed.

Lemma shaped_insert f g n l i x :
  shaped f n l → (i < n)%nat → g i = x →
  (∀ j, j ≠ i → g j = f j) →
  shaped g n (<[i := x]> l).
Proof.
  intros [Hlen Hf] Hi <- Hg. split; [by rewrite length_insert |].
  intros j Hj. destruct (decide (j = i)) as [->|Hne].
  - apply list_lookup_insert_eq. lia.
  - rewrite list_lookup_insert_ne by done. rewrite Hg by done. by apply Hf.
Qed.

Lemma fill_loop k : ∀ i p n,
  shaped (filled_to i) n (storage_ p) → (i + k <= n)%nat →
  (N.of_nat k <= free_store p)%N →
  ∃ p', for_nat k (fun i _ => let* nd := make_unique_Node in storage_put i (Some nd))
                (N.of_nat i) tt p = Done ((N.of_nat (i + k), tt), p') ∧
        shaped (filled_to (i + k)) n (storage_ p') ∧
        head_ p' = head_ p ∧ spurious p' = spurious p.
Proof.
  induction k as [|k IH]; intros i p n Hsh Hik Hmem; simpl.
  - exists p. by rewrite Nat.add_0_r.
  - unfold bind at 1 2. unfold make_unique_Node.
    rewrite decide_False by lia.
    unfold storage_put. simpl. rewrite Nat2N.id.
    rewrite decide_True by (destruct Hsh as [-> _]; lia).
    rewrite <- Nat2N.inj_succ.
    edestruct (IH (S i)) as (p' & Hrun & Hsh' & Hhd & Hsp); [| | | rewrite Hrun].
    + simpl. eapply shaped_insert; [exact Hsh | lia | |].
      * unfold filled_to. by rewrite decide_True by lia.
      * intros j Hj. unfold filled_to. repeat case_decide; done || lia.
    + lia.
    + simpl. lia.
    + exists p'. replace (i + S k)%nat with (S i + k)%nat by lia. done.
Qed.

Lemma link_loop k : ∀ i p n,
  shaped (linked_to i) n (storage_ p) → (i + k < n)%nat →
  ∃ p', for_nat k (fun i _ =>
                     let* nxt := storage_get (N.succ i) in
                     let* u := storage_at i in
                     match u with
                     | Some _ => store_next (Some (N.to_nat i)) nxt
                     | None => crash NullDeref
                     end)
                (N.of_nat i) tt p = Done ((N.of_nat (i + k), tt), p') ∧
        shaped (linked_to (i + k)) n (storage_ p') ∧
        head_ p' = head_ p ∧ spurious p' = spurious p.
Proof.
  induction k as [|k IH]; intros i p n Hsh Hik; simpl.
  - exists p. by rewrite Nat.add_0_r.
  - pose proof Hsh as [Hlen Hf].
    unfold bind at 1 2 3. unfold storage_get, bind, storage_at, ret.
    rewrite <- Nat2N.inj_succ, !Nat2N.id.
    rewrite (Hf (S i)) by lia. rewrite (Hf i) by lia. simpl.
    unfold store_next, bind, deref, modify. rewrite (Hf i) by lia. simpl.
    edestruct (IH (S i)) as (p' & Hrun & Hsh' & Hhd & Hsp); [| | rewrite Hrun].
    + simpl. eapply shaped_insert; [exact Hsh | lia | |].
      * unfold linked_to. repeat case_decide; done || lia.
      * intros j Hj. unfold linked_to. repeat case_decide; done || lia.
    + lia.
    + exists p'. replace (i + S k)%nat with (S i + k)%nat by lia. done.
Qed.

Lemma size_t_wrap_pred n :
  (1 <= n)%nat → (N.of_nat n < 2 ^ 64)%N →
  size_t_wrap (Z.of_N (N.of_nat n) - 1) = N.of_nat (n - 1).
Proof.
  intros Hn Hmax. unfold size_t_wrap.
  rewrite Z.mod_small by lia. lia.
Qed.

Lemma shaped_free_list n l k : ∀ i,
  shaped (linked_to (n - 1)) n l → (i + S k = n)%nat →
  free_list l (Some i) (seq i (S k)).
Proof.
  induction k as [|k IH]; intros i [Hlen Hf] Hik.
  - simpl. split; [done |]. eexists. split; [apply Hf; lia |].
    unfold linked_to. by rewrite decide_False by lia.
  - change (seq i (S (S k))) with (i :: seq (S i) (S k)).
    split; [done |]. eexists. split; [apply Hf; lia |].
    unfold linked_to. rewrite decide_True by lia. simpl.
    apply IH; [done | lia].
Qed.

(** The constructor on a capacity of at least one. *)
Lemma LockFreeObjectPool_spec n mem junk sp :
  (1 <= n)%nat → (N.of_nat n < 2 ^ 64)%N → (N.of_nat n <= mem)%N →
  ∃ p, LockFreeObjectPool (N.of_nat n) (raw mem junk sp) = Done (tt, p) ∧
       length (storage_ p) = n ∧
       (∀ i, (i < n)%nat → ∃ nd, storage_ p !! i = Some (Some nd)) ∧
       free_list (storage_ p) (head_ p) (seq 0 n) ∧
       spurious p = sp.
Proof.
  intros Hn Hmax Hmem. unfold LockFreeObjectPool.
  rewrite (size_t_wrap_pred n Hn Hmax).
  unfold bind at 1, get. cbn [raw free_store]. rewrite decide_False by lia.
  unfold bind at 1, modify. rewrite !Nat2N.id.
  set (p0 := set_storage_ _ _).
  unfold bind at 1. rewrite for_loop_nat. unfold bind at 1. rewrite Nat2N.id.
  destruct (fill_loop n 0 p0 n) as (p1 & Hfill & Hsh1 & Hhd1 & Hsp1); [| lia | simpl; lia |].
  { subst p0. split; [simpl; by rewrite length_replicate |].
    intros j Hj. simpl. rewrite lookup_replicate_2 by done.
    unfold filled_to. by rewrite decide_False by lia. }
  change (N.of_nat 0) with 0%N in Hfill. rewrite Hfill. simpl.
  unfold bind at 1. rewrite for_loop_nat. unfold bind at 1. rewrite Nat2N.id.
  destruct (link_loop (n - 1) 0 p1 n) as (p2 & Hlink & Hsh2 & Hhd2 & Hsp2); [| lia |].
  { destruct Hsh1 as [Hlen Hf]. split; [done |]. intros j Hj.
    rewrite Hf by done. unfold filled_to, linked_to.
    rewrite decide_True by lia. by rewrite decide_False by lia. }
  change (N.of_nat 0) with 0%N in Hlink. rewrite Hlink. simpl in *.
  pose proof Hsh2 as [Hlen Hf].
  unfold bind at 1. unfold storage_at at 1. rewrite ?Nat2N.id, (Hf (n - 1)%nat) by lia.
  unfold linked_to at 1.
  unfold bind at 1. unfold store_next, bind, deref, modify.
  rewrite ?Nat2N.id, (Hf (n - 1)%nat) by lia. unfold linked_to at 1. simpl.
  unfold storage_get, bind, storage_at, ret. simpl.
  assert (Hsh3 : shaped (linked_to (n - 1)) n
                   (<[(n - 1)%nat := Some (mkNode 0 None)]> (storage_ p2))).
  { eapply shaped_insert; [exact Hsh2 | lia | | done].
    unfold linked_to. by rewrite decide_False by lia. }
  destruct Hsh3 as [Hlen3 Hf3].
  change (N.to_nat 0) with 0%nat.
  rewrite (Hf3 0%nat) by lia. unfold linked_to at 1. simpl.
  eexists. split; [done |]. simpl. split_and!; try done.
  - intros i Hi. rewrite Hf3 by done. unfold linked_to. eauto.
  - destruct n as [|k]; [lia |]. apply shaped_free_list with (n := S k); [| lia].
    by split.
  - by rewrite Hsp2, Hsp1.
Qed.

Lemma acquire_loop_S fuel i p nd :
  head_ p = Some i → storage_ p !! i = Some (Some nd) →
  acquire_loop (S fuel) (Some i) p =
    match pop_flag (spurious p) with
    | (true, sp) => acquire_loop fuel (Some i) (set_spurious sp p)
    | (false, sp) =>
        Done (Some i, note_acquired i (set_head_ (next nd) (set_spurious sp p)))
    end.
Proof.
  intros Hh Hnd. destruct p as [st hd aa ra ec fs sp]. simpl in *. subst hd.
  unfold bind, deref, cas_head_, bind, get, flip, modify, ret.
  msimp ltac:(rewrite Hnd). destruct sp as [|[] sp]; by msimp ltac:(rewrite Hnd).
Qed.

Lemma release_loop_S fuel h p nd :
  storage_ p !! h = Some (Some nd) →
  release_loop (S fuel) h (head_ p) p =
    let p1 := set_storage_ (<[h := Some (mkNode (obj nd) (head_ p))]> (storage_ p)) p in
    match pop_flag (spurious p) with
    | (true, sp) => release_loop fuel h (head_ p) (set_spurious sp p1)
    | (false, sp) => Done (tt, set_head_ (Some h) (set_spurious sp p1))
    end.
Proof.
  intros Hnd. destruct p as [st hd aa ra ec fs sp]. simpl in *.
  unfold bind, store_next, bind, deref, cas_head_, bind, get, flip, modify, ret.
  msimp ltac:(rewrite Hnd). destruct sp as [|[] sp]; by msimp ltac:(rewrite Hnd).
Qed.

Lemma acquire_loop_spec sp : ∀ fuel i p nd,
  spurious p = sp → head_ p = Some i → storage_ p !! i = Some (Some nd) →
  (length sp < fuel)%nat →
  ∃ sp', (length sp' <= length sp)%nat ∧
    acquire_loop fuel (Some i) p
    = Done (Some i, note_acquired i (set_head_ (next nd) (set_spurious sp' p))).
Proof.
  induction sp as [|flag sp IH]; intros fuel i p nd Hsp Hh Hnd Hfuel.
  all: destruct fuel as [|fuel]; [simpl in Hfuel; lia |].
  all: rewrite (acquire_loop_S _ _ _ _ Hh Hnd), Hsp; simpl.
  - by exists [].
  - destruct flag; [| exists sp; split; [simpl; lia | done]].
    destruct (IH fuel i (set_spurious sp p) nd) as (sp' & Hlen & Hrun); try done.
    { simpl in Hfuel. lia. }
    exists sp'. split; [simpl; lia |]. rewrite Hrun. by destruct p.
Qed.

Lemma release_loop_spec sp : ∀ fuel h p nd,
  spurious p = sp → storage_ p !! h = Some (Some nd) →
  (length sp < fuel)%nat →
  ∃ sp', (length sp' <= length sp)%nat ∧
    release_loop fuel h (head_ p) p
    = Done (tt, set_head_ (Some h)
                  (set_spurious sp'
                     (set_storage_ (<[h := Some (mkNode (obj nd) (head_ p))]> (storage_ p)) p))).
Proof.
  induction sp as [|flag sp IH]; intros fuel h p nd Hsp Hnd Hfuel.
  all: destruct fuel as [|fuel]; [simpl in Hfuel; lia |].
  all: rewrite (release_loop_S _ _ _ _ Hnd), Hsp; simpl.
  - by exists [].
  - destruct flag; [| exists sp; split; [simpl; lia | done]].
    set (p1 := set_spurious sp _).
    destruct (IH fuel h p1 (mkNode (obj nd) (head_ p))) as (sp' & Hlen & Hrun); try done.
    { subst p1. simpl. apply list_lookup_insert_eq. by eapply lookup_lt_Some. }
    { simpl in Hfuel. lia. }
    exists sp'. split; [simpl; lia |].
    change (head_ p) with (head_ p1) at 1. rewrite Hrun. subst p1. destruct p. simpl.
    by rewrite list_insert_insert_eq.
Qed.

Lemma free_list_frame st st' p fl :
  free_list st p fl → (∀ i, i ∈ fl → st' !! i = st !! i) → free_list st' p fl.
Proof.
  revert p. induction fl as [|i fl IH]; simpl; intros p; [done |].
  intros (-> & nd & Hi & Hfl) Hsame. split; [done |].
  exists nd. split; [rewrite Hsame; [done | left] |].
  apply IH; [done |]. intros j Hj. apply Hsame. by right.
Qed.

Lemma remove_one_perm h held : h ∈ held → held ≡ₚ h :: remove_one h held.
Proof.
  induction held as [|x held IH]; simpl; [by intros ?%elem_of_nil |].
  intros Hin. case_decide as Hx; [by subst |].
  apply elem_of_cons in Hin as [->|Hin]; [done |].
  rewrite (IH Hin) at 1. apply Permutation_swap.
Qed.

Lemma acquire_loop_None fuel p :
  acquire_loop fuel None p = Done (None, set_exhaust_count_ (exhaust_count_ p + 1) p).
Proof. by destruct fuel. Qed.

Lemma acquire_spec p n held fl fuel :
  pool_inv p n held fl → (length (spurious p) < fuel)%nat →
  ∃ r p',
    acquire fuel p = Done (r, p') ∧
    r = List.hd_error fl ∧
    pool_inv p' n (match r with Some i => i :: held | None => held end) (List.tl fl) ∧
    (length (spurious p') <= length (spurious p))%nat.
Proof.
  intros [Hlen Hnodes Hfree Hpart] Hfuel. unfold acquire, bind, get.
  destruct fl as [|i fl]; simpl in Hfree.
  - rewrite Hfree, acquire_loop_None. eexists None, _. split; [done |]. split; [done |].
    split; [| done]. by split.
  - destruct Hfree as (Hhd & nd & Hi & Hfree). rewrite Hhd.
    destruct (acquire_loop_spec (spurious p) fuel i p nd eq_refl Hhd Hi Hfuel)
      as (sp' & Hlen' & Hrun).
    rewrite Hrun. eexists (Some i), _. split; [done |]. split; [done |].
    split; [| unfold note_acquired; case_decide; simpl; lia].
    assert (Hst : ∀ q, storage_ (note_acquired i q) = storage_ q)
      by (intros q; unfold note_acquired; by case_decide).
    assert (Hhead : ∀ q, head_ (note_acquired i q) = head_ q)
      by (intros q; unfold note_acquired; by case_decide).
    split; rewrite ?Hst, ?Hhead; simpl; try done.
    rewrite <- Hpart. by rewrite Permutation_middle.
Qed.

Lemma release_spec p n held fl h fuel :
  pool_inv p n held fl → h ∈ held → (length (spurious p) < fuel)%nat →
  ∃ p',
    release fuel h p = Done (tt, p') ∧
    pool_inv p' n (remove_one h held) (h :: fl) ∧
    (length (spurious p') <= length (spurious p))%nat.
Proof.
  intros [Hlen Hnodes Hfree Hpart] Hin Hfuel. unfold release, bind, get.
  assert (Hnd : NoDup (held ++ fl)) by (rewrite Hpart; apply NoDup_seq).
  assert (Hh : (h < n)%nat).
  { assert (h ∈ seq 0 n) as Hs by (rewrite <- Hpart; apply elem_of_app; by left).
    apply elem_of_seq in Hs. lia. }
  assert (Hnotfree : h ∉ fl).
  { apply NoDup_app in Hnd as (_ & Hdisj & _). by apply Hdisj. }
  destruct (Hnodes h Hh) as [nd Hnode].
  destruct (release_loop_spec (spurious p) fuel h p nd eq_refl Hnode Hfuel)
    as (sp' & Hlen' & Hrun).
  rewrite Hrun. eexists. split; [done |]. split; [| simpl; lia].
  split; simpl.
  - by rewrite length_insert.
  - intros i Hi. destruct (decide (i = h)) as [->|Hne].
    + rewrite list_lookup_insert_eq by lia. eauto.
    + rewrite list_lookup_insert_ne by done. by apply Hnodes.
  - split; [done |]. eexists. split; [apply list_lookup_insert_eq; lia |]. simpl.
    apply free_list_frame with (storage_ p); [done |].
    intros i Hi. rewrite list_lookup_insert_ne; [done |]. by intros ->.
  - rewrite <- Hpart, <- Permutation_middle.
    change (h :: remove_one h held ++ fl) with ((h :: remove_one h held) ++ fl).
    by rewrite <- (remove_one_perm h held Hin).
Qed.

Lemma pool_run_spec ops : ∀ p n held fl fuel,
  pool_inv p n held fl → (length (spurious p) < fuel)%nat →
  ∃ held' p' fl',
    run fuel ops held p = Done (held', p') ∧ pool_inv p' n held' fl'.
Proof.
  induction ops as [|o ops IH]; intros p n held fl fuel Hinv Hfuel; simpl.
  - by exists held, p, fl.
  - destruct o as [|h]; simpl.
    + destruct (acquire_spec p n held fl fuel Hinv Hfuel) as (r & p1 & Hacq & _ & Hinv1 & Hlen).
      destruct (IH p1 n _ _ fuel Hinv1) as (held' & p' & fl' & Hrun & Hinv'); [lia |].
      exists held', p', fl'. split; [| done].
      unfold bind at 1. unfold bind at 1. by rewrite Hacq.
    + case_decide as Hin.
      * destruct (release_spec p n held fl h fuel Hinv Hin Hfuel) as (p1 & Hrel & Hinv1 & Hlen).
        destruct (IH p1 n _ _ fuel Hinv1) as (held' & p' & fl' & Hrun & Hinv'); [lia |].
        exists held', p', fl'. split; [| done].
        unfold bind at 1. unfold bind at 1. by rewrite Hrel.
      * destruct (IH p n held fl fuel Hinv Hfuel) as (held' & p' & fl' & Hrun & Hinv').
        by exists held', p', fl'.
Qed.

(** The partition invariant for calls that do not overlap.  For a pool
    built with capacity [n >= 1] and every sequence of whole [acquire] and
    release calls (a release being the drop of a handle the client
    holds), whatever the spurious exchange failures: the handles held by
    the client and the nodes on the free list from [head_] are disjoint,
    without repetition, and together they are exactly the [n] nodes of
    the arena.  This is the part of the invariant the code keeps; calls
    of several threads that overlap break it, as shown further down. *)
Theorem pool_partition (n : nat) (mem : N) (junk : Z) (sp : list bool)
        (fuel : nat) (ops : list op) :
  (1 <= n)%nat → (N.of_nat n < 2 ^ 64)%N → (N.of_nat n <= mem)%N →
  (length sp < fuel)%nat →
  ∃ held p fl,
    program mem junk sp (N.of_nat n) fuel ops = Done (held, p) ∧
    free_list (storage_ p) (head_ p) fl ∧
    (∀ i, i ∈ held → i ∉ fl) ∧
    NoDup held ∧ NoDup fl ∧
    (∀ i, i ∈ held ∨ i ∈ fl ↔ (i < n)%nat) ∧
    length (storage_ p) = n.
Proof.
  intros Hn Hmax Hmem Hfuel.
  destruct (LockFreeObjectPool_spec n mem junk sp Hn Hmax Hmem)
    as (p0 & Hctor & Hlen & Hnodes & Hfree & Hsp).
  destruct (pool_run_spec ops p0 n [] (seq 0 n) fuel) as (held & p & fl & Hrun & Hinv).
  { by split. }
  { by rewrite Hsp. }
  exists held, p, fl. split.
  { unfold program, bind. by rewrite Hctor. }
  destruct Hinv as [Hlen' _ Hfree' Hpart].
  assert (Hnd : NoDup (held ++ fl)) by (rewrite Hpart; apply NoDup_seq).
  apply NoDup_app in Hnd as (Hndh & Hdisj & Hndf).
  split_and!; try done.
  intros i. rewrite <- elem_of_app, Hpart, elem_of_seq. lia.
Qed.

Lemma pool_partition_witness :
  (1 <= 3)%nat ∧ (N.of_nat 3 < 2 ^ 64)%N ∧ (N.of_nat 3 <= 10)%N ∧
  (length [true; false; true] < 4)%nat ∧
  ∃ held p fl,
    program 10 7 [true; false; true] (N.of_nat 3) 4
            [Acquire; Acquire; Acquire; Acquire; Release 1; Acquire; Release 0; Release 2]
    = Done (held, p) ∧
    free_list (storage_ p) (head_ p) fl ∧
    (∀ i, i ∈ held → i ∉ fl) ∧
    NoDup held ∧ NoDup fl ∧
    (∀ i, i ∈ held ∨ i ∈ fl ↔ (i < 3)%nat) ∧
    length (storage_ p) = 3%nat.
Proof.
  assert (H1 : (1 <= 3)%nat) by lia.
  assert (H2 : (N.of_nat 3 < 2 ^ 64)%N) by (vm_compute; reflexivity).
  assert (H3 : (N.of_nat 3 <= 10)%N) by (vm_compute; discriminate).
  assert (H4 : (length [true; false; true] < 4)%nat) by (simpl; lia).
  split; [exact H1 |]. split; [exact H2 |]. split; [exact H3 |]. split; [exact H4 |].
  exact (pool_partition 3 10 7 [true; false; true] 4
           [Acquire; Acquire; Acquire; Acquire; Release 1; Acquire; Release 0; Release 2]
           H1 H2 H3 H4).
Defined.

(** C10.  Last in, first out.  Releasing a node of the arena makes it
    [head_], and the [acquire] that follows, with no call in between,
    returns exactly that node and puts [head_] back where it was. *)
Theorem release_then_acquire_is_lifo (p : pool) (h : nat) (nd : Node) (fuel : nat) :
  storage_ p !! h = Some (Some nd) →
  (length (spurious p) < fuel)%nat →
  ∃ p1 p2,
    release fuel h p = Done (tt, p1) ∧
    head_ p1 = Some h ∧
    acquire fuel p1 = Done (Some h, p2) ∧
    head_ p2 = head_ p.
Proof.
  intros Hnode Hfuel.
  destruct (release_loop_spec (spurious p) fuel h p nd eq_refl Hnode Hfuel)
    as (sp1 & Hlen1 & Hrel).
  set (p1 := set_head_ _ _) in Hrel.
  assert (Hnode1 : storage_ p1 !! h = Some (Some (mkNode (obj nd) (head_ p)))).
  { subst p1. simpl. apply list_lookup_insert_eq. by eapply lookup_lt_Some. }
  destruct (acquire_loop_spec (spurious p1) fuel h p1 _ eq_refl eq_refl Hnode1)
    as (sp2 & Hlen2 & Hacq).
  { subst p1. simpl. lia. }
  eexists p1, _. unfold release, acquire, bind, get.
  split; [exact Hrel |]. split; [done |]. split; [exact Hacq |].
  unfold note_acquired. by case_decide.
Qed.

Lemma release_then_acquire_is_lifo_witness :
  let p := PoolState [Some (mkNode 0 None); Some (mkNode 0 (Some 0%nat));
                      Some (mkNode 0 (Some 1%nat))]
                     (Some 1%nat) {[2%nat]} ∅ 0 5 [true; true] in
  storage_ p !! 2%nat = Some (Some (mkNode 0 (Some 1%nat))) ∧
  (length (spurious p) < 3)%nat ∧
  ∃ p1 p2,
    release 3 2 p = Done (tt, p1) ∧
    head_ p1 = Some 2%nat ∧
    acquire 3 p1 = Done (Some 2%nat, p2) ∧
    head_ p2 = head_ p.
Proof.
  intros p.
  assert (H1 : storage_ p !! 2%nat = Some (Some (mkNode 0 (Some 1%nat)))) by reflexivity.
  assert (H2 : (length (spurious p) < 3)%nat) by (simpl; lia).
  split; [exact H1 |]. split; [exact H2 |].
  exact (release_then_acquire_is_lifo p 2 _ 3 H1 H2).
Defined.

(** The scenario of the specification: capacity 3, three handles, a
    fourth [acquire] that finds the pool exhausted, one handle back, one
    more [acquire], all handles back, and three nodes counted. *)
Example pool_scenario :
  ∃ p, (let* _ := LockFreeObjectPool 3 in
        let* held := run 1 [Acquire; Acquire; Acquire; Acquire; Release 1;
                            Acquire; Release 0; Release 1; Release 2] [] in
        let* count := approximateAvailable 3 in
        ret (held, count)) (raw 3 0 [])
       = Done (([], 3%N), p).
Proof. eexists. vm_compute. reflexivity. Qed.

(** A thread alone goes through the same accesses as the calls above. *)
Example one_thread_alone :
  ∃ p, (let* _ := LockFreeObjectPool 3 in
        interleave [0; 0; 0; 0; 0; 0; 0; 0; 0]%nat
                   [Thread Idle [Acquire; Acquire; Release 0] []]) (raw 3 0 [])
       = Done ([Thread Idle [] [1%nat]], p) ∧
       program 3 0 [] 3 1 [Acquire; Acquire; Release 0] = Done ([1%nat], p).
Proof. eexists. split; vm_compute; reflexivity. Qed.

(** The theorem above is about calls that do not overlap.  When they
    do, the exchange in [acquire] can succeed on a stale [next]: thread 0
    reads [head_] (node 0) and its [next] (node 1) and pauses; thread 1
    acquires node 0, acquires node 1 and releases node 0, which puts node 0
    back at the head; the exchange of thread 0 then succeeds and makes
    node 1 the head.  Node 1 is now held by thread 1 and on the free
    list. *)
Example overlapping_calls_break_partition :
  ∃ p, (let* _ := LockFreeObjectPool 3 in
        interleave [0; 0; 1; 1; 1; 1; 1; 1; 1; 1; 1; 0]%nat
                   [Thread Idle [Acquire] [];
                    Thread Idle [Acquire; Acquire; Release 0] []]) (raw 3 0 [])
       = Done ([Thread Idle [] [0%nat]; Thread Idle [] [1%nat]], p) ∧
       free_list (storage_ p) (head_ p) [1%nat; 2%nat].
Proof.
  eexists. split; [vm_compute; reflexivity |]. simpl.
  split; [done |]. eexists. split; [done |]. simpl.
  split; [done |]. eexists. split; [done |]. done.
Qed.

(** C5, where the code departs from it.  The claim has the partition hold
    for calls interleaved across threads.  [acquire] reads [node->next]
    and only then exchanges [head_], comparing addresses alone, so the
    exchange succeeds on a stale [next] when the node has left the list
    and come back in between.  On a pool of three nodes, thread 0 starts
    an [acquire], reads [head_] (node 0) and its [next] (node 1), and
    pauses; thread 1 acquires node 0, acquires node 1 and releases node 0;
    the exchange of thread 0 then succeeds and makes node 1 the head,
    though thread 1 holds it: the held nodes and the free list are no
    longer disjoint.  The next [acquire] of thread 0 is handed node 1,
    which two threads now hold at once. *)
Theorem overlapping_acquire_issues_a_node_twice :
  ∃ p1 p2,
    (let* _ := LockFreeObjectPool 3 in
     interleave [0; 0; 1; 1; 1; 1; 1; 1; 1; 1; 1; 0]%nat
                [Thread Idle [Acquire; Acquire] [];
                 Thread Idle [Acquire; Acquire; Release 0] []]) (raw 3 0 [])
    = Done ([Thread Idle [Acquire] [0%nat]; Thread Idle [] [1%nat]], p1) ∧
    free_list (storage_ p1) (head_ p1) [1%nat; 2%nat] ∧
    (let* _ := LockFreeObjectPool 3 in
     interleave [0; 0; 1; 1; 1; 1; 1; 1; 1; 1; 1; 0; 0; 0; 0]%nat
                [Thread Idle [Acquire; Acquire] [];
                 Thread Idle [Acquire; Acquire; Release 0] []]) (raw 3 0 [])
    = Done ([Thread Idle [] [1%nat; 0%nat]; Thread Idle [] [1%nat]], p2) ∧
    free_list (storage_ p2) (head_ p2) [2%nat].
Proof.
  eexists _, _.
  split; [vm_compute; reflexivity |]. split.
  { simpl. split; [done |]. eexists. split; [done |]. simpl.
    split; [done |]. eexists. split; [done |]. done. }
  split; [vm_compute; reflexivity |].
  simpl. split; [done |]. eexists. split; [done |]. done.
Qed.

(** The pool half of C6. *)
Lemma acquire_exhausted p fuel :
  head_ p = None →
  acquire fuel p = Done (None, set_exhaust_count_ (exhaust_count_ p + 1) p).
Proof. intros Hh. unfold acquire, bind, get. rewrite Hh. apply acquire_loop_None. Qed.

End PoolFacts.

(** * Facts about the block allocator *)

Module AllocFacts.
Import Alloc.

Lemma allocate_loop_None fuel a : allocate_loop fuel None a = Throw bad_alloc.
Proof. by destruct fuel. Qed.

Lemma allocate_loop_S fuel b a nxt :
  head_ a = Some b → links a !! b = Some nxt →
  allocate_loop (S fuel) (Some b) a =
    match pop_flag (spurious a) with
    | (true, sp) => allocate_loop fuel (Some b) (set_spurious sp a)
    | (false, sp) => Done (b, set_head_ nxt (set_spurious sp a))
    end.
Proof.
  intros Hh Hb. destruct a as [hd lk bs bl cap sp]. simpl in *. subst hd.
  unfold bind, load_next, cas_head_, bind, get, flip, modify, ret.
  msimp ltac:(rewrite Hb). destruct sp as [|[] sp]; by msimp ltac:(rewrite Hb).
Qed.

Lemma allocate_loop_spec sp : ∀ fuel b a nxt,
  spurious a = sp → head_ a = Some b → links a !! b = Some nxt →
  (length sp < fuel)%nat →
  ∃ sp', (length sp' <= length sp)%nat ∧
    allocate_loop fuel (Some b) a = Done (b, set_head_ nxt (set_spurious sp' a)).
Proof.
  induction sp as [|flag sp IH]; intros fuel b a nxt Hsp Hh Hb Hfuel.
  all: destruct fuel as [|fuel]; [simpl in Hfuel; lia |].
  all: rewrite (allocate_loop_S _ _ _ _ Hh Hb), Hsp; simpl.
  - by exists [].
  - destruct flag; [| exists sp; split; [simpl; lia | done]].
    destruct (IH fuel b (set_spurious sp a) nxt) as (sp' & Hlen & Hrun); try done.
    { simpl in Hfuel. lia. }
    exists sp'. split; [simpl; lia |]. rewrite Hrun. by destruct a.
Qed.

Lemma deallocate_loop_S fuel p a :
  (p + sizeof_Node <= buffer_size a)%N →
  deallocate_loop (S fuel) (Some p) (head_ a) a =
    let a1 := set_links (<[p := head_ a]> (links a)) a in
    match pop_flag (spurious a) with
    | (true, sp) => deallocate_loop fuel (Some p) (head_ a) (set_spurious sp a1)
    | (false, sp) => Done (tt, set_head_ (Some p) (set_spurious sp a1))
    end.
Proof.
  intros Hin. destruct a as [hd lk bs bl cap sp]. simpl in *.
  unfold bind, store_next, cas_head_, bind, get, flip, modify, ret. simpl.
  rewrite decide_True by done. simpl. rewrite decide_True by done.
  destruct sp as [|[] sp]; by simpl.
Qed.

Lemma deallocate_loop_spec sp : ∀ fuel p a,
  spurious a = sp → (p + sizeof_Node <= buffer_size a)%N →
  (length sp < fuel)%nat →
  ∃ sp', (length sp' <= length sp)%nat ∧
    deallocate_loop fuel (Some p) (head_ a) a
    = Done (tt, set_head_ (Some p)
                  (set_spurious sp' (set_links (<[p := head_ a]> (links a)) a))).
Proof.
  induction sp as [|flag sp IH]; intros fuel p a Hsp Hin Hfuel.
  all: destruct fuel as [|fuel]; [simpl in Hfuel; lia |].
  all: rewrite (deallocate_loop_S _ _ _ Hin), Hsp; simpl.
  - by exists [].
  - destruct flag; [| exists sp; split; [simpl; lia | done]].
    set (a1 := set_spurious sp _).
    destruct (IH fuel p a1) as (sp' & Hlen & Hrun); try done.
    { simpl in Hfuel. lia. }
    exists sp'. split; [simpl; lia |].
    change (head_ a) with (head_ a1) at 1. rewrite Hrun. subst a1. destruct a. simpl.
    by rewrite insert_insert_eq.
Qed.

(** [deallocate] of a block inside the buffer pushes it on the free list. *)
Lemma deallocate_spec a p fuel :
  links_closed a → (p + sizeof_Node <= buffer_size a)%N →
  (length (spurious a) < fuel)%nat →
  ∃ a', deallocate fuel (Some p) a = Done (tt, a') ∧
        head_ a' = Some p ∧ links a' !! p = Some (head_ a) ∧
        links_closed a' ∧ buffer_size a' = buffer_size a ∧
        (length (spurious a') <= length (spurious a))%nat.
Proof.
  intros [Hhead Hlinks] Hin Hfuel. unfold deallocate, bind, get.
  destruct (deallocate_loop_spec (spurious a) fuel p a eq_refl Hin Hfuel)
    as (sp' & Hlen & Hrun).
  rewrite Hrun. eexists. split; [done |]. simpl.
  split; [done |]. split; [apply lookup_insert_eq |]. split; [| done].
  split; simpl.
  - intros b [= <-]. rewrite lookup_insert_eq. eauto.
  - intros b nxt Hb. destruct (decide (nxt = p)) as [->|Hne].
    { rewrite lookup_insert_eq. eauto. }
    rewrite lookup_insert_ne by done.
    destruct (decide (b = p)) as [->|Hbp].
    + rewrite lookup_insert_eq in Hb. injection Hb as Hb. by apply Hhead.
    + rewrite lookup_insert_ne in Hb by done. by eapply Hlinks.
Qed.

(** The loop of the constructor, [count] rounds from block [i]. *)
Lemma LockFreePool_loop (bs : N) count : ∀ i prev a,
  (N.of_nat (i + count) * bs < 2 ^ 64)%N →
  ((0 < count)%nat → (N.of_nat (i + count - 1) * bs + sizeof_Node <= buffer_size a)%N) →
  links_closed a → (∀ b, prev = Some b → is_Some (links a !! b)) →
  ∃ a' prev',
    for_nat count (link_block bs) (N.of_nat i) prev a
    = Done ((N.of_nat (i + count), prev'), a') ∧
    links_closed a' ∧ (∀ b, prev' = Some b → is_Some (links a' !! b)) ∧
    (prev' = None ↔ prev = None ∧ count = 0%nat) ∧
    head_ a' = head_ a ∧ spurious a' = spurious a ∧ buffer_size a' = buffer_size a.
Proof.
  induction count as [|count IH]; intros i prev a Hmax Hbuf Hclosed Hprev; simpl.
  - exists a, prev. rewrite Nat.add_0_r. split_and!; try done. naive_solver.
  - assert (Hwrap : size_t_wrap (Z.of_N (N.of_nat i) * Z.of_N bs) = (N.of_nat i * bs)%N).
    { unfold size_t_wrap. rewrite Z.mod_small by nia. lia. }
    set (a1 := set_links (<[(N.of_nat i * bs)%N := prev]> (links a)) a).
    assert (Hbody : link_block bs (N.of_nat i) prev a = Done (Some (N.of_nat i * bs)%N, a1)).
    { unfold link_block, bind, store_next, ret. rewrite Hwrap.
      by rewrite decide_True by (specialize (Hbuf ltac:(lia)); nia). }
    unfold bind at 1. rewrite Hbody, <- Nat2N.inj_succ.
    destruct (IH (S i) (Some (N.of_nat i * bs)%N) a1)
      as (a' & prev' & Hrun & Hcl & Hp & Hnone & Hh & Hsp & Hbs).
    + replace (S i + count)%nat with (i + S count)%nat by lia. done.
    + intros Hc. replace (S i + count - 1)%nat with (i + S count - 1)%nat by lia.
      apply Hbuf. lia.
    + destruct Hclosed as [Hhead Hlinks]. split; subst a1; simpl.
      * intros b Hb. destruct (decide (b = (N.of_nat i * bs)%N)) as [->|Hne].
        { rewrite lookup_insert_eq. eauto. }
        rewrite lookup_insert_ne by done. by apply Hhead.
      * intros b nxt Hb. destruct (decide (nxt = (N.of_nat i * bs)%N)) as [->|Hne].
        { rewrite lookup_insert_eq. eauto. }
        rewrite lookup_insert_ne by done.
        destruct (decide (b = (N.of_nat i * bs)%N)) as [->|Hbp].
        -- rewrite lookup_insert_eq in Hb. injection Hb as Hb. by apply Hprev.
        -- rewrite lookup_insert_ne in Hb by done. by eapply Hlinks.
    + intros b [= <-]. subst a1. simpl. rewrite lookup_insert_eq. eauto.
    + exists a', prev'. rewrite Hrun.
      replace (i + S count)%nat with (S i + count)%nat by lia.
      split_and!; try done. split; [| by intros [_ ?]].
      intros Hn. apply Hnone in Hn as [? _]. done.
Qed.

(** The constructor, when the byte size does not wrap and fits in memory. *)
Lemma LockFreePool_ctor_spec mem sp blockSize (n : nat) :
  let bs := if decide (blockSize < sizeof_Node)%N then sizeof_Node else blockSize in
  (N.of_nat n * bs < 2 ^ 64)%N → (N.of_nat n * bs <= mem)%N →
  ∃ a, LockFreePool_ctor mem sp blockSize (N.of_nat n) = Done (tt, a) ∧
       links_closed a ∧ (head_ a = None ↔ n = 0%nat) ∧ spurious a = sp.
Proof.
  intros bs Hmax Hmem. unfold LockFreePool_ctor. fold bs.
  assert (Hbs : (sizeof_Node <= bs)%N).
  { subst bs. case_decide; unfold sizeof_Node in *; lia. }
  assert (Hbytes : size_t_wrap (Z.of_N bs * Z.of_N (N.of_nat n)) = (N.of_nat n * bs)%N).
  { unfold size_t_wrap. rewrite Z.mod_small by nia. lia. }
  rewrite Hbytes. rewrite decide_False by lia.
  unfold bind at 1. rewrite for_loop_nat. unfold bind at 1. rewrite Nat2N.id.
  set (a0 := PoolState None ∅ _ _ _ _).
  destruct (LockFreePool_loop bs n 0 None a0)
    as (a' & prev' & Hrun & Hcl & Hp & Hnone & Hh & Hsp & _).
  - done.
  - intros Hn. subst a0. simpl. unfold sizeof_Node in *. nia.
  - split; [done |]. subst a0. simpl. intros b nxt Hb. by rewrite lookup_empty in Hb.
  - done.
  - change (N.of_nat 0) with 0%N in Hrun. rewrite Hrun. simpl.
    eexists. split; [done |]. simpl. split_and!.
    + destruct Hcl as [_ Hlinks]. split; simpl; [exact Hp | exact Hlinks].
    + rewrite Hnone. naive_solver.
    + done.
Qed.

(** C7.  [allocate] on a pool whose free list is well linked (as the
    constructor builds it and [allocate] and [deallocate] keep it): when
    the free list is not empty the call returns the head block and moves
    [head_] to its successor; when it is empty the call throws
    [std::bad_alloc] and returns no sentinel. *)
Theorem allocate_block_or_bad_alloc (a : LockFreePool) (fuel : nat) :
  links_closed a →
  (length (spurious a) < fuel)%nat →
  match head_ a with
  | Some b =>
      ∃ a', allocate fuel a = Done (b, a') ∧
            links a !! b = Some (head_ a') ∧ links a' = links a ∧
            links_closed a'
  | None => allocate fuel a = Throw bad_alloc
  end.
Proof.
  intros [Hhead Hlinks] Hfuel. unfold allocate, bind, get.
  destruct (head_ a) as [b|] eqn:Hh; [| apply allocate_loop_None].
  destruct (Hhead b eq_refl) as [nxt Hb].
  destruct (allocate_loop_spec (spurious a) fuel b a nxt eq_refl Hh Hb Hfuel)
    as (sp' & _ & Hrun).
  rewrite Hrun. eexists. split; [done |]. split; [done |]. split; [done |].
  split; simpl; [| exact Hlinks].
  intros b' ->. by eapply Hlinks.
Qed.

Lemma allocate_block_or_bad_alloc_witness :
  let a := PoolState (Some 16%N) {[ 0%N := None; 8%N := Some 0%N; 16%N := Some 8%N ]}
                     24 8 3 [true; true] in
  LockFreePool_ctor 100 [true; true] 4 3 = Done (tt, a) ∧
  links_closed a ∧
  (length (spurious a) < 3)%nat ∧
  match head_ a with
  | Some b =>
      ∃ a', allocate 3 a = Done (b, a') ∧
            links a !! b = Some (head_ a') ∧ links a' = links a ∧
            links_closed a'
  | None => allocate 3 a = Throw bad_alloc
  end.
Proof.
  intros a.
  assert (H0 : LockFreePool_ctor 100 [true; true] 4 3 = Done (tt, a))
    by (vm_compute; reflexivity).
  assert (H1 : links_closed a).
  { destruct (LockFreePool_ctor_spec 100 [true; true] 4 3) as (a0 & Hrun & Hcl & _).
    - vm_compute. reflexivity.
    - vm_compute. discriminate.
    - change (N.of_nat 3) with 3%N in Hrun. rewrite H0 in Hrun.
      injection Hrun as <-. exact Hcl. }
  assert (H2 : (length (spurious a) < 3)%nat) by (simpl; lia).
  split; [exact H0 |]. split; [exact H1 |]. split; [exact H2 |].
  exact (allocate_block_or_bad_alloc a 3 H1 H2).
Defined.

(** On a pool of capacity 0 the very first [allocate] throws. *)
Example allocate_on_empty_pool :
  ∃ a, LockFreePool_ctor 100 [] 4 0 = Done (tt, a) ∧
       allocate 5 a = Throw bad_alloc.
Proof. eexists. split; reflexivity. Qed.

End AllocFacts.

(** * Exhaustion and emptiness *)

(** C6.  Exhaustion and emptiness are reported at once, as results.  On a
    pool whose free list is empty ([head_] null) [acquire] returns the
    null handle, whatever the fuel; on a structurally empty queue
    [dequeue] returns Empty within its first round, whatever the schedule
    of spurious failures.  Neither call throws and neither loops. *)
Theorem exhausted_and_empty_are_results
        (p : Pool.pool) (fuel : nat)
        (w : Queue.world) (ls : list (positive * Z)) (tid : nat) (result : bool) :
  Pool.head_ p = None →
  Queue.queue_inv w ls → Queue.structurally_empty w → Queue.has_slot w tid →
  (∃ p', Pool.acquire fuel p = Done (None, p')) ∧
  (∃ w', Queue.dequeue 1 tid result w = Done ((false, None), w')).
Proof.
  intros Hp Hinv Hempty Hslot. split.
  - eexists. by apply PoolFacts.acquire_exhausted.
  - by eapply QueueFacts.dequeue_empty_at_once.
Qed.

Lemma exhausted_and_empty_are_results_witness :
  let p := Pool.PoolState [Some (Pool.mkNode 0 None)] None {[0%nat]} ∅ 7 9 [true] in
  let w := Queue.World {[ 1%positive := Queue.mkNode 0 None ]} 2 []
                       (replicate 16 None) 0 ∅
                       (Some 1%positive) (Some 1%positive) [true; true] in
  Pool.head_ p = None ∧
  Queue.queue_inv w [(1%positive, 0)] ∧ Queue.structurally_empty w ∧
  Queue.has_slot w 5 ∧
  (∃ p', Pool.acquire 0 p = Done (None, p')) ∧
  (∃ w', Queue.dequeue 1 5 true w = Done ((false, None), w')).
Proof.
  intros p w.
  assert (H1 : Pool.head_ p = None) by reflexivity.
  assert (H2 : Queue.queue_inv w [(1%positive, 0)]).
  { destruct (QueueFacts.LockFreeQueue_spec [true; true]) as (w0 & Hrun & Hinv & _).
    injection Hrun as <-. exact Hinv. }
  assert (H3 : Queue.structurally_empty w).
  { split; [reflexivity |]. by exists 1%positive, (Queue.mkNode 0 None). }
  assert (H4 : Queue.has_slot w 5) by (right; reflexivity).
  split; [exact H1 |]. split; [exact H2 |]. split; [exact H3 |]. split; [exact H4 |].
  exact (exhausted_and_empty_are_results p 0 w _ 5 true H1 H2 H3 H4).
Defined.

(** * What a computation leaves alone *)

Section Keeps.
Context {S X : Type} (f : S → X).

Lemma keeps_ret {A} (a : A) : keeps f (ret a).
Proof. by intros s r s' [= _ <-]. Qed.

Lemma keeps_get : keeps f get.
Proof. by intros s r s' [= _ <-]. Qed.

Lemma keeps_crash {A} x : keeps f (crash x : M S A).
Proof. by intros s r s' ?. Qed.

Lemma keeps_throw {A} e : keeps f (throw e : M S A).
Proof. by intros s r s' ?. Qed.

Lemma keeps_spin {A} : keeps f (spin : M S A).
Proof. by intros s r s' ?. Qed.

Lemma keeps_modify g : (∀ s, f (g s) = f s) → keeps f (modify g).
Proof. intros Hg s r s' [= _ <-]. apply Hg. Qed.

Lemma keeps_bind {A B} (c : M S A) (k : A → M S B) :
  keeps f c → (∀ a, keeps f (k a)) → keeps f (bind c k).
Proof.
  intros Hc Hk s r s' H. unfold bind in H.
  destruct (c s) as [[a s1]| | |] eqn:Hcs; try done.
  rewrite (Hk a _ _ _ H). by eapply Hc.
Qed.
End Keeps.

(** One step of a proof that a computation keeps an observation. *)
Ltac keeps_step :=
  first [ apply keeps_ret | apply keeps_get | apply keeps_crash
        | apply keeps_throw | apply keeps_spin
        | apply keeps_bind; [| intros ?]
        | match goal with
          | |- keeps _ (if decide ?P then _ else _) => destruct (decide P)
          | |- keeps _ (if ?b then _ else _) => destruct b eqn:?
          | |- keeps _ (match ?x with _ => _ end) => destruct x eqn:?
          end ].

Section LoopsKeep.
Context {S A X : Type} (f : S → X) (body : N → A → M S A).
Hypothesis body_keeps : ∀ i a, keeps f (body i a).

Lemma keeps_for_pos c : ∀ i a, keeps f (for_pos c body i a).
Proof.
  induction c as [c IH|c IH|]; intros i a; simpl; repeat keeps_step; auto.
Qed.

Lemma keeps_for_loop bound a : keeps f (for_loop bound body a).
Proof.
  destruct bound as [|c]; simpl; repeat keeps_step. apply keeps_for_pos.
Qed.
End LoopsKeep.

(** * More about the queue: the registry, the table, the destructor, main *)

Module QueueCalls.
Import Queue QueueFacts.

(** ** What the calls leave alone *)

Section Fields.
Context {X : Type} (f : world → X).
Hypothesis f_heap : ∀ h w, f (set_heap h w) = f w.
Hypothesis f_brk : ∀ b w, f (set_brk b w) = f w.
Hypothesis f_freed : ∀ l w, f (set_freed l w) = f w.
Hypothesis f_head : ∀ p w, f (set_head p w) = f w.
Hypothesis f_tail : ∀ p w, f (set_tail p w) = f w.
Hypothesis f_spurious : ∀ sp w, f (set_spurious sp w) = f w.

Lemma keeps_new_Node v : keeps f (new_Node v).
Proof.
  intros w r w' H. unfold new_Node in H. injection H as _ <-.
  by rewrite f_brk, f_heap.
Qed.

Lemma keeps_deref p : keeps f (deref p).
Proof.
  intros w r w' H. unfold deref in H.
  destruct p as [l|]; [| done]. destruct (heap w !! l); [| done]. by injection H as _ <-.
Qed.

Lemma keeps_delete_Node p : keeps f (delete_Node p).
Proof.
  intros w r w' H. unfold delete_Node in H.
  destruct p as [l|]; [| by simplify_eq].
  destruct (heap w !! l); [| done]. simplify_eq. by rewrite f_freed, f_heap.
Qed.

Lemma keeps_flip : keeps f flip.
Proof.
  intros w r w' H. unfold flip in H.
  destruct (pop_flag (spurious w)) as [b sp]. injection H as _ <-. apply f_spurious.
Qed.

Lemma keeps_store_hazard hidx p :
  (∀ q w, f (set_hazard_pointers (<[Z.to_nat hidx := q]> (hazard_pointers w)) w) = f w) →
  keeps f (store_hazard hidx p).
Proof.
  intros Hf w r w' H. unfold store_hazard in H.
  destruct (decide _); [| done]. simplify_eq. apply Hf.
Qed.

(** The last step: a primitive, or the loop itself one round later. *)
Ltac keeps_close :=
  first [ assumption | apply keeps_deref | apply keeps_flip | apply keeps_delete_Node
        | by apply keeps_store_hazard
        | apply keeps_modify; intros ?;
          first [ apply f_heap | apply f_head | apply f_tail ] ].

Lemma keeps_retire_node p : keeps f (retire_node p).
Proof. unfold retire_node. repeat keeps_step; keeps_close. Qed.

Lemma keeps_enqueue_loop fuel l : keeps f (enqueue_loop fuel l).
Proof.
  induction fuel as [|fuel IH]; simpl; [apply keeps_spin |].
  repeat keeps_step; keeps_close.
Qed.

Lemma keeps_enqueue fuel v : keeps f (enqueue fuel v).
Proof.
  unfold enqueue. apply keeps_bind; [apply keeps_new_Node |].
  intros l. apply keeps_enqueue_loop.
Qed.

Lemma keeps_dequeue_loop fuel hidx result : ∀ out,
  (∀ q w, f (set_hazard_pointers (<[Z.to_nat hidx := q]> (hazard_pointers w)) w) = f w) →
  keeps f (dequeue_loop fuel hidx result out).
Proof.
  induction fuel as [|fuel IH]; intros out Hf; simpl; [apply keeps_spin |].
  repeat keeps_step; first [ by apply IH | keeps_close ].
Qed.

End Fields.

(** ** The registry of hazard indices *)

Lemma get_hazard_index_registry w tid hidx w1 :
  registry_ok w → get_hazard_index tid w = Done (hidx, w1) →
  registry_ok w1 ∧ tls_idx w ⊆ tls_idx w1 ∧ tls_idx w1 !! tid = Some hidx ∧
  hazard_pointers w1 = hazard_pointers w.
Proof.
  intros (Hpos & Hrange & Hinj). unfold get_hazard_index.
  destruct (tls_idx w !! tid) as [idx|] eqn:Htid; simpl.
  - pose proof (Hrange _ _ Htid). rewrite decide_False by lia.
    intros Heq. by simplify_eq.
  - destruct (decide (next_index w < MAX_THREADS)); [| done]. intros Heq. simplify_eq. simpl.
    split_and!.
    + split_and!; simpl.
      * lia.
      * intros t i. destruct (decide (t = tid)) as [->|].
        -- rewrite lookup_insert_eq. intros [= <-]. lia.
        -- rewrite lookup_insert_ne by done. intros ?%Hrange. lia.
      * intros t1 t2 i.
        destruct (decide (t1 = tid)) as [->|]; destruct (decide (t2 = tid)) as [->|];
          rewrite ?lookup_insert_eq, ?lookup_insert_ne by done; try done.
        -- intros [= <-] ?%Hrange. lia.
        -- intros ?%Hrange [= <-]. lia.
        -- apply Hinj.
    + by apply insert_subseteq.
    + apply lookup_insert_eq.
    + done.
Qed.

Lemma dequeue_frame fuel tid result w r w' :
  dequeue fuel tid result w = Done (r, w') →
  ∃ hidx w1, get_hazard_index tid w = Done (hidx, w1) ∧
    tls_idx w' = tls_idx w1 ∧ next_index w' = next_index w1 ∧
    ∀ j, j ≠ Z.to_nat hidx → hazard_pointers w' !! j = hazard_pointers w1 !! j.
Proof.
  unfold dequeue, bind. intros H.
  destruct (get_hazard_index tid w) as [[hidx w1]| | |] eqn:Hget; try done.
  exists hidx, w1. split; [done |].
  assert (H1 : keeps (λ w, (tls_idx w, next_index w)) (dequeue_loop fuel hidx result None))
    by (by apply keeps_dequeue_loop).
  assert (H2 : keeps (λ w, <[Z.to_nat hidx := None]> (hazard_pointers w))
                     (dequeue_loop fuel hidx result None)).
  { apply keeps_dequeue_loop; try done. intros q w0. simpl. apply list_insert_insert_eq. }
  apply H1 in H as H1'. apply H2 in H as H2'. simpl in *.
  injection H1' as -> ->. split_and!; try done.
  intros j Hj.
  rewrite <- (list_lookup_insert_ne (hazard_pointers w') (Z.to_nat hidx) j None) by done.
  rewrite H2'. by rewrite list_lookup_insert_ne.
Qed.

Lemma enqueue_registry fuel v w r w' :
  enqueue fuel v w = Done (r, w') →
  tls_idx w' = tls_idx w ∧ next_index w' = next_index w.
Proof.
  intros H.
  assert (Hk : keeps (λ w, (tls_idx w, next_index w)) (enqueue fuel v))
    by (by apply keeps_enqueue).
  apply Hk in H. simpl in H. by injection H.
Qed.

Lemma run_registry fuel ops : ∀ w rs w',
  registry_ok w → run fuel ops w = Done (rs, w') →
  registry_ok w' ∧ tls_idx w ⊆ tls_idx w'.
Proof.
  induction ops as [|o ops IH]; intros w rs w' Hreg H; simpl in H.
  - unfold ret in H. by simplify_eq.
  - unfold bind in H. destruct (step fuel o w) as [[r w1]| | |] eqn:Hstep; try done.
    destruct (run fuel ops w1) as [[rs' w2]| | |] eqn:Hrun; try done.
    unfold ret in H. simplify_eq.
    assert (registry_ok w1 ∧ tls_idx w ⊆ tls_idx w1) as [Hreg1 Hsub].
    { destruct o as [v|tid result]; simpl in Hstep; unfold bind in Hstep.
      - destruct (enqueue fuel v w) as [[[] w1']| | |] eqn:Henq; try done.
        unfold ret in Hstep. simplify_eq.
        destruct (enqueue_registry _ _ _ _ _ Henq) as [Ht Hn].
        unfold registry_ok. by rewrite Ht, Hn.
      - destruct (dequeue fuel tid result w) as [[r' w1']| | |] eqn:Hdeq; try done.
        unfold ret in Hstep. simplify_eq.
        destruct (dequeue_frame _ _ _ _ _ _ Hdeq) as (hidx & w0 & Hget & Ht & Hn & _).
        destruct (get_hazard_index_registry _ _ _ _ Hreg Hget) as (Hreg0 & Hsub0 & _).
        unfold registry_ok. by rewrite Ht, Hn. }
    destruct (IH _ _ _ Hreg1 Hrun) as [Hreg2 Hsub2]. split; [done | by etrans].
Qed.

Lemma run_app fuel ops1 : ∀ ops2 w,
  run fuel (ops1 ++ ops2) w =
  (let* rs1 := run fuel ops1 in
   let* rs2 := run fuel ops2 in
   ret (rs1 ++ rs2)) w.
Proof.
  induction ops1 as [|o ops1 IH]; intros ops2 w; simpl.
  - unfold bind, ret. by destruct (run fuel ops2 w) as [[rs w']| | |].
  - unfold bind. destruct (step fuel o w) as [[r w1]| | |]; try done.
    rewrite IH. unfold bind.
    destruct (run fuel ops1 w1) as [[rs1 w2]| | |]; try done. unfold ret.
    by destruct (run fuel ops2 w2) as [[rs2 w3]| | |].
Qed.

(** ** Sequences of calls, with what the queue holds *)

Lemma queue_step_full o w ls fuel :
  queue_inv w ls → no_free w →
  (size (consumers [o] ∪ dom (tls_idx w)) <= Z.to_nat MAX_THREADS)%nat →
  (length (spurious w) + 1 < fuel)%nat →
  ∃ r w' ls',
    step fuel o w = Done (r, w') ∧
    queue_inv w' ls' ∧ no_free w' ∧
    contents ls' = pending [o] (contents ls) ∧
    size (heap w') = (size (heap w) + enqueues [o])%nat ∧
    (length (spurious w') <= length (spurious w))%nat ∧
    dom (tls_idx w') = consumers [o] ∪ dom (tls_idx w).
Proof.
  intros Hinv [Hfreed Hlive] Hthreads Hfuel.
  destruct (queue_inv_nonempty _ _ Hinv) as (d & dv & rest & ->).
  destruct o as [v | tid result]; simpl.
  - destruct (enqueue_spec w _ v fuel Hinv Hfuel) as (w' & Hrun & Hinv' & Hpost).
    destruct Hpost as (_ & _ & Htls & _ & Hfr & Hbrk & Hdom & Hlen).
    exists None, w', (((d, dv) :: rest) ++ [(brk w, v)]).
    split; [by rewrite (bind_Done _ _ _ _ _ Hrun) |].
    split; [done |]. split_and!.
    + split; [congruence |]. intros l Hl. apply Hdom. rewrite Hbrk in Hl.
      destruct (decide (l = brk w)) as [->|]; [by right | left].
      apply Hlive. lia.
    + by apply contents_snoc.
    + rewrite <- !(size_dom (D:=gset positive)).
      assert (Hd : dom (heap w') = dom (heap w) ∪ {[brk w]}).
      { apply set_eq. intros l. rewrite elem_of_union, !elem_of_dom, elem_of_singleton.
        apply Hdom. }
      rewrite Hd, size_union, size_singleton; [done |].
      intros l Hl ->%elem_of_singleton. apply elem_of_dom in Hl.
      apply (inv_brk _ _ Hinv) in Hl. lia.
    + done.
    + rewrite Htls. clear. set_solver.
  - assert (Hslot : has_slot w tid).
    { eapply has_slot_room; [done |]. etrans; [| exact Hthreads].
      apply subseteq_size. simpl. clear. set_solver. }
    destruct (dequeue_spec w d dv rest tid result fuel Hinv Hslot Hfuel) as (w' & Hpost & Hcase).
    destruct Hpost as (Hh & Hfr & Hbrk & Hlen & Hdom & _).
    assert (Hnf : no_free w').
    { split; [congruence |]. intros l Hl. rewrite Hh. apply Hlive. by rewrite <- Hbrk. }
    assert (Hdom' : dom (tls_idx w') = {[tid]} ∪ ∅ ∪ dom (tls_idx w)).
    { rewrite Hdom. clear. set_solver. }
    assert (Hsz : size (heap w') = (size (heap w) + 0)%nat) by (rewrite Hh; lia).
    destruct rest as [|[x xv] rest']; destruct Hcase as [Hrun Hinv'].
    + exists (Some (false, None)), w', [(d, dv)].
      split; [by rewrite (bind_Done _ _ _ _ _ Hrun) |]. done.
    + exists (Some (true, if result then Some xv else None)), w', ((x, xv) :: rest').
      split; [by rewrite (bind_Done _ _ _ _ _ Hrun) |]. done.
Qed.

Lemma pending_cons o ops q : pending (o :: ops) q = pending ops (pending [o] q).
Proof. by destruct o. Qed.

Lemma enqueues_cons o ops : enqueues (o :: ops) = (enqueues [o] + enqueues ops)%nat.
Proof. by destruct o. Qed.

Lemma queue_run_full ops : ∀ w ls fuel,
  queue_inv w ls → no_free w →
  (size (consumers ops ∪ dom (tls_idx w)) <= Z.to_nat MAX_THREADS)%nat →
  (length (spurious w) + 1 < fuel)%nat →
  ∃ rs w' ls',
    run fuel ops w = Done (rs, w') ∧
    queue_inv w' ls' ∧ no_free w' ∧
    contents ls' = pending ops (contents ls) ∧
    size (heap w') = (size (heap w) + enqueues ops)%nat ∧
    (length (spurious w') <= length (spurious w))%nat ∧
    dom (tls_idx w') = consumers ops ∪ dom (tls_idx w).
Proof.
  induction ops as [|o ops IH]; intros w ls fuel Hinv Hnf Hthreads Hfuel.
  - exists [], w, ls. simpl. split_and!; try done; try lia. clear. set_solver.
  - assert (Hsub : consumers (o :: ops) = consumers [o] ∪ consumers ops).
    { destruct o; simpl; clear; set_solver. }
    destruct (queue_step_full o w ls fuel Hinv Hnf) as
      (r & w1 & ls1 & Hstep & Hinv1 & Hnf1 & Hq & Hsz & Hlen & Hdom); [| done |].
    { etrans; [| exact Hthreads]. apply subseteq_size. rewrite Hsub. clear. set_solver. }
    destruct (IH w1 ls1 fuel Hinv1 Hnf1)
      as (rs & w' & ls' & Hrun & Hinv' & Hnf' & Hq' & Hsz' & Hlen' & Hdom'); [| lia |].
    { etrans; [| exact Hthreads]. apply subseteq_size. rewrite Hdom, Hsub. clear. set_solver. }
    exists (r :: rs), w', ls'. split_and!; try done.
    + simpl. by rewrite (bind_Done _ _ _ _ _ Hstep), (bind_Done _ _ _ _ _ Hrun).
    + by rewrite pending_cons, <- Hq.
    + rewrite enqueues_cons. lia.
    + lia.
    + rewrite Hdom', Hdom, Hsub. clear. set_solver.
Qed.

Lemma registry_ok_boot w : tls_idx w = ∅ → next_index w = 0 → registry_ok w.
Proof. intros H Hn. split_and!; [lia | intros *; by rewrite H, lookup_empty ..]. Qed.

Lemma queue_program_full sp fuel ops :
  (length sp + 1 < fuel)%nat →
  (size (consumers ops) <= Z.to_nat MAX_THREADS)%nat →
  ∃ rs w ls,
    program sp fuel ops = Done (rs, w) ∧
    queue_inv w ls ∧ no_free w ∧
    contents ls = pending ops [] ∧
    size (heap w) = S (enqueues ops) ∧
    (length (spurious w) <= length sp)%nat ∧
    dom (tls_idx w) = consumers ops ∧
    registry_ok w.
Proof.
  intros Hfuel Hthreads.
  destruct (LockFreeQueue_spec sp) as (w0 & Hctor & Hinv0 & Hnf0 & Htls0 & Hsp0).
  destruct (queue_run_full ops w0 _ fuel Hinv0 Hnf0)
    as (rs & w & ls & Hrun & Hinv & Hnf & Hq & Hsz & Hlen & Hdom).
  - rewrite Htls0, dom_empty_L, (right_id_L ∅ (∪)). done.
  - rewrite Hsp0. done.
  - exists rs, w, ls. split_and!; try done.
    + unfold program. by rewrite (bind_Done _ _ _ _ _ Hctor).
    + rewrite Hsz. unfold LockFreeQueue, bind, new_Node, modify in Hctor. simpl in Hctor.
      injection Hctor as <-. simpl.
      by rewrite map_size_insert_None, map_size_empty by apply lookup_empty.
    + by rewrite <- Hsp0.
    + rewrite Hdom, Htls0, dom_empty_L. clear. set_solver.
    + apply (run_registry fuel ops w0 rs w); [| done].
      apply registry_ok_boot; [done |].
      unfold LockFreeQueue, bind, new_Node, modify in Hctor. simpl in Hctor.
      by injection Hctor as <-.
Qed.

(** ** Draining loops *)

Lemma drain_spec tid fuel : ∀ rest w d dv rounds,
  queue_inv w ((d, dv) :: rest) → no_free w → has_slot w tid →
  (length (spurious w) + 1 < fuel)%nat → (length rest < rounds)%nat →
  ∃ w' l lv,
    drain rounds fuel tid w = Done (tt, w') ∧
    queue_inv w' [(l, lv)] ∧ no_free w' ∧ heap w' = heap w ∧
    (length (spurious w') <= length (spurious w))%nat ∧
    dom (tls_idx w') = {[tid]} ∪ dom (tls_idx w) ∧
    ∃ hidx, tls_idx w' !! tid = Some hidx ∧
            hazard_pointers w' !! Z.to_nat hidx = Some (Some l).
Proof.
  induction rest as [|[x xv] rest IH]; intros w d dv rounds Hinv Hnf Hslot Hfuel Hrounds;
    (destruct rounds as [|rounds]; [simpl in Hrounds; lia |]);
    destruct (dequeue_spec w d dv _ tid false fuel Hinv Hslot Hfuel)
      as (w1 & Hpost & Hrun & Hinv1);
    destruct Hpost as (Hh & Hfr & Hbrk & Hlen & Hdom & hidx & Htid & _ & Hpub);
    assert (Hnf1 : no_free w1)
      by (destruct Hnf as [Hfreed Hlive]; split; [congruence |];
          intros l Hl; rewrite Hh; apply Hlive; by rewrite <- Hbrk);
    simpl; rewrite (bind_Done _ _ _ _ _ Hrun); simpl.
  - exists w1, d, dv. split_and!; try done. exists hidx. split; [done |].
    rewrite Hpub. by destruct (inv_chain _ _ Hinv) as [-> _].
  - destruct (IH w1 x xv rounds Hinv1 Hnf1) as
      (w' & l & lv & Hdrain & Hinv' & Hnf' & Hh' & Hlen' & Hdom' & Hslot');
      [left; eauto | lia | simpl in Hrounds; lia |].
    exists w', l, lv. split_and!; try done; [congruence | lia |].
    rewrite Hdom', Hdom. clear. set_solver.
Qed.

Lemma main_loop_spec fuel : ∀ rest w d dv rounds value printed count,
  queue_inv w ((d, dv) :: rest) → no_free w → has_slot w 0 →
  (length (spurious w) + 1 < fuel)%nat → (length rest < rounds)%nat →
  ∃ w' l lv,
    main_loop rounds fuel value printed count w
      = Done ((printed ++ (Some <$> rest.*2), count + Z.of_nat (length rest)), w') ∧
    queue_inv w' [(l, lv)] ∧ no_free w' ∧ heap w' = heap w ∧ has_slot w' 0 ∧
    (length (spurious w') <= length (spurious w))%nat.
Proof.
  induction rest as [|[x xv] rest IH];
    intros w d dv rounds value printed count Hinv Hnf Hslot Hfuel Hrounds;
    (destruct rounds as [|rounds]; [simpl in Hrounds; lia |]);
    destruct (dequeue_spec w d dv _ 0 true fuel Hinv Hslot Hfuel)
      as (w1 & Hpost & Hrun & Hinv1);
    destruct Hpost as (Hh & Hfr & Hbrk & Hlen & Hdom & hidx & Htid & _ & Hpub);
    assert (Hnf1 : no_free w1)
      by (destruct Hnf as [Hfreed Hlive]; split; [congruence |];
          intros l Hl; rewrite Hh; apply Hlive; by rewrite <- Hbrk);
    simpl; rewrite (bind_Done _ _ _ _ _ Hrun); simpl.
  - exists w1, d, dv. rewrite app_nil_r, Z.add_0_r. split_and!; try done. left; eauto.
  - destruct (IH w1 x xv rounds (Some xv) (printed ++ [Some xv]) (count + 1) Hinv1 Hnf1) as
      (w' & l & lv & Hloop & Hinv' & Hnf' & Hh' & Hslot' & Hlen');
      [left; eauto | lia | simpl in Hrounds; lia |].
    exists w', l, lv. split_and!; try done; [| congruence | lia].
    rewrite Hloop. do 3 f_equal; [by rewrite <- app_assoc | lia].
Qed.

(** ** The order of the producers' calls *)

Lemma concat_take_perm (v : Z) vs : ∀ k ts,
  ts !! k = Some (v :: vs) → concat ts ≡ₚ v :: concat (<[k := vs]> ts).
Proof.
  induction k as [|k IH]; intros [|t ts] Hk; simplify_eq/=; [done |].
  rewrite (IH ts Hk). by rewrite Permutation_middle.
Qed.

Lemma merge_perm schedule : ∀ ts, merge schedule ts ≡ₚ concat ts.
Proof.
  induction schedule as [|k rest IH]; intros ts; simpl; [done |].
  destruct (ts !! k) as [[|v vs]|] eqn:Hk; try apply IH.
  rewrite IH. symmetry. by apply concat_take_perm.
Qed.

Section Tags.
Context (tag : Z → Z).

Lemma filter_none x (l : list Z) :
  Forall (λ v, tag v ≠ x) l → filter (λ v, tag v = x) l = [].
Proof.
  induction 1 as [|v l Hv _ IH]; [done |]. by rewrite filter_cons_False.
Qed.

Lemma filter_all x (l : list Z) :
  Forall (λ v, tag v = x) l → filter (λ v, tag v = x) l = l.
Proof.
  induction 1 as [|v l Hv _ IH]; [done |]. rewrite filter_cons_True by done. by f_equal.
Qed.

Lemma filter_concat_none x : ∀ ts : list (list Z),
  Forall (Forall (λ v, tag v ≠ x)) ts → filter (λ v, tag v = x) (concat ts) = [].
Proof.
  induction 1 as [|t ts Ht _ IH]; [done |]. simpl.
  by rewrite filter_app, IH, (filter_none _ _ Ht).
Qed.

Lemma filter_concat_tagged : ∀ ts off i,
  tagged tag off ts →
  filter (λ v, tag v = Z.of_nat (off + i)) (concat ts) = default [] (ts !! i).
Proof.
  induction ts as [|t ts IH]; intros off i Htag; [done |].
  simpl. rewrite filter_app.
  assert (Htag' : tagged tag (S off) ts).
  { intros k vs Hk. specialize (Htag (S k) vs Hk).
    by replace (S off + k)%nat with (off + S k)%nat by lia. }
  destruct i as [|i]; simpl.
  - rewrite filter_all, filter_concat_none; [by rewrite app_nil_r | |].
    + apply Forall_forall. intros vs Hvs. apply list_elem_of_lookup in Hvs as [k Hk].
      eapply Forall_impl; [exact (Htag' k vs Hk) |]. simpl. lia.
    + specialize (Htag 0%nat t eq_refl). done.
  - rewrite filter_none.
    + replace (off + S i)%nat with (S off + i)%nat by lia. by apply IH.
    + eapply Forall_impl; [exact (Htag 0%nat t eq_refl) |]. simpl. lia.
Qed.

Lemma filter_merge_tagged schedule : ∀ ts i,
  tagged tag 0 ts →
  filter (λ v, tag v = Z.of_nat i) (merge schedule ts) = default [] (ts !! i).
Proof.
  induction schedule as [|k rest IH]; intros ts i Htag; simpl.
  - by apply (filter_concat_tagged ts 0%nat i).
  - destruct (ts !! k) as [[|v vs]|] eqn:Hk; try by apply IH.
    pose proof (Htag k _ Hk) as Hv. apply Forall_cons in Hv as [Hv Hvs].
    assert (Htag' : tagged tag 0 (<[k := vs]> ts)).
    { intros k' vs' Hk'. destruct (decide (k = k')) as [<-|Hne].
      - rewrite list_lookup_insert_eq in Hk' by (by eapply lookup_lt_Some).
        by simplify_eq.
      - rewrite list_lookup_insert_ne in Hk' by done. by apply Htag. }
    destruct (decide (k = i)) as [<-|Hne].
    + rewrite filter_cons_True by done. rewrite IH by done.
      rewrite list_lookup_insert_eq by (by eapply lookup_lt_Some). by rewrite Hk.
    + rewrite filter_cons_False by (simpl in *; lia). rewrite IH by done.
      by rewrite list_lookup_insert_ne.
Qed.
End Tags.

Lemma producers_tagged : tagged (λ v, v `div` 100) 0 (producer <$> [0; 1; 2; 3]).
Proof.
  intros k vs Hk. apply Forall_forall. intros v Hv.
  assert (vs = producer (Z.of_nat k) ∧ (k < 4)%nat) as [-> Hlt].
  { do 4 (destruct k as [|k]; [simplify_eq/=; split; [done | lia] |]). done. }
  unfold producer in Hv. apply list_elem_of_fmap in Hv as (j & -> & Hj).
  apply elem_of_seqZ in Hj. simpl.
  rewrite Z.div_add_l by lia. rewrite Z.div_small by lia. lia.
Qed.

Lemma pending_enqueues vs : ∀ q, pending (Enq <$> vs) q = q ++ vs.
Proof.
  induction vs as [|v vs IH]; intros q; simpl; [by rewrite app_nil_r |].
  by rewrite IH, <- app_assoc.
Qed.

Lemma consumers_fmap_Enq vs : consumers (Enq <$> vs) = ∅.
Proof. by induction vs. Qed.

Lemma enqueues_fmap_Enq vs : enqueues (Enq <$> vs) = length vs.
Proof. induction vs; simpl; by f_equal. Qed.

(** ** The statements *)

Lemma program_run sp fuel ops :
  ∃ w0, LockFreeQueue (boot sp) = Done (tt, w0) ∧
        program sp fuel ops = run fuel ops w0.
Proof.
  destruct (LockFreeQueue_spec sp) as (w0 & Hctor & _).
  exists w0. split; [done |]. unfold program. by rewrite (bind_Done _ _ _ _ _ Hctor).
Qed.

(** X1.  get_hazard_index: every thread that dequeues has an index of
    its own below MAX_THREADS, and keeps it whatever calls follow. *)
Theorem hazard_indices_are_private (sp : list bool) (fuel : nat) (ops ops' : list op) :
  (length sp + 1 < fuel)%nat →
  (size (consumers (ops ++ ops')) <= Z.to_nat MAX_THREADS)%nat →
  ∃ rs w rs' w',
    program sp fuel ops = Done (rs, w) ∧
    program sp fuel (ops ++ ops') = Done (rs', w') ∧
    (∀ tid, tid ∈ consumers ops ↔ is_Some (tls_idx w !! tid)) ∧
    (∀ tid idx, tls_idx w !! tid = Some idx → 0 <= idx < MAX_THREADS) ∧
    (∀ t1 t2 idx, tls_idx w !! t1 = Some idx → tls_idx w !! t2 = Some idx → t1 = t2) ∧
    (∀ tid idx, tls_idx w !! tid = Some idx → tls_idx w' !! tid = Some idx).
Proof.
  intros Hfuel Hthreads. rewrite consumers_app in Hthreads.
  assert (Hthreads1 : (size (consumers ops) <= Z.to_nat MAX_THREADS)%nat).
  { etrans; [| exact Hthreads]. apply subseteq_size. clear. set_solver. }
  destruct (queue_program_full sp fuel ops Hfuel Hthreads1)
    as (rs & w & ls & Hrun & Hinv & Hnf & _ & _ & Hlen & Hdom & Hreg).
  destruct (queue_run_full ops' w ls fuel Hinv Hnf) as (rs' & w' & ls' & Hrun' & _).
  { rewrite Hdom. etrans; [| exact Hthreads]. apply subseteq_size. clear. set_solver. }
  { lia. }
  destruct (run_registry _ _ _ _ _ Hreg Hrun') as [_ Hsub].
  destruct (program_run sp fuel ops) as (w0 & Hctor & Hp).
  exists rs, w, (rs ++ rs'), w'. split_and!.
  - done.
  - rewrite Hp in Hrun. unfold program. rewrite (bind_Done _ _ _ _ _ Hctor), run_app.
    by rewrite (bind_Done _ _ _ _ _ Hrun), (bind_Done _ _ _ _ _ Hrun').
  - intros tid. by rewrite <- Hdom, elem_of_dom.
  - intros tid idx Htid. destruct Hreg as (_ & Hrange & _).
    pose proof (Hrange _ _ Htid). pose proof (inv_bound _ _ Hinv). lia.
  - by destruct Hreg as (_ & _ & Hinj).
  - intros tid idx Htid. by eapply lookup_weaken.
Qed.

Lemma hazard_indices_are_private_witness :
  (length [true] + 1 < 3)%nat ∧
  (size (consumers ([Enq 1; Deq 5 true] ++ [Deq 7 false; Deq 5 true]))
   <= Z.to_nat MAX_THREADS)%nat ∧
  ∃ rs w rs' w',
    program [true] 3 [Enq 1; Deq 5 true] = Done (rs, w) ∧
    program [true] 3 ([Enq 1; Deq 5 true] ++ [Deq 7 false; Deq 5 true]) = Done (rs', w') ∧
    (∀ tid, tid ∈ consumers [Enq 1; Deq 5 true] ↔ is_Some (tls_idx w !! tid)) ∧
    (∀ tid idx, tls_idx w !! tid = Some idx → 0 <= idx < MAX_THREADS) ∧
    (∀ t1 t2 idx, tls_idx w !! t1 = Some idx → tls_idx w !! t2 = Some idx → t1 = t2) ∧
    (∀ tid idx, tls_idx w !! tid = Some idx → tls_idx w' !! tid = Some idx).
Proof.
  assert (H1 : (length [true] + 1 < 3)%nat) by (simpl; lia).
  assert (H2 : (size (consumers ([Enq 1; Deq 5 true] ++ [Deq 7 false; Deq 5 true]))
                <= Z.to_nat MAX_THREADS)%nat) by (vm_compute; lia).
  split; [exact H1 |]. split; [exact H2 |].
  exact (hazard_indices_are_private [true] 3 [Enq 1; Deq 5 true]
           [Deq 7 false; Deq 5 true] H1 H2).
Defined.

(** X2.  get_hazard_index: once MAX_THREADS threads have dequeued, the
    first dequeue of any further thread fails the assert, and so does
    the destructor run by such a thread. *)
Theorem seventeenth_thread_aborts (sp : list bool) (fuel rounds : nat) (ops : list op)
        (tid : nat) (result : bool) :
  (length sp + 1 < fuel)%nat →
  size (consumers ops) = Z.to_nat MAX_THREADS →
  tid ∉ consumers ops →
  ∃ rs w,
    program sp fuel ops = Done (rs, w) ∧
    dequeue fuel tid result w = Fault AssertFail ∧
    LockFreeQueue_dtor (S rounds) fuel tid w = Fault AssertFail.
Proof.
  intros Hfuel Hsize Htid.
  destruct (queue_program_spec sp fuel ops Hfuel) as (w & ls & Hrun & Hinv & _ & _ & Hdom);
    [lia |].
  assert (Hget : get_hazard_index tid w = Fault AssertFail).
  { unfold get_hazard_index. rewrite <- Hdom in Htid. apply not_elem_of_dom in Htid.
    rewrite Htid. simpl. rewrite decide_False; [done |].
    rewrite (inv_count _ _ Hinv), Hdom, Hsize. unfold MAX_THREADS. lia. }
  assert (Hdeq : ∀ r, dequeue fuel tid r w = Fault AssertFail).
  { intros r. unfold dequeue, bind. by rewrite Hget. }
  exists (fifo ops []), w. split_and!; [done | done |].
  unfold LockFreeQueue_dtor, bind. simpl. unfold bind. by rewrite Hdeq.
Qed.

Lemma seventeenth_thread_aborts_witness :
  let ops := (λ t, Deq t false) <$> seq 0 16 in
  (length [true] + 1 < 3)%nat ∧
  size (consumers ops) = Z.to_nat MAX_THREADS ∧
  16%nat ∉ consumers ops ∧
  ∃ rs w,
    program [true] 3 ops = Done (rs, w) ∧
    dequeue 3 16 true w = Fault AssertFail ∧
    LockFreeQueue_dtor (S 0) 3 16 w = Fault AssertFail.
Proof.
  intros ops.
  assert (H1 : (length [true] + 1 < 3)%nat) by (simpl; lia).
  assert (H2 : size (consumers ops) = Z.to_nat MAX_THREADS) by (vm_compute; reflexivity).
  assert (H3 : 16%nat ∉ consumers ops).
  { unfold ops. simpl. clear. set_solver. }
  split; [exact H1 |]. split; [exact H2 |]. split; [exact H3 |].
  exact (seventeenth_thread_aborts [true] 3 0 ops 16 true H1 H2 H3).
Defined.

(** X3.  dequeue and enqueue on the hazard table: a dequeue writes the
    slot of the calling thread, with the head it found, and no other
    slot; an enqueue writes none. *)
Theorem dequeue_writes_only_its_slot (sp : list bool) (fuel : nat) (ops : list op)
        (tid : nat) (result : bool) (v : Z) :
  (length sp + 1 < fuel)%nat →
  (size (consumers (ops ++ [Deq tid result])) <= Z.to_nat MAX_THREADS)%nat →
  ∃ rs w r w' hidx w'',
    program sp fuel ops = Done (rs, w) ∧
    dequeue fuel tid result w = Done (r, w') ∧
    tls_idx w' !! tid = Some hidx ∧
    hazard_pointers w' = <[Z.to_nat hidx := head w]> (hazard_pointers w) ∧
    enqueue fuel v w = Done (tt, w'') ∧
    hazard_pointers w'' = hazard_pointers w.
Proof.
  intros Hfuel Hthreads. rewrite consumers_app in Hthreads.
  assert (Hthreads1 : (size (consumers ops) <= Z.to_nat MAX_THREADS)%nat).
  { etrans; [| exact Hthreads]. apply subseteq_size. clear. set_solver. }
  destruct (queue_program_full sp fuel ops Hfuel Hthreads1)
    as (rs & w & ls & Hrun & Hinv & Hnf & _ & _ & Hlen & Hdom & Hreg).
  assert (Hslot : has_slot w tid).
  { eapply has_slot_room; [done |]. rewrite Hdom. etrans; [| exact Hthreads].
    apply subseteq_size. simpl. clear. set_solver. }
  destruct (queue_inv_nonempty _ _ Hinv) as (d & dv & rest & ->).
  destruct (dequeue_spec w d dv rest tid result fuel Hinv Hslot) as (w' & Hpost & Hcase);
    [lia |].
  assert (∃ r, dequeue fuel tid result w = Done (r, w')) as [r Hdeq].
  { destruct rest as [|[x xv] rest']; destruct Hcase as [-> _]; eauto. }
  destruct Hpost as (_ & _ & _ & _ & _ & hidx & Htid & Hidx & Hpub).
  destruct (dequeue_frame _ _ _ _ _ _ Hdeq) as (hidx0 & w1 & Hget & Ht & _ & Hothers).
  destruct (get_hazard_index_registry _ _ _ _ Hreg Hget) as (_ & _ & Htid0 & Hhp).
  assert (hidx0 = hidx) as -> by congruence.
  destruct (enqueue_spec w _ v fuel Hinv) as (w'' & Henq & _ & Hpost); [lia |].
  destruct Hpost as (_ & Hhp'' & _).
  exists rs, w, r, w', hidx, w''. split_and!; try done.
  apply list_eq. intros j. destruct (decide (j = Z.to_nat hidx)) as [->|Hne].
  - rewrite Hpub, list_lookup_insert_eq; [done |].
    rewrite (inv_slots _ _ Hinv). unfold MAX_THREADS in *. lia.
  - rewrite list_lookup_insert_ne by done. rewrite <- Hhp. by apply Hothers.
Qed.

Lemma dequeue_writes_only_its_slot_witness :
  (length [false; true] + 1 < 4)%nat ∧
  (size (consumers ([Enq 1; Deq 3 true; Enq 2] ++ [Deq 8 true])) <= Z.to_nat MAX_THREADS)%nat ∧
  ∃ rs w r w' hidx w'',
    program [false; true] 4 [Enq 1; Deq 3 true; Enq 2] = Done (rs, w) ∧
    dequeue 4 8 true w = Done (r, w') ∧
    tls_idx w' !! 8%nat = Some hidx ∧
    hazard_pointers w' = <[Z.to_nat hidx := head w]> (hazard_pointers w) ∧
    enqueue 4 9 w = Done (tt, w'') ∧
    hazard_pointers w'' = hazard_pointers w.
Proof.
  assert (H1 : (length [false; true] + 1 < 4)%nat) by (simpl; lia).
  assert (H2 : (size (consumers ([Enq 1; Deq 3 true; Enq 2] ++ [Deq 8 true]))
                <= Z.to_nat MAX_THREADS)%nat) by (vm_compute; lia).
  split; [exact H1 |]. split; [exact H2 |].
  exact (dequeue_writes_only_its_slot [false; true] 4 [Enq 1; Deq 3 true; Enq 2]
           8 true 9 H1 H2).
Defined.

(** X4.  enqueue and dequeue: after any sequence of calls the nodes
    after the dummy hold, in order, exactly the values enqueued and not
    yet dequeued, and the calls returned what a first-in first-out list
    returns. *)
Theorem queue_holds_what_is_pending (sp : list bool) (fuel : nat) (ops : list op) :
  (length sp + 1 < fuel)%nat →
  (size (consumers ops) <= Z.to_nat MAX_THREADS)%nat →
  ∃ w ls,
    program sp fuel ops = Done (fifo ops [], w) ∧
    chain (heap w) (head w) ls ∧ NoDup ls.*1 ∧
    contents ls = pending ops [].
Proof.
  intros Hfuel Hthreads.
  destruct (queue_program_full sp fuel ops Hfuel Hthreads)
    as (rs & w & ls & Hrun & Hinv & _ & Hq & _).
  destruct (queue_program_spec sp fuel ops Hfuel Hthreads) as (w2 & _ & Hrun2 & _).
  rewrite Hrun in Hrun2. injection Hrun2 as -> <-.
  exists w, ls. split_and!; try done; by destruct Hinv.
Qed.

Lemma queue_holds_what_is_pending_witness :
  let ops := [Enq 1; Enq 2; Deq 0 false; Enq 3; Deq 1 true] in
  (length [true; true] + 1 < 4)%nat ∧
  (size (consumers ops) <= Z.to_nat MAX_THREADS)%nat ∧
  ∃ w ls,
    program [true; true] 4 ops = Done (fifo ops [], w) ∧
    chain (heap w) (head w) ls ∧ NoDup ls.*1 ∧
    contents ls = pending ops [].
Proof.
  intros ops.
  assert (H1 : (length [true; true] + 1 < 4)%nat) by (simpl; lia).
  assert (H2 : (size (consumers ops) <= Z.to_nat MAX_THREADS)%nat) by (vm_compute; lia).
  split; [exact H1 |]. split; [exact H2 |].
  exact (queue_holds_what_is_pending [true; true] 4 ops H1 H2).
Defined.

(** X5.  ~LockFreeQueue: the destructor drains the queue and frees one
    node, the last head, which the caller's hazard slot still names; one
    node for every enqueue ever made stays allocated. *)
Theorem destructor_frees_only_the_last_head (sp : list bool) (fuel rounds : nat)
        (ops : list op) (tid : nat) :
  (length sp + 1 < fuel)%nat →
  (size ({[tid]} ∪ consumers ops) <= Z.to_nat MAX_THREADS)%nat →
  (length (pending ops []) < rounds)%nat →
  ∃ rs w w' l hidx,
    program sp fuel ops = Done (rs, w) ∧
    LockFreeQueue_dtor rounds fuel tid w = Done (tt, w') ∧
    freed w' = [l] ∧ head w' = Some l ∧
    heap w' = delete l (heap w) ∧
    size (heap w') = enqueues ops ∧
    tls_idx w' !! tid = Some hidx ∧
    hazard_pointers w' !! Z.to_nat hidx = Some (Some l).
Proof.
  intros Hfuel Hthreads Hrounds.
  assert (Hthreads1 : (size (consumers ops) <= Z.to_nat MAX_THREADS)%nat).
  { etrans; [| exact Hthreads]. apply subseteq_size. clear. set_solver. }
  destruct (queue_program_full sp fuel ops Hfuel Hthreads1)
    as (rs & w & ls & Hrun & Hinv & Hnf & Hq & Hsz & Hlen & Hdom & _).
  assert (Hslot : has_slot w tid).
  { eapply has_slot_room; [done |]. by rewrite Hdom. }
  destruct (queue_inv_nonempty _ _ Hinv) as (d & dv & rest & ->).
  destruct (drain_spec tid fuel rest w d dv rounds Hinv Hnf Hslot) as
    (w1 & l & lv & Hdrain & Hinv1 & Hnf1 & Hh & _ & _ & hidx & Htid & Hpub).
  { lia. }
  { rewrite <- Hq in Hrounds. unfold contents in Hrounds. simpl in Hrounds.
    by rewrite length_fmap in Hrounds. }
  destruct (inv_chain _ _ Hinv1) as (Hhead & nx & Hl & _).
  destruct Hnf1 as [Hfreed1 _].
  eexists rs, w, _, l, hidx. split; [done |]. split.
  { unfold LockFreeQueue_dtor. rewrite (bind_Done _ _ _ _ _ Hdrain).
    unfold bind, get, delete_Node. rewrite Hhead, Hl. reflexivity. }
  simpl. rewrite Hfreed1, Hh. split_and!; try done.
  rewrite map_size_delete_Some by (rewrite <- Hh; eauto). by rewrite Hsz.
Qed.

Lemma destructor_frees_only_the_last_head_witness :
  let ops := [Enq 1; Enq 2; Deq 0 true; Enq 3] in
  (length [true] + 1 < 3)%nat ∧
  (size ({[4%nat]} ∪ consumers ops) <= Z.to_nat MAX_THREADS)%nat ∧
  (length (pending ops []) < 3)%nat ∧
  ∃ rs w w' l hidx,
    program [true] 3 ops = Done (rs, w) ∧
    LockFreeQueue_dtor 3 3 4 w = Done (tt, w') ∧
    freed w' = [l] ∧ head w' = Some l ∧
    heap w' = delete l (heap w) ∧
    size (heap w') = enqueues ops ∧
    tls_idx w' !! 4%nat = Some hidx ∧
    hazard_pointers w' !! Z.to_nat hidx = Some (Some l).
Proof.
  intros ops.
  assert (H1 : (length [true] + 1 < 3)%nat) by (simpl; lia).
  assert (H2 : (size ({[4%nat]} ∪ consumers ops) <= Z.to_nat MAX_THREADS)%nat)
    by (vm_compute; lia).
  assert (H3 : (length (pending ops []) < 3)%nat) by (simpl; lia).
  split; [exact H1 |]. split; [exact H2 |]. split; [exact H3 |].
  exact (destructor_frees_only_the_last_head [true] 3 3 ops 4 H1 H2 H3).
Defined.

(** X6.  main: whatever the order in which the four threads make their
    calls, the loop of the main thread prints every value once, those of
    each thread in the order it enqueued them, and counts 400. *)
Theorem main_dequeues_every_value (schedule : list nat) (sp : list bool)
        (fuel rounds : nat) :
  (length sp + 1 < fuel)%nat → (400 < rounds)%nat →
  ∃ vs w,
    main schedule sp fuel rounds = Done ((Some <$> vs, 400), w) ∧
    vs ≡ₚ concat (producer <$> [0; 1; 2; 3]) ∧
    ∀ i : nat, (i < 4)%nat →
      filter (λ v, v `div` 100 = Z.of_nat i) vs = producer (Z.of_nat i).
Proof.
  intros Hfuel Hrounds.
  set (vs := merge schedule (producer <$> [0; 1; 2; 3])).
  assert (Hperm : vs ≡ₚ concat (producer <$> [0; 1; 2; 3])) by apply merge_perm.
  assert (Hlen : length vs = 400%nat) by (by rewrite Hperm).
  destruct (LockFreeQueue_spec sp) as (w0 & Hctor & Hinv0 & Hnf0 & Htls0 & Hsp0).
  destruct (queue_run_full (Enq <$> vs) w0 _ fuel Hinv0 Hnf0)
    as (rs & w1 & ls1 & Hrun & Hinv1 & Hnf1 & Hq & _ & Hlen1 & Hdom1).
  { rewrite consumers_fmap_Enq, Htls0, dom_empty_L, (left_id_L ∅ (∪)), size_empty. lia. }
  { rewrite Hsp0. done. }
  rewrite pending_enqueues in Hq. simpl in Hq. rewrite Hsp0 in Hlen1.
  rewrite consumers_fmap_Enq, Htls0, dom_empty_L, (left_id_L ∅ (∪)) in Hdom1.
  destruct (queue_inv_nonempty _ _ Hinv1) as (d & dv & rest & ->).
  unfold contents in Hq. simpl in Hq.
  assert (Hslot1 : has_slot w1 0).
  { eapply has_slot_room; [done |].
    rewrite Hdom1, (right_id_L ∅ (∪)), size_singleton. unfold MAX_THREADS. lia. }
  destruct (main_loop_spec fuel rest w1 d dv rounds None [] 0 Hinv1 Hnf1 Hslot1)
    as (w2 & l & lv & Hloop & Hinv2 & Hnf2 & _ & Hslot2 & Hlen2).
  { lia. }
  { rewrite <- (length_fmap snd), Hq. lia. }
  destruct (drain_spec 0 fuel [] w2 l lv rounds Hinv2 Hnf2 Hslot2) as
    (w3 & l' & lv' & Hdrain & Hinv3 & _).
  { lia. }
  { simpl. lia. }
  destruct (inv_chain _ _ Hinv3) as (Hhead & nx & Hl & _).
  exists vs. eexists. split; [| split; [done |]].
  - unfold main. rewrite (bind_Done _ _ _ _ _ Hctor).
    fold vs. rewrite (bind_Done _ _ _ _ _ Hrun), (bind_Done _ _ _ _ _ Hloop).
    unfold LockFreeQueue_dtor. unfold bind at 1 2. rewrite Hdrain.
    unfold bind, get, delete_Node. rewrite Hhead, Hl. simpl.
    rewrite Hq, <- (length_fmap snd rest), Hq, Hlen. reflexivity.
  - intros i Hi. unfold vs.
    rewrite (filter_merge_tagged (λ v, v `div` 100) schedule _ i producers_tagged).
    do 4 (destruct i as [|i]; [done |]). lia.
Qed.

Lemma main_dequeues_every_value_witness :
  (length [true; false; true] + 1 < 5)%nat ∧ (400 < 401)%nat ∧
  ∃ vs w,
    main [3; 0; 0; 2; 7; 1; 3]%nat [true; false; true] 5 401
      = Done ((Some <$> vs, 400), w) ∧
    vs ≡ₚ concat (producer <$> [0; 1; 2; 3]) ∧
    ∀ i : nat, (i < 4)%nat →
      filter (λ v, v `div` 100 = Z.of_nat i) vs = producer (Z.of_nat i).
Proof.
  assert (H1 : (length [true; false; true] + 1 < 5)%nat) by (simpl; lia).
  assert (H2 : (400 < 401)%nat) by lia.
  split; [exact H1 |]. split; [exact H2 |].
  exact (main_dequeues_every_value [3; 0; 0; 2; 7; 1; 3]%nat [true; false; true]
           5 401 H1 H2).
Defined.

(** ** Where [tail] is *)

Lemma step_tail_at_end o w ls fuel r w' :
  queue_inv w ls → has_slot w (match o with Deq tid _ => tid | Enq _ => 0%nat end) ∨
                   (∃ v, o = Enq v) →
  spurious w = [] →
  (∃ t nd, tail w = Some t ∧ heap w !! t = Some nd ∧ next nd = None) →
  step (S (S fuel)) o w = Done (r, w') →
  spurious w' = [] ∧ ∃ t nd, tail w' = Some t ∧ heap w' !! t = Some nd ∧ next nd = None.
Proof.
  intros Hinv Hslot Hsp (t & nd & Ht & Hnd & Hnx).
  destruct o as [v | tid result]; simpl.
  - unfold enqueue, new_Node. unfold bind at 1 2.
    assert (Hne : t ≠ brk w).
    { intros ->. assert (brk w < brk w)%positive by (apply (inv_brk _ _ Hinv); eauto). lia. }
    erewrite enqueue_loop_S; [| exact Ht | simpl; by rewrite lookup_insert_ne].
    rewrite Hnx. simpl. rewrite Hsp. simpl. intros [= _ <-]. simpl. split; [done |].
    exists (brk w), (mkNode v None). split; [done |]. split; [| done].
    rewrite lookup_insert_ne by done. apply lookup_insert_eq.
  - destruct Hslot as [Hslot | [v [=]]].
    destruct (get_hazard_index_spec w _ tid Hinv Hslot)
      as (hidx & w1 & Hget & Hinv1 & _ & Hidx & _ & Hh & Hhd & Htl & _ & _ & Hhp & Hsp1).
    unfold dequeue. unfold bind at 1 2. rewrite Hget.
    destruct (queue_inv_nonempty _ _ Hinv1) as (d & dv & rest & ->).
    pose proof Hinv1 as [Hch _ (t' & Ht' & Htin & _) _ Hslots _ _ _].
    assert (t' = t) as -> by congruence.
    assert (Hr : 0 <= hidx < Z.of_nat (length (hazard_pointers w1)))
      by (rewrite Hslots; unfold MAX_THREADS in *; lia).
    simpl in Hch. destruct Hch as (Hhead & nx & Hd & Hch).
    rewrite <- Hh in Hnd. rewrite Hsp in Hsp1.
    destruct rest as [|[x xv] rest'].
    + simpl in Hch. subst nx.
      assert (t = d) as -> by (simpl in Htin; by apply list_elem_of_singleton in Htin).
      rewrite (dequeue_loop_empty _ _ _ _ _ _ _ Hhead Ht' Hd eq_refl Hr).
      simpl. intros [= _ <-]. simpl. split; [done |]. by exists d, nd.
    + simpl in Hch. destruct Hch as (-> & nx' & Hx & Hch).
      assert (Ht'' : tail w1 ≠ Some d).
      { rewrite Ht'. intros [= ->]. rewrite Hd in Hnd. by simplify_eq. }
      destruct (dequeue_loop_takes (spurious w1) (S (S fuel)) hidx result None w1 d _ x _
                  eq_refl Hhead Ht'' Hd eq_refl Hx Hr) as (sp' & Hlen & ->);
        [rewrite Hsp1; simpl; lia |].
      simpl. intros [= _ <-]. simpl. rewrite Hsp1 in Hlen.
      split; [destruct sp'; [done | simpl in Hlen; lia] |]. by exists t, nd.
Qed.

Lemma run_tail_at_end ops : ∀ w ls fuel,
  queue_inv w ls → no_free w →
  (size (consumers ops ∪ dom (tls_idx w)) <= Z.to_nat MAX_THREADS)%nat →
  spurious w = [] →
  (∃ t nd, tail w = Some t ∧ heap w !! t = Some nd ∧ next nd = None) →
  ∃ rs w', run (S (S fuel)) ops w = Done (rs, w') ∧
    ∃ t nd, tail w' = Some t ∧ heap w' !! t = Some nd ∧ next nd = None.
Proof.
  induction ops as [|o ops IH]; intros w ls fuel Hinv Hnf Hthreads Hsp Htail.
  - by exists [], w.
  - assert (Hsub : consumers (o :: ops) = consumers [o] ∪ consumers ops).
    { destruct o; simpl; clear; set_solver. }
    destruct (queue_step_full o w ls (S (S fuel)) Hinv Hnf) as
      (r & w1 & ls1 & Hstep & Hinv1 & Hnf1 & _ & _ & _ & Hdom).
    { etrans; [| exact Hthreads]. apply subseteq_size. rewrite Hsub. clear. set_solver. }
    { rewrite Hsp. simpl. lia. }
    destruct (step_tail_at_end o w ls fuel r w1 Hinv) as [Hsp1 Htail1]; try done.
    { destruct o as [v | tid result]; [right; eauto | left].
      eapply has_slot_room; [done |]. etrans; [| exact Hthreads].
      apply subseteq_size. simpl. clear. set_solver. }
    destruct (IH w1 ls1 fuel Hinv1 Hnf1) as (rs & w' & Hrun & Htail'); try done.
    { etrans; [| exact Hthreads]. apply subseteq_size. rewrite Hdom, Hsub. clear. set_solver. }
    exists (r :: rs), w'. split; [| done].
    simpl. by rewrite (bind_Done _ _ _ _ _ Hstep), (bind_Done _ _ _ _ _ Hrun).
Qed.

(** X7.  enqueue and dequeue: after any sequence of calls tail is on the
    last node or on the one before it. *)
Theorem tail_lags_at_most_one_node (sp : list bool) (fuel : nat) (ops : list op) :
  (length sp + 1 < fuel)%nat →
  (size (consumers ops) <= Z.to_nat MAX_THREADS)%nat →
  ∃ rs w t nd,
    program sp fuel ops = Done (rs, w) ∧
    tail w = Some t ∧ heap w !! t = Some nd ∧
    (next nd = None ∨
     ∃ l nd', next nd = Some l ∧ heap w !! l = Some nd' ∧ next nd' = None).
Proof.
  intros Hfuel Hthreads.
  destruct (queue_program_spec sp fuel ops Hfuel Hthreads) as (w & ls & Hrun & Hinv & _).
  destruct (inv_tail _ _ Hinv) as (t & Ht & _ & nd & Hnd & Hnear).
  by exists (fifo ops []), w, t, nd.
Qed.

Lemma tail_lags_at_most_one_node_witness :
  let ops := [Enq 1; Enq 2; Deq 0 true; Enq 3] in
  (length [false; true; true] + 1 < 5)%nat ∧
  (size (consumers ops) <= Z.to_nat MAX_THREADS)%nat ∧
  ∃ rs w t nd,
    program [false; true; true] 5 ops = Done (rs, w) ∧
    tail w = Some t ∧ heap w !! t = Some nd ∧
    (next nd = None ∨
     ∃ l nd', next nd = Some l ∧ heap w !! l = Some nd' ∧ next nd' = None).
Proof.
  intros ops.
  assert (H1 : (length [false; true; true] + 1 < 5)%nat) by (simpl; lia).
  assert (H2 : (size (consumers ops) <= Z.to_nat MAX_THREADS)%nat) by (vm_compute; lia).
  split; [exact H1 |]. split; [exact H2 |].
  exact (tail_lags_at_most_one_node [false; true; true] 5 ops H1 H2).
Defined.

(** The lag is real: after one enqueue whose second compare-exchange
    fails spuriously, tail is still on the dummy. *)
Example tail_lags_after_a_spurious_failure :
  ∃ w, program [false; true] 3 [Enq 7] = Done ([None], w) ∧
       tail w = Some 1%positive ∧
       heap w !! 1%positive = Some (mkNode 0 (Some 2%positive)).
Proof. eexists. split; [vm_compute; reflexivity |]. by split. Qed.

(** X8.  enqueue and dequeue: when no compare-exchange fails spuriously,
    tail is on the last node after every sequence of calls. *)
Theorem tail_is_last_without_spurious_failures (fuel : nat) (ops : list op) :
  (1 < fuel)%nat →
  (size (consumers ops) <= Z.to_nat MAX_THREADS)%nat →
  ∃ rs w t nd,
    program [] fuel ops = Done (rs, w) ∧
    tail w = Some t ∧ heap w !! t = Some nd ∧ next nd = None.
Proof.
  intros Hfuel Hthreads.
  destruct fuel as [|[|fuel]]; [lia ..|].
  destruct (LockFreeQueue_spec []) as (w0 & Hctor & Hinv0 & Hnf0 & Htls0 & Hsp0).
  destruct (run_tail_at_end ops w0 _ fuel Hinv0 Hnf0)
    as (rs & w & Hrun & t & nd & Ht & Hnd & Hnx); try done.
  { rewrite Htls0, dom_empty_L, (right_id_L ∅ (∪)). done. }
  { destruct (inv_tail _ _ Hinv0) as (t0 & Ht0 & Hin & _).
    destruct (inv_chain _ _ Hinv0) as (_ & nx & Hl & Hnx). simpl in Hnx. subst nx.
    apply list_elem_of_singleton in Hin as ->. by exists 1%positive, (mkNode 0 None). }
  exists rs, w, t, nd. split_and!; try done.
  unfold program. by rewrite (bind_Done _ _ _ _ _ Hctor).
Qed.

Lemma tail_is_last_without_spurious_failures_witness :
  let ops := [Enq 1; Deq 2 true; Enq 2; Enq 3; Deq 0 false] in
  (1 < 2)%nat ∧
  (size (consumers ops) <= Z.to_nat MAX_THREADS)%nat ∧
  ∃ rs w t nd,
    program [] 2 ops = Done (rs, w) ∧
    tail w = Some t ∧ heap w !! t = Some nd ∧ next nd = None.
Proof.
  intros ops.
  assert (H1 : (1 < 2)%nat) by lia.
  assert (H2 : (size (consumers ops) <= Z.to_nat MAX_THREADS)%nat) by (vm_compute; lia).
  split; [exact H1 |]. split; [exact H2 |].
  exact (tail_is_last_without_spurious_failures 2 ops H1 H2).
Defined.

End QueueCalls.

(** * More about the object pool: the stack of free nodes, the counts *)

Module PoolCalls.
Import Pool PoolFacts.

Section Fields.
Context {X : Type} (f : pool → X).
Hypothesis f_storage : ∀ st p, f (set_storage_ st p) = f p.
Hypothesis f_head : ∀ h p, f (set_head_ h p) = f p.
Hypothesis f_free_store : ∀ n p, f (set_free_store n p) = f p.

Lemma keeps_storage_at i : keeps f (storage_at i).
Proof.
  intros p r p' H. unfold storage_at in H.
  destruct (storage_ p !! N.to_nat i); by simplify_eq.
Qed.

Lemma keeps_storage_put i u : keeps f (storage_put i u).
Proof.
  intros p r p' H. unfold storage_put in H.
  destruct (decide _); [| done]. simplify_eq. apply f_storage.
Qed.

Lemma keeps_make_unique_Node : keeps f make_unique_Node.
Proof.
  intros p r p' H. unfold make_unique_Node in H.
  destruct (decide _); [done |]. simplify_eq. apply f_free_store.
Qed.

Lemma keeps_pool_deref node : keeps f (deref node).
Proof.
  intros p r p' H. unfold deref in H.
  destruct node as [i|]; [| done]. destruct (storage_ p !! i) as [[nd|]|]; by simplify_eq.
Qed.

Lemma keeps_pool_store_next node nxt : keeps f (store_next node nxt).
Proof.
  unfold store_next. repeat keeps_step; first [apply keeps_pool_deref | by apply keeps_modify].
Qed.

Lemma keeps_LockFreeObjectPool size : keeps f (LockFreeObjectPool size).
Proof.
  unfold LockFreeObjectPool, storage_get.
  repeat first
    [ apply keeps_for_loop; intros ? ?
    | apply keeps_storage_at | apply keeps_storage_put | apply keeps_make_unique_Node
    | apply keeps_pool_store_next
    | apply keeps_modify; intros ?; first [apply f_storage | apply f_head]
    | keeps_step ].
Qed.
End Fields.

(** ** The calls, with the bookkeeping *)

Lemma acquire_full p n held fl fuel :
  pool_inv p n held fl → (length (spurious p) < fuel)%nat →
  ∃ p',
    acquire fuel p = Done (List.hd_error fl, p') ∧
    pool_inv p' n (match List.hd_error fl with Some i => i :: held | None => held end)
             (List.tl fl) ∧
    (length (spurious p') <= length (spurious p))%nat ∧
    release_addresses_ p' = release_addresses_ p ∧
    acquire_addresses_ p' =
      match List.hd_error fl with
      | Some i => {[i]} ∪ acquire_addresses_ p
      | None => acquire_addresses_ p
      end.
Proof.
  intros Hinv Hfuel.
  destruct (acquire_spec p n held fl fuel Hinv Hfuel) as (r & p' & Hacq & -> & Hinv' & Hlen).
  exists p'. split_and!; try done.
  - destruct Hinv as [_ _ Hfree _]. revert Hacq. unfold acquire, bind, get.
    destruct fl as [|i fl]; simpl in *.
    + rewrite Hfree, acquire_loop_None. by intros [= <-].
    + destruct Hfree as (Hhd & nd & Hi & _). rewrite Hhd.
      destruct (acquire_loop_spec (spurious p) fuel i p nd eq_refl Hhd Hi Hfuel)
        as (sp' & _ & ->).
      intros [= <-]. unfold note_acquired. by case_decide.
  - destruct Hinv as [_ _ Hfree _]. revert Hacq. unfold acquire, bind, get.
    destruct fl as [|i fl]; simpl in *.
    + rewrite Hfree, acquire_loop_None. by intros [= <-].
    + destruct Hfree as (Hhd & nd & Hi & _). rewrite Hhd.
      destruct (acquire_loop_spec (spurious p) fuel i p nd eq_refl Hhd Hi Hfuel)
        as (sp' & _ & ->).
      intros [= <-]. unfold note_acquired. case_decide as Hin; simpl; [| done].
      clear -Hin. set_solver.
Qed.

Lemma release_full p n held fl h fuel :
  pool_inv p n held fl → h ∈ held → (length (spurious p) < fuel)%nat →
  ∃ p',
    release fuel h p = Done (tt, p') ∧
    pool_inv p' n (remove_one h held) (h :: fl) ∧
    (length (spurious p') <= length (spurious p))%nat ∧
    release_addresses_ p' = release_addresses_ p ∧
    acquire_addresses_ p' = acquire_addresses_ p.
Proof.
  intros Hinv Hin Hfuel.
  destruct (release_spec p n held fl h fuel Hinv Hin Hfuel) as (p' & Hrel & Hinv' & Hlen).
  exists p'. split_and!; try done.
  all: destruct Hinv as [_ Hnodes _ Hpart];
    assert (Hh : (h < n)%nat) by
      (assert (h ∈ seq 0 n) as Hs by (rewrite <- Hpart; apply elem_of_app; by left);
       apply elem_of_seq in Hs; lia);
    destruct (Hnodes h Hh) as [nd Hnode];
    revert Hrel; unfold release, bind, get;
    destruct (release_loop_spec (spurious p) fuel h p nd eq_refl Hnode Hfuel)
      as (sp' & _ & ->);
    by intros [= <-].
Qed.

Lemma elem_of_remove_one i h held : i ∈ remove_one h held → i ∈ held.
Proof.
  induction held as [|x held IH]; simpl; [done |].
  case_decide; [by right |]. intros [->|?]%elem_of_cons; [left | right; auto].
Qed.

Lemma pool_run_stack ops : ∀ p n held fl fuel,
  pool_inv p n held fl → (length (spurious p) < fuel)%nat →
  (∀ i, i ∈ held → i ∈ acquire_addresses_ p) →
  ∃ p', run fuel ops held p = Done ((stack ops held fl).1, p') ∧
    pool_inv p' n (stack ops held fl).1 (stack ops held fl).2 ∧
    release_addresses_ p' = release_addresses_ p ∧
    (∀ i, i ∈ (stack ops held fl).1 → i ∈ acquire_addresses_ p') ∧
    (∀ i, i ∈ acquire_addresses_ p' → i ∈ acquire_addresses_ p ∨ (i < n)%nat).
Proof.
  induction ops as [|o ops IH]; intros p n held fl fuel Hinv Hfuel Hheld; simpl.
  - exists p. split_and!; try done. by left.
  - destruct o as [|h]; simpl.
    + destruct (acquire_full p n held fl fuel Hinv Hfuel)
        as (p1 & Hacq & Hinv1 & Hlen & Hrel & Hbook).
      assert (Hin : ∀ i, List.hd_error fl = Some i → (i < n)%nat).
      { intros i Hi. destruct fl as [|j fl]; simplify_eq/=.
        assert (i ∈ seq 0 n) as Hs.
        { rewrite <- (pinv_part _ _ _ _ Hinv). apply elem_of_app. right. left. }
        apply elem_of_seq in Hs. lia. }
      unfold bind at 1. unfold bind at 1. rewrite Hacq.
      destruct fl as [|i fl]; simpl in *.
      * destruct (IH p1 n _ _ fuel Hinv1) as (p' & Hrun & Hinv' & Hrel' & Hb1 & Hb2);
          [lia | by rewrite Hbook |].
        exists p'. split_and!; try done; [congruence |]. by rewrite <- Hbook.
      * destruct (IH p1 n _ _ fuel Hinv1) as (p' & Hrun & Hinv' & Hrel' & Hb1 & Hb2); [lia | |].
        { intros j [->|Hj]%elem_of_cons; rewrite Hbook; [| specialize (Hheld j Hj)];
            set_solver. }
        exists p'. split_and!; try done; [congruence |].
        intros j Hj. destruct (Hb2 j Hj) as [Hj'|?]; [| by right].
        rewrite Hbook in Hj'. apply elem_of_union in Hj' as [->%elem_of_singleton|?];
          [right; by apply Hin | by left].
    + case_decide as Hin.
      * destruct (release_full p n held fl h fuel Hinv Hin Hfuel)
          as (p1 & Hrel & Hinv1 & Hlen & Hr & Hbook).
        destruct (IH p1 n _ _ fuel Hinv1) as (p' & Hrun & Hinv' & Hrel' & Hb1 & Hb2); [lia | |].
        { intros j Hj%elem_of_remove_one. rewrite Hbook. by apply Hheld. }
        exists p'. unfold bind at 1. unfold bind at 1. rewrite Hrel.
        split_and!; try done; [congruence |]. by rewrite <- Hbook.
      * by apply IH.
Qed.

Lemma pool_program_stack n mem junk sp fuel ops :
  (1 <= n)%nat → (N.of_nat n < 2 ^ 64)%N → (N.of_nat n <= mem)%N →
  (length sp < fuel)%nat →
  ∃ p, program mem junk sp (N.of_nat n) fuel ops = Done ((stack ops [] (seq 0 n)).1, p) ∧
    pool_inv p n (stack ops [] (seq 0 n)).1 (stack ops [] (seq 0 n)).2 ∧
    release_addresses_ p = ∅ ∧
    (∀ i, i ∈ (stack ops [] (seq 0 n)).1 → i ∈ acquire_addresses_ p) ∧
    (∀ i, i ∈ acquire_addresses_ p → (i < n)%nat).
Proof.
  intros Hn Hmax Hmem Hfuel.
  destruct (LockFreeObjectPool_spec n mem junk sp Hn Hmax Hmem)
    as (p0 & Hctor & Hlen & Hnodes & Hfree & Hsp).
  assert (Hbooks : (acquire_addresses_ p0, release_addresses_ p0) = (∅, ∅)).
  { exact (keeps_LockFreeObjectPool (λ p, (acquire_addresses_ p, release_addresses_ p))
             (λ _ _, eq_refl) (λ _ _, eq_refl) (λ _ _, eq_refl) _ _ _ _ Hctor). }
  injection Hbooks as Ha Hr.
  destruct (pool_run_stack ops p0 n [] (seq 0 n) fuel)
    as (p & Hrun & Hinv & Hrel & Hb1 & Hb2).
  { by split. }
  { by rewrite Hsp. }
  { by intros i ?%elem_of_nil. }
  exists p. split_and!; try done.
  - unfold program, bind. by rewrite Hctor.
  - by rewrite Hrel.
  - intros i Hi. destruct (Hb2 i Hi) as [Hi'|?]; [| done]. rewrite Ha in Hi'. set_solver.
Qed.

(** ** The statements *)


Lemma stack_acquires k : ∀ held fl,
  stack (replicate k Acquire) held fl = (reverse (take k fl) ++ held, drop k fl).
Proof.
  induction k as [|k IH]; intros held fl; simpl; [done |].
  destruct fl as [|i fl]; rewrite IH.
  - by rewrite take_nil, drop_nil.
  - simpl. by rewrite reverse_cons, <- app_assoc.
Qed.

(** X9.  acquire and release: whatever the calls, each acquire returns
    the node that a stack of free nodes, starting as 0, 1, ..., n-1 from
    the top, has on top (or null when it is empty), and each release
    pushes the node back. *)
Theorem pool_refines_stack (n : nat) (mem : N) (junk : Z) (sp : list bool)
        (fuel : nat) (ops : list op) :
  (1 <= n)%nat → (N.of_nat n < 2 ^ 64)%N → (N.of_nat n <= mem)%N →
  (length sp < fuel)%nat →
  ∃ p,
    program mem junk sp (N.of_nat n) fuel ops = Done ((stack ops [] (seq 0 n)).1, p) ∧
    free_list (storage_ p) (head_ p) (stack ops [] (seq 0 n)).2.
Proof.
  intros Hn Hmax Hmem Hfuel.
  destruct (pool_program_stack n mem junk sp fuel ops Hn Hmax Hmem Hfuel)
    as (p & Hrun & Hinv & _).
  exists p. split; [done |]. by destruct Hinv.
Qed.

Lemma pool_refines_stack_witness :
  let ops := [Acquire; Acquire; Release 0; Acquire; Acquire; Acquire; Release 2] in
  (1 <= 3)%nat ∧ (N.of_nat 3 < 2 ^ 64)%N ∧ (N.of_nat 3 <= 5)%N ∧
  (length [true; false] < 3)%nat ∧
  ∃ p,
    program 5 9 [true; false] (N.of_nat 3) 3 ops = Done ((stack ops [] (seq 0 3)).1, p) ∧
    free_list (storage_ p) (head_ p) (stack ops [] (seq 0 3)).2.
Proof.
  intros ops.
  assert (H1 : (1 <= 3)%nat) by lia.
  assert (H2 : (N.of_nat 3 < 2 ^ 64)%N) by (vm_compute; reflexivity).
  assert (H3 : (N.of_nat 3 <= 5)%N) by (vm_compute; discriminate).
  assert (H4 : (length [true; false] < 3)%nat) by (simpl; lia).
  split; [exact H1 |]. split; [exact H2 |]. split; [exact H3 |]. split; [exact H4 |].
  exact (pool_refines_stack 3 5 9 [true; false] 3 ops H1 H2 H3 H4).
Defined.



(** X11.  The constructor and acquire: a pool built with n nodes hands
    them out in the order of storage_, node 0 first; after k acquires
    the nodes k, ..., n-1 are left, and after n the free list is empty. *)
Theorem fresh_pool_gives_nodes_in_order (n : nat) (mem : N) (junk : Z) (sp : list bool)
        (fuel k : nat) :
  (1 <= n)%nat → (N.of_nat n < 2 ^ 64)%N → (N.of_nat n <= mem)%N →
  (length sp < fuel)%nat → (k <= n)%nat →
  ∃ p,
    program mem junk sp (N.of_nat n) fuel (replicate k Acquire)
      = Done (reverse (seq 0 k), p) ∧
    free_list (storage_ p) (head_ p) (seq k (n - k)) ∧
    (k = n → head_ p = None).
Proof.
  intros Hn Hmax Hmem Hfuel Hk.
  destruct (pool_program_stack n mem junk sp fuel (replicate k Acquire) Hn Hmax Hmem Hfuel)
    as (p & Hrun & Hinv & _).
  rewrite stack_acquires, take_seq, drop_seq, app_nil_r in Hrun, Hinv. simpl in *.
  rewrite Nat.min_l in Hrun, Hinv by done.
  destruct Hinv as [_ _ Hfree _].
  exists p. split_and!; try done.
  intros ->. rewrite Nat.sub_diag in Hfree. done.
Qed.

Lemma fresh_pool_gives_nodes_in_order_witness :
  (1 <= 3)%nat ∧ (N.of_nat 3 < 2 ^ 64)%N ∧ (N.of_nat 3 <= 8)%N ∧
  (length [true; true] < 3)%nat ∧ (3 <= 3)%nat ∧
  ∃ p,
    program 8 1 [true; true] (N.of_nat 3) 3 (replicate 3 Acquire)
      = Done (reverse (seq 0 3), p) ∧
    free_list (storage_ p) (head_ p) (seq 3 (3 - 3)) ∧
    (3%nat = 3%nat → head_ p = None).
Proof.
  assert (H1 : (1 <= 3)%nat) by lia.
  assert (H2 : (N.of_nat 3 < 2 ^ 64)%N) by (vm_compute; reflexivity).
  assert (H3 : (N.of_nat 3 <= 8)%N) by (vm_compute; discriminate).
  assert (H4 : (length [true; true] < 3)%nat) by (simpl; lia).
  assert (H5 : (3 <= 3)%nat) by lia.
  split; [exact H1 |]. split; [exact H2 |]. split; [exact H3 |]. split; [exact H4 |].
  split; [exact H5 |].
  exact (fresh_pool_gives_nodes_in_order 3 8 1 [true; true] 3 3 H1 H2 H3 H4 H5).
Defined.

(** X12.  acquire, then release of the node it returned: head_ and every
    node of storage_ are as before the two calls. *)
Theorem acquire_then_release_restores (p : pool) (i : nat) (nd : Node) (fuel : nat) :
  head_ p = Some i → storage_ p !! i = Some (Some nd) →
  (length (spurious p) < fuel)%nat →
  ∃ p1 p2,
    acquire fuel p = Done (Some i, p1) ∧
    head_ p1 = next nd ∧
    release fuel i p1 = Done (tt, p2) ∧
    head_ p2 = head_ p ∧ storage_ p2 = storage_ p.
Proof.
  intros Hhd Hi Hfuel.
  destruct (acquire_loop_spec (spurious p) fuel i p nd eq_refl Hhd Hi Hfuel)
    as (sp' & Hlen & Hacq).
  assert (Hst : ∀ q, storage_ (note_acquired i q) = storage_ q)
    by (intros q; unfold note_acquired; by case_decide).
  assert (Hhead : ∀ q, head_ (note_acquired i q) = head_ q)
    by (intros q; unfold note_acquired; by case_decide).
  assert (Hspur : ∀ q, spurious (note_acquired i q) = spurious q)
    by (intros q; unfold note_acquired; by case_decide).
  set (p1 := note_acquired i (set_head_ (next nd) (set_spurious sp' p))) in *.
  assert (Hi1 : storage_ p1 !! i = Some (Some nd)) by (subst p1; by rewrite Hst).
  destruct (release_loop_spec (spurious p1) fuel i p1 nd eq_refl Hi1)
    as (sp'' & _ & Hrel).
  { subst p1. rewrite Hspur. simpl. lia. }
  eexists p1, _. split_and!.
  - unfold acquire, bind, get. by rewrite Hhd.
  - subst p1. by rewrite Hhead.
  - unfold release, bind, get. exact Hrel.
  - by rewrite Hhd.
  - simpl. subst p1. rewrite Hst, Hhead. simpl.
    apply list_insert_id. rewrite Hi. by destruct nd.
Qed.

Lemma acquire_then_release_restores_witness :
  let p := PoolState [Some (mkNode 0 None); Some (mkNode 7 (Some 0%nat));
                      Some (mkNode 0 (Some 1%nat))]
                     (Some 1%nat) {[2%nat]} ∅ 0 5 [true; true] in
  head_ p = Some 1%nat ∧
  storage_ p !! 1%nat = Some (Some (mkNode 7 (Some 0%nat))) ∧
  (length (spurious p) < 3)%nat ∧
  ∃ p1 p2,
    acquire 3 p = Done (Some 1%nat, p1) ∧
    head_ p1 = next (mkNode 7 (Some 0%nat)) ∧
    release 3 1 p1 = Done (tt, p2) ∧
    head_ p2 = head_ p ∧ storage_ p2 = storage_ p.
Proof.
  intros p.
  assert (H1 : head_ p = Some 1%nat) by reflexivity.
  assert (H2 : storage_ p !! 1%nat = Some (Some (mkNode 7 (Some 0%nat)))) by reflexivity.
  assert (H3 : (length (spurious p) < 3)%nat) by (simpl; lia).
  split; [exact H1 |]. split; [exact H2 |]. split; [exact H3 |].
  exact (acquire_then_release_restores p 1 (mkNode 7 (Some 0%nat)) 3 H1 H2 H3).
Defined.

(** X13.  acquire_addresses_ and release_addresses_: after any sequence
    of calls every handle the client holds is recorded in
    acquire_addresses_, which holds nodes of the arena only, and
    release_addresses_ is still empty: no call writes it. *)
Theorem release_addresses_stays_empty (n : nat) (mem : N) (junk : Z) (sp : list bool)
        (fuel : nat) (ops : list op) :
  (1 <= n)%nat → (N.of_nat n < 2 ^ 64)%N → (N.of_nat n <= mem)%N →
  (length sp < fuel)%nat →
  ∃ held p,
    program mem junk sp (N.of_nat n) fuel ops = Done (held, p) ∧
    release_addresses_ p = ∅ ∧
    (∀ i, i ∈ held → i ∈ acquire_addresses_ p) ∧
    (∀ i, i ∈ acquire_addresses_ p → (i < n)%nat).
Proof.
  intros Hn Hmax Hmem Hfuel.
  destruct (pool_program_stack n mem junk sp fuel ops Hn Hmax Hmem Hfuel)
    as (p & Hrun & _ & Hrel & Hheld & Hacq).
  by eexists _, p.
Qed.

Lemma release_addresses_stays_empty_witness :
  (1 <= 2)%nat ∧ (N.of_nat 2 < 2 ^ 64)%N ∧ (N.of_nat 2 <= 2)%N ∧
  (length [true] < 2)%nat ∧
  ∃ held p,
    program 2 0 [true] (N.of_nat 2) 2 [Acquire; Acquire; Release 0; Release 1; Acquire]
      = Done (held, p) ∧
    release_addresses_ p = ∅ ∧
    (∀ i, i ∈ held → i ∈ acquire_addresses_ p) ∧
    (∀ i, i ∈ acquire_addresses_ p → (i < 2)%nat).
Proof.
  assert (H1 : (1 <= 2)%nat) by lia.
  assert (H2 : (N.of_nat 2 < 2 ^ 64)%N) by (vm_compute; reflexivity).
  assert (H3 : (N.of_nat 2 <= 2)%N) by (vm_compute; discriminate).
  assert (H4 : (length [true] < 2)%nat) by (simpl; lia).
  split; [exact H1 |]. split; [exact H2 |]. split; [exact H3 |]. split; [exact H4 |].
  exact (release_addresses_stays_empty 2 2 0 [true] 2
           [Acquire; Acquire; Release 0; Release 1; Acquire] H1 H2 H3 H4).
Defined.

End PoolCalls.

(** * More about the block allocator: the layout, the order of blocks *)

Module AllocCalls.
Import Alloc AllocFacts.

Lemma free_blocks_frame l l' p bl :
  free_blocks l p bl → (∀ b, b ∈ bl → l' !! b = l !! b) → free_blocks l' p bl.
Proof.
  revert p. induction bl as [|b bl IH]; intros p; simpl; [done |].
  intros (-> & nxt & Hb & Hrest) Hsame. split; [done |]. exists nxt. split.
  - rewrite Hsame; [done | left].
  - apply IH; [done |]. intros b' Hb'. apply Hsame. by right.
Qed.

Lemma reverse_seq_S i : reverse (seq 0 (S i)) = i :: reverse (seq 0 i).
Proof. by rewrite seq_S, reverse_app. Qed.

(** The constructor's loop: the blocks linked so far, last one first. *)
Lemma LockFreePool_layout (bs : N) count : ∀ i prev a,
  (sizeof_Node <= bs)%N →
  (N.of_nat (i + count) * bs < 2 ^ 64)%N →
  (N.of_nat (i + count) * bs <= buffer_size a)%N →
  free_blocks (links a) prev ((λ j, N.of_nat j * bs)%N <$> reverse (seq 0 i)) →
  ∃ a' prev',
    for_nat count (link_block bs) (N.of_nat i) prev a
    = Done ((N.of_nat (i + count), prev'), a') ∧
    free_blocks (links a') prev' ((λ j, N.of_nat j * bs)%N <$> reverse (seq 0 (i + count))) ∧
    head_ a' = head_ a ∧ spurious a' = spurious a ∧ buffer_size a' = buffer_size a ∧
    blockSize_ a' = blockSize_ a.
Proof.
  induction count as [|count IH]; intros i prev a Hbs Hmax Hbuf Hfree; simpl.
  - exists a, prev. rewrite Nat.add_0_r. by split_and!.
  - assert (Hwrap : size_t_wrap (Z.of_N (N.of_nat i) * Z.of_N bs) = (N.of_nat i * bs)%N).
    { unfold size_t_wrap. rewrite Z.mod_small by nia. lia. }
    set (a1 := set_links (<[(N.of_nat i * bs)%N := prev]> (links a)) a).
    assert (Hbody : link_block bs (N.of_nat i) prev a = Done (Some (N.of_nat i * bs)%N, a1)).
    { unfold link_block, bind, store_next, ret. rewrite Hwrap.
      by rewrite decide_True by (unfold sizeof_Node in *; nia). }
    unfold bind at 1. rewrite Hbody, <- Nat2N.inj_succ.
    destruct (IH (S i) (Some (N.of_nat i * bs)%N) a1)
      as (a' & prev' & Hrun & Hfree' & Hh & Hsp & Hb & Hbl); try done.
    + by replace (S i + count)%nat with (i + S count)%nat by lia.
    + by replace (S i + count)%nat with (i + S count)%nat by lia.
    + rewrite reverse_seq_S, fmap_cons. split; [done |]. exists prev.
      subst a1. simpl. split; [apply lookup_insert_eq |].
      apply free_blocks_frame with (links a); [done |].
      intros b Hb. apply lookup_insert_ne.
      apply list_elem_of_fmap in Hb as (j & -> & Hj).
      rewrite elem_of_reverse, elem_of_seq in Hj. unfold sizeof_Node in *. nia.
    + exists a', prev'. rewrite Hrun.
      replace (i + S count)%nat with (S i + count)%nat by lia. by split_and!.
Qed.

Lemma LockFreePool_ctor_layout mem sp blockSize (n : nat) :
  let bs := if decide (blockSize < sizeof_Node)%N then sizeof_Node else blockSize in
  (N.of_nat n * bs < 2 ^ 64)%N → (N.of_nat n * bs <= mem)%N →
  ∃ a, LockFreePool_ctor mem sp blockSize (N.of_nat n) = Done (tt, a) ∧
       free_blocks (links a) (head_ a) ((λ j, N.of_nat j * bs)%N <$> reverse (seq 0 n)) ∧
       spurious a = sp ∧ buffer_size a = (N.of_nat n * bs)%N ∧ blockSize_ a = bs.
Proof.
  intros bs Hmax Hmem. unfold LockFreePool_ctor. fold bs.
  assert (Hbs : (sizeof_Node <= bs)%N).
  { subst bs. case_decide; unfold sizeof_Node in *; lia. }
  assert (Hbytes : size_t_wrap (Z.of_N bs * Z.of_N (N.of_nat n)) = (N.of_nat n * bs)%N).
  { unfold size_t_wrap. rewrite Z.mod_small by nia. lia. }
  rewrite Hbytes. rewrite decide_False by lia.
  unfold bind at 1. rewrite for_loop_nat. unfold bind at 1. rewrite Nat2N.id.
  set (a0 := PoolState None ∅ _ _ _ _).
  destruct (LockFreePool_layout bs n 0 None a0)
    as (a' & prev' & Hrun & Hfree & Hh & Hsp & Hb & Hbl); try done.
  change (N.of_nat 0) with 0%N in Hrun. rewrite Hrun. simpl.
  eexists. split; [done |]. simpl. by split_and!.
Qed.

(** [allocate] along the free list. *)
Lemma allocate_many_spec : ∀ bl a fuel,
  free_blocks (links a) (head_ a) bl → (length (spurious a) < fuel)%nat →
  ∃ a', allocate_many fuel (length bl) a = Done (bl, a') ∧
        head_ a' = None ∧ links a' = links a ∧
        (length (spurious a') <= length (spurious a))%nat.
Proof.
  induction bl as [|b bl IH]; intros a fuel Hfree Hfuel; simpl in *.
  - by exists a.
  - destruct Hfree as (Hhd & nxt & Hb & Hfree).
    destruct (allocate_loop_spec (spurious a) fuel b a nxt eq_refl Hhd Hb Hfuel)
      as (sp' & Hlen & Hrun).
    unfold bind at 1. unfold allocate at 1. unfold bind at 1. unfold get at 1.
    rewrite Hhd, Hrun.
    destruct (IH (set_head_ nxt (set_spurious sp' a)) fuel)
      as (a' & Hmany & Hnone & Hlinks & Hlen'); [done | simpl; lia |].
    unfold bind. rewrite Hmany. exists a'. split_and!; try done. simpl in *. lia.
Qed.

(** X14.  The constructor and allocate: a pool built for n blocks, when
    the byte count does not wrap, gives out n blocks, from the highest
    address down, blockSize_ apart and inside the buffer; the next
    allocate throws bad_alloc. *)
Theorem fresh_pool_allocates_capacity_blocks (mem : N) (sp : list bool)
        (blockSize : N) (n fuel : nat) :
  let bs := if decide (blockSize < sizeof_Node)%N then sizeof_Node else blockSize in
  (N.of_nat n * bs < 2 ^ 64)%N → (N.of_nat n * bs <= mem)%N →
  (length sp < fuel)%nat →
  ∃ a a',
    LockFreePool_ctor mem sp blockSize (N.of_nat n) = Done (tt, a) ∧
    blockSize_ a = bs ∧
    allocate_many fuel n a
      = Done ((λ j, N.of_nat j * bs)%N <$> reverse (seq 0 n), a') ∧
    (∀ j, (j < n)%nat → (N.of_nat j * bs + bs <= buffer_size a)%N) ∧
    allocate fuel a' = Throw bad_alloc.
Proof.
  intros bs Hmax Hmem Hfuel.
  destruct (LockFreePool_ctor_layout mem sp blockSize n Hmax Hmem)
    as (a & Hctor & Hfree & Hsp & Hbuf & Hbl).
  destruct (allocate_many_spec _ a fuel Hfree) as (a' & Hmany & Hnone & _).
  { by rewrite Hsp. }
  rewrite length_fmap, length_reverse, length_seq in Hmany.
  exists a, a'. split_and!; try done.
  - intros j Hj. rewrite Hbuf. nia.
  - unfold allocate, bind, get. rewrite Hnone. apply allocate_loop_None.
Qed.

Lemma fresh_pool_allocates_capacity_blocks_witness :
  let bs := if decide (4 < sizeof_Node)%N then sizeof_Node else 4%N in
  (N.of_nat 3 * bs < 2 ^ 64)%N ∧ (N.of_nat 3 * bs <= 100)%N ∧
  (length [true; false; true] < 4)%nat ∧
  ∃ a a',
    LockFreePool_ctor 100 [true; false; true] 4 (N.of_nat 3) = Done (tt, a) ∧
    blockSize_ a = bs ∧
    allocate_many 4 3 a
      = Done ((λ j, N.of_nat j * bs)%N <$> reverse (seq 0 3), a') ∧
    (∀ j, (j < 3)%nat → (N.of_nat j * bs + bs <= buffer_size a)%N) ∧
    allocate 4 a' = Throw bad_alloc.
Proof.
  intros bs.
  assert (H1 : (N.of_nat 3 * bs < 2 ^ 64)%N) by (vm_compute; reflexivity).
  assert (H2 : (N.of_nat 3 * bs <= 100)%N) by (vm_compute; discriminate).
  assert (H3 : (length [true; false; true] < 4)%nat) by (simpl; lia).
  split; [exact H1 |]. split; [exact H2 |]. split; [exact H3 |].
  exact (fresh_pool_allocates_capacity_blocks 100 [true; false; true] 4 3 4 H1 H2 H3).
Defined.

(** X15.  deallocate, then allocate: the block given back last is the
    block handed out next, and head_ is back where it was. *)
Theorem deallocate_then_allocate_is_lifo (a : LockFreePool) (p : N) (fuel : nat) :
  (p + sizeof_Node <= buffer_size a)%N →
  (length (spurious a) < fuel)%nat →
  ∃ a1 a2,
    deallocate fuel (Some p) a = Done (tt, a1) ∧
    head_ a1 = Some p ∧
    allocate fuel a1 = Done (p, a2) ∧
    head_ a2 = head_ a ∧ links a2 = <[p := head_ a]> (links a).
Proof.
  intros Hin Hfuel.
  destruct (deallocate_loop_spec (spurious a) fuel p a eq_refl Hin Hfuel)
    as (sp' & Hlen & Hrun).
  set (a1 := set_head_ (Some p) (set_spurious sp' (set_links (<[p := head_ a]> (links a)) a)))
    in *.
  destruct (allocate_loop_spec (spurious a1) fuel p a1 (head_ a) eq_refl)
    as (sp'' & _ & Hrun'); [done | apply lookup_insert_eq | simpl; lia |].
  exists a1. eexists. split_and!.
  - unfold deallocate, bind, get. exact Hrun.
  - done.
  - unfold allocate, bind, get. exact Hrun'.
  - done.
  - done.
Qed.

Lemma deallocate_then_allocate_is_lifo_witness :
  let a := PoolState (Some 8%N) {[ 0%N := None; 8%N := Some 0%N; 16%N := Some 8%N ]}
                     24 8 3 [true] in
  (16 + sizeof_Node <= buffer_size a)%N ∧
  (length (spurious a) < 2)%nat ∧
  ∃ a1 a2,
    deallocate 2 (Some 16%N) a = Done (tt, a1) ∧
    head_ a1 = Some 16%N ∧
    allocate 2 a1 = Done (16%N, a2) ∧
    head_ a2 = head_ a ∧ links a2 = <[16%N := head_ a]> (links a).
Proof.
  intros a.
  assert (H1 : (16 + sizeof_Node <= buffer_size a)%N) by (vm_compute; discriminate).
  assert (H2 : (length (spurious a) < 2)%nat) by (simpl; lia).
  split; [exact H1 |]. split; [exact H2 |].
  exact (deallocate_then_allocate_is_lifo a 16 2 H1 H2).
Defined.

(** X16.  deallocate has no check that the block is in use: after a
    block is given back twice its link points to itself, and allocate
    hands the same block out again and again. *)
Theorem double_deallocate_gives_block_twice (a : LockFreePool) (p : N) (fuel : nat) :
  (p + sizeof_Node <= buffer_size a)%N →
  (length (spurious a) < fuel)%nat →
  ∃ a1 a2 a3 a4,
    deallocate fuel (Some p) a = Done (tt, a1) ∧
    deallocate fuel (Some p) a1 = Done (tt, a2) ∧
    links a2 !! p = Some (Some p) ∧
    allocate fuel a2 = Done (p, a3) ∧
    allocate fuel a3 = Done (p, a4) ∧
    head_ a4 = Some p.
Proof.
  intros Hin Hfuel.
  destruct (deallocate_loop_spec (spurious a) fuel p a eq_refl Hin Hfuel)
    as (sp1 & Hlen1 & Hrun1).
  set (a1 := set_head_ (Some p) (set_spurious sp1 (set_links (<[p := head_ a]> (links a)) a)))
    in *.
  destruct (deallocate_loop_spec (spurious a1) fuel p a1 eq_refl)
    as (sp2 & Hlen2 & Hrun2); [done | simpl; lia |].
  set (a2 := set_head_ (Some p) (set_spurious sp2 (set_links (<[p := head_ a1]> (links a1)) a1)))
    in *.
  assert (Hp : links a2 !! p = Some (Some p)) by apply lookup_insert_eq.
  destruct (allocate_loop_spec (spurious a2) fuel p a2 (Some p) eq_refl)
    as (sp3 & Hlen3 & Hrun3); [done | done | simpl in *; lia |].
  set (a3 := set_head_ (Some p) (set_spurious sp3 a2)) in *.
  destruct (allocate_loop_spec (spurious a3) fuel p a3 (Some p) eq_refl)
    as (sp4 & Hlen4 & Hrun4); [done | done | simpl in *; lia |].
  exists a1, a2, a3. eexists. split_and!.
  - unfold deallocate, bind, get. exact Hrun1.
  - unfold deallocate, bind, get. exact Hrun2.
  - done.
  - unfold allocate, bind, get. exact Hrun3.
  - unfold allocate, bind, get. exact Hrun4.
  - done.
Qed.

Lemma double_deallocate_gives_block_twice_witness :
  let a := PoolState (Some 8%N) {[ 0%N := None; 8%N := Some 0%N; 16%N := Some 8%N ]}
                     24 8 3 [true; true] in
  (16 + sizeof_Node <= buffer_size a)%N ∧
  (length (spurious a) < 3)%nat ∧
  ∃ a1 a2 a3 a4,
    deallocate 3 (Some 16%N) a = Done (tt, a1) ∧
    deallocate 3 (Some 16%N) a1 = Done (tt, a2) ∧
    links a2 !! 16%N = Some (Some 16%N) ∧
    allocate 3 a2 = Done (16%N, a3) ∧
    allocate 3 a3 = Done (16%N, a4) ∧
    head_ a4 = Some 16%N.
Proof.
  intros a.
  assert (H1 : (16 + sizeof_Node <= buffer_size a)%N) by (vm_compute; discriminate).
  assert (H2 : (length (spurious a) < 3)%nat) by (simpl; lia).
  split; [exact H1 |]. split; [exact H2 |].
  exact (double_deallocate_gives_block_twice a 16 3 H1 H2).
Defined.

(** X17.  The constructor when blockSize_ * capacity_ wraps around 2^64
    to fewer bytes than one block and one link: the loop writes the link
    of block 0 or of block 1 outside the buffer it has just allocated. *)
Theorem LockFreePool_wrapped_size_is_out_of_range (mem : N) (sp : list bool)
        (blockSize capacity : N) :
  let bs := if decide (blockSize < sizeof_Node)%N then sizeof_Node else blockSize in
  let bytes := size_t_wrap (Z.of_N bs * Z.of_N capacity) in
  (blockSize < 2 ^ 64)%N → (2 <= capacity)%N →
  (bytes < bs + sizeof_Node)%N → (bytes <= mem)%N →
  LockFreePool_ctor mem sp blockSize capacity = Fault OutOfRange.
Proof.
  intros bs bytes Hsize Hcap Hwrap Hmem. unfold LockFreePool_ctor. fold bs. fold bytes.
  rewrite decide_False by lia.
  unfold bind at 1. rewrite for_loop_nat. unfold bind at 1.
  destruct (N.to_nat capacity) as [|[|k]] eqn:Hk; [lia | lia |].
  simpl. unfold bind at 1. unfold link_block at 1. unfold bind at 1.
  unfold store_next at 1. simpl.
  change (size_t_wrap (0 * Z.of_N bs)) with 0%N. simpl.
  destruct (decide (0 + sizeof_Node <= bytes)%N); [| done]. simpl.
  unfold bind at 1. unfold link_block at 1. unfold bind at 1.
  unfold store_next at 1. simpl.
  assert (Hone : size_t_wrap (1 * Z.of_N bs) = bs).
  { unfold size_t_wrap. rewrite Z.mul_1_l, Z.mod_small; [lia |].
    subst bs. case_decide; unfold sizeof_Node; lia. }
  rewrite Hone. simpl. by rewrite decide_False by lia.
Qed.

Lemma LockFreePool_wrapped_size_is_out_of_range_witness :
  let bs := if decide (2 ^ 63 < sizeof_Node)%N then sizeof_Node else (2 ^ 63)%N in
  let bytes := size_t_wrap (Z.of_N bs * Z.of_N 2) in
  (2 ^ 63 < 2 ^ 64)%N ∧ (2 <= 2)%N ∧
  (bytes < bs + sizeof_Node)%N ∧ (bytes <= 0)%N ∧
  LockFreePool_ctor 0 [] (2 ^ 63) 2 = Fault OutOfRange.
Proof.
  intros bs bytes.
  assert (H1 : (2 ^ 63 < 2 ^ 64)%N) by (vm_compute; reflexivity).
  assert (H2 : (2 <= 2)%N) by (vm_compute; discriminate).
  assert (H3 : (bytes < bs + sizeof_Node)%N) by (vm_compute; reflexivity).
  assert (H4 : (bytes <= 0)%N) by (vm_compute; discriminate).
  split; [exact H1 |]. split; [exact H2 |]. split; [exact H3 |]. split; [exact H4 |].
  exact (LockFreePool_wrapped_size_is_out_of_range 0 [] (2 ^ 63) 2 H1 H2 H3 H4).
Defined.

(** ** Sequences of calls *)

Lemma remove_block_perm (p : N) held : p ∈ held → held ≡ₚ p :: remove_one p held.
Proof.
  induction held as [|x held IH]; [by intros ?%elem_of_nil |].
  intros Hin. simpl. case_decide as Hx; [by subst |].
  apply elem_of_cons in Hin as [->|Hin]; [done |].
  rewrite (IH Hin) at 1. apply perm_swap.
Qed.

Lemma allocator_run_blocks ops : ∀ a held fl fuel,
  free_blocks (links a) (head_ a) fl → NoDup (held ++ fl) →
  (∀ b, b ∈ held ++ fl → (b + sizeof_Node <= buffer_size a)%N) →
  (length (spurious a) < fuel)%nat →
  match blocks ops held fl with
  | Some (held', fl') =>
      ∃ a', run fuel ops held a = Done (held', a') ∧
            free_blocks (links a') (head_ a') fl' ∧ held' ++ fl' ≡ₚ held ++ fl
  | None => run fuel ops held a = Throw bad_alloc
  end.
Proof.
  induction ops as [|o ops IH]; intros a held fl fuel Hfree Hnd Hin Hfuel; simpl.
  - by exists a.
  - destruct o as [|p]; simpl.
    + destruct fl as [|b fl]; simpl in Hfree; simpl.
      * unfold allocate, bind, get. by rewrite Hfree, allocate_loop_None.
      * destruct Hfree as (Hhd & nxt & Hb & Hfree).
        destruct (allocate_loop_spec (spurious a) fuel b a nxt eq_refl Hhd Hb Hfuel)
          as (sp' & Hlen & Hrun).
        assert (Hperm : (b :: held) ++ fl ≡ₚ held ++ b :: fl)
          by (simpl; apply Permutation_middle).
        specialize (IH (set_head_ nxt (set_spurious sp' a)) (b :: held) fl fuel).
        assert (Hstep : (let* b := allocate fuel in ret (b :: held)) a
                        = Done (b :: held, set_head_ nxt (set_spurious sp' a)))
          by (unfold allocate, bind, get; by rewrite Hhd, Hrun).
        rewrite (bind_Done _ _ _ _ _ Hstep).
        destruct (blocks ops (b :: held) fl) as [[held' fl']|].
        -- destruct IH as (a' & Hrun' & Hfree' & Hperm'); try done.
           { by rewrite Hperm. }
           { intros x Hx. apply Hin. by rewrite <- Hperm. }
           { simpl. lia. }
           exists a'. split_and!; try done. by rewrite Hperm'.
        -- apply IH; try done.
           { by rewrite Hperm. }
           { intros x Hx. apply Hin. by rewrite <- Hperm. }
           { simpl. lia. }
    + case_decide as Hp; [| by apply IH].
      assert (Hpin : (p + sizeof_Node <= buffer_size a)%N).
      { apply Hin, elem_of_app. by left. }
      destruct (deallocate_loop_spec (spurious a) fuel p a eq_refl Hpin Hfuel)
        as (sp' & Hlen & Hrun).
      assert (Hperm : remove_one p held ++ p :: fl ≡ₚ held ++ fl).
      { rewrite <- Permutation_middle. rewrite (remove_block_perm p held Hp) at 2. done. }
      assert (Hpfl : p ∉ fl).
      { apply NoDup_app in Hnd as (_ & Hdisj & _). by apply Hdisj. }
      set (a1 := set_head_ (Some p)
                   (set_spurious sp' (set_links (<[p := head_ a]> (links a)) a))) in *.
      specialize (IH a1 (remove_one p held) (p :: fl) fuel).
      assert (Hstep : (let* _ := deallocate fuel (Some p) in ret (remove_one p held)) a
                      = Done (remove_one p held, a1))
        by (unfold deallocate, bind, get; by rewrite Hrun).
      rewrite (bind_Done _ _ _ _ _ Hstep).
      assert (Hfree1 : free_blocks (links a1) (head_ a1) (p :: fl)).
      { split; [done |]. exists (head_ a). split; [apply lookup_insert_eq |].
        apply free_blocks_frame with (links a); [done |].
        intros b Hb. apply lookup_insert_ne. by intros ->. }
      destruct (blocks ops (remove_one p held) (p :: fl)) as [[held' fl']|].
      * destruct IH as (a' & Hrun' & Hfree' & Hperm'); try done.
        { by rewrite Hperm. }
        { intros x Hx. apply Hin. by rewrite <- Hperm. }
        { simpl. lia. }
        exists a'. split_and!; try done. by rewrite Hperm'.
      * apply IH; try done.
        { by rewrite Hperm. }
        { intros x Hx. apply Hin. by rewrite <- Hperm. }
        { simpl. lia. }
Qed.

(** X18.  allocate and deallocate: for a pool built for n blocks and a
    client that gives back only blocks it holds, each allocate returns
    the top of a stack of free blocks that starts with the highest
    address on top, or throws bad_alloc when the stack is empty, and
    each deallocate pushes the block back; the blocks held and the free
    list are together the n blocks, none of them twice. *)
Theorem allocator_refines_stack (mem : N) (sp : list bool) (blockSize : N)
        (n fuel : nat) (ops : list op) :
  let bs := if decide (blockSize < sizeof_Node)%N then sizeof_Node else blockSize in
  let arena := (λ j, N.of_nat j * bs)%N <$> reverse (seq 0 n) in
  (N.of_nat n * bs < 2 ^ 64)%N → (N.of_nat n * bs <= mem)%N →
  (length sp < fuel)%nat →
  match blocks ops [] arena with
  | Some (held, fl) =>
      ∃ a, program mem sp blockSize (N.of_nat n) fuel ops = Done (held, a) ∧
           free_blocks (links a) (head_ a) fl ∧
           held ++ fl ≡ₚ arena ∧ NoDup (held ++ fl)
  | None => program mem sp blockSize (N.of_nat n) fuel ops = Throw bad_alloc
  end.
Proof.
  intros bs arena Hmax Hmem Hfuel.
  destruct (LockFreePool_ctor_layout mem sp blockSize n Hmax Hmem)
    as (a & Hctor & Hfree & Hsp & Hbuf & Hbl).
  assert (Hbs : (sizeof_Node <= bs)%N).
  { subst bs. case_decide; unfold sizeof_Node in *; lia. }
  assert (Hnd : NoDup arena).
  { apply NoDup_fmap_2_strong; [| rewrite reverse_Permutation; apply NoDup_seq].
    intros i j _ _ Hij. unfold sizeof_Node in *. nia. }
  pose proof (allocator_run_blocks ops a [] arena fuel Hfree Hnd) as Hrun.
  unfold program. rewrite Hctor.
  destruct (blocks ops [] arena) as [[held fl]|].
  - destruct Hrun as (a' & Hrun & Hfree' & Hperm).
    + intros b Hb. simpl in Hb. apply list_elem_of_fmap in Hb as (j & -> & Hj).
      rewrite elem_of_reverse, elem_of_seq in Hj. rewrite Hbuf. nia.
    + by rewrite Hsp.
    + exists a'. split_and!; try done. by rewrite Hperm.
  - apply Hrun.
    + intros b Hb. simpl in Hb. apply list_elem_of_fmap in Hb as (j & -> & Hj).
      rewrite elem_of_reverse, elem_of_seq in Hj. rewrite Hbuf. nia.
    + by rewrite Hsp.
Qed.

Lemma allocator_refines_stack_witness :
  let ops := [Allocate; Allocate; Deallocate 16; Allocate; Deallocate 8; Deallocate 16] in
  let bs := if decide (4 < sizeof_Node)%N then sizeof_Node else 4%N in
  let arena := (λ j, N.of_nat j * bs)%N <$> reverse (seq 0 3) in
  (N.of_nat 3 * bs < 2 ^ 64)%N ∧ (N.of_nat 3 * bs <= 24)%N ∧
  (length [true; false; true] < 4)%nat ∧
  match blocks ops [] arena with
  | Some (held, fl) =>
      ∃ a, program 24 [true; false; true] 4 (N.of_nat 3) 4 ops = Done (held, a) ∧
           free_blocks (links a) (head_ a) fl ∧
           held ++ fl ≡ₚ arena ∧ NoDup (held ++ fl)
  | None => program 24 [true; false; true] 4 (N.of_nat 3) 4 ops = Throw bad_alloc
  end.
Proof.
  intros ops bs arena.
  assert (H1 : (N.of_nat 3 * bs < 2 ^ 64)%N) by (vm_compute; reflexivity).
  assert (H2 : (N.of_nat 3 * bs <= 24)%N) by (vm_compute; discriminate).
  assert (H3 : (length [true; false; true] < 4)%nat) by (simpl; lia).
  split; [exact H1 |]. split; [exact H2 |]. split; [exact H3 |].
  exact (allocator_refines_stack 24 [true; false; true] 4 3 4 ops H1 H2 H3).
Defined.

End AllocCalls.

(** * Facts about the allocator adapter *)

Module PoolAllocatorFacts.
Import Alloc AllocFacts PoolAllocator.

Lemma on_pool_Done {A} k (f : M LockFreePool A) (ps : pools) pool r pool' :
  ps !! k = Some pool → f pool = Done (r, pool') →
  on_pool (Some k) f ps = Done (r, <[k := pool']> ps).
Proof. intros Hk Hf. unfold on_pool. by rewrite Hk, Hf. Qed.

(** X19.  PoolAllocator::allocate(n): a block comes back only for n == 1
    and a pool with a free block, and then it is the head block of the
    pool that pool_ points to; every other request throws bad_alloc. *)
Theorem PoolAllocator_allocates_one_block_only (fuel : nat) (this : PoolAllocator)
        (n : N) (k : nat) (pool : LockFreePool) (ps : pools) :
  pool_ this = Some k → ps !! k = Some pool →
  links_closed pool → (length (spurious pool) < fuel)%nat →
  match head_ pool with
  | Some b =>
      if decide (n = 1%N) then
        ∃ pool', allocate fuel this n ps = Done (b, <[k := pool']> ps) ∧
                 links pool !! b = Some (head_ pool') ∧ links pool' = links pool
      else allocate fuel this n ps = Throw bad_alloc
  | None => allocate fuel this n ps = Throw bad_alloc
  end.
Proof.
  intros Hthis Hk [Hhead _] Hfuel. unfold allocate. rewrite Hthis.
  destruct (head_ pool) as [b|] eqn:Hb.
  - destruct (decide (n = 1%N)) as [->|Hn].
    + rewrite decide_False by (by intros []).
      destruct (Hhead b eq_refl) as [nxt Hnxt].
      destruct (allocate_loop_spec (spurious pool) fuel b pool nxt eq_refl Hb Hnxt Hfuel)
        as (sp' & _ & Hrun).
      exists (set_head_ nxt (set_spurious sp' pool)). split; [| split; [exact Hnxt | done]].
      apply on_pool_Done with pool; [done |].
      unfold Alloc.allocate, bind, get. by rewrite Hb.
    + by rewrite decide_True.
  - case_decide; [done |]. unfold on_pool. rewrite Hk.
    unfold Alloc.allocate, bind, get. by rewrite Hb, allocate_loop_None.
Qed.

Lemma PoolAllocator_allocates_one_block_only_witness :
  let pool := Alloc.PoolState (Some 8%N) {[ 0%N := None; 8%N := Some 0%N ]} 16 8 2 [true] in
  let this := PoolAllocator_ctor (Some 3%nat) in
  let ps : pools := {[ 3%nat := pool ]} in
  pool_ this = Some 3%nat ∧ ps !! 3%nat = Some pool ∧
  links_closed pool ∧ (length (Alloc.spurious pool) < 2)%nat ∧
  match head_ pool with
  | Some b =>
      if decide (2%N = 1%N) then
        ∃ pool', allocate 2 this 2 ps = Done (b, <[3%nat := pool']> ps) ∧
                 links pool !! b = Some (head_ pool') ∧ links pool' = links pool
      else allocate 2 this 2 ps = Throw bad_alloc
  | None => allocate 2 this 2 ps = Throw bad_alloc
  end.
Proof.
  intros pool this ps.
  assert (H1 : pool_ this = Some 3%nat) by reflexivity.
  assert (H2 : ps !! 3%nat = Some pool) by reflexivity.
  assert (H3 : links_closed pool).
  { split.
    - intros b [= <-]. by eexists.
    - intros b nxt Hb. simpl in Hb.
      apply lookup_insert_Some in Hb as [[_ [=]] | [_ Hb]].
      apply lookup_singleton_Some in Hb as [_ [= <-]]. by eexists. }
  assert (H4 : (length (Alloc.spurious pool) < 2)%nat) by (simpl; lia).
  split; [exact H1 |]. split; [exact H2 |]. split; [exact H3 |]. split; [exact H4 |].
  exact (PoolAllocator_allocates_one_block_only 2 this 2 3 pool ps H1 H2 H3 H4).
Defined.

(** X20.  operator== and deallocate: allocators that compare equal, a
    converted copy among them, use one pool; a block allocated through
    one and given back through the other leaves that pool's head_ and
    links as they were. *)
Theorem equal_allocators_share_the_pool (fuel : nat) (a b : PoolAllocator)
        (k : nat) (pool : LockFreePool) (ps : pools) (blk : N) :
  operator_eq a b = true → pool_ a = Some k → ps !! k = Some pool →
  head_ pool = Some blk → is_Some (links pool !! blk) →
  (blk + sizeof_Node <= buffer_size pool)%N →
  (length (spurious pool) < fuel)%nat →
  ∃ ps1 pool2,
    allocate fuel a 1 ps = Done (blk, ps1) ∧
    deallocate fuel b (Some blk) 1 ps1 = Done (tt, <[k := pool2]> ps) ∧
    head_ pool2 = head_ pool ∧ links pool2 = links pool ∧
    operator_ne a b = false ∧
    operator_eq (PoolAllocator_copy a) b = true.
Proof.
  intros Heq Ha Hk Hhd [nxt Hnxt] Hin Hfuel.
  apply bool_decide_eq_true in Heq. rewrite Ha in Heq.
  destruct (allocate_loop_spec (spurious pool) fuel blk pool nxt eq_refl Hhd Hnxt Hfuel)
    as (sp1 & Hlen1 & Hrun1).
  set (pool1 := set_head_ nxt (set_spurious sp1 pool)) in *.
  destruct (deallocate_loop_spec (spurious pool1) fuel blk pool1 eq_refl)
    as (sp2 & Hlen2 & Hrun2); [done | simpl; lia |].
  set (pool2 := set_head_ (Some blk)
                  (set_spurious sp2 (set_links (<[blk := head_ pool1]> (links pool1)) pool1)))
    in *.
  exists (<[k := pool1]> ps), pool2. split_and!.
  - unfold allocate. rewrite decide_False by (by intros []). rewrite Ha.
    apply on_pool_Done with pool; [done |].
    unfold Alloc.allocate, bind, get. by rewrite Hhd.
  - unfold deallocate. rewrite <- Heq.
    rewrite (on_pool_Done k _ _ pool1 tt pool2).
    + f_equal. f_equal. apply (insert_insert_eq (M:=gmap nat)).
    + apply lookup_insert_eq.
    + unfold Alloc.deallocate, bind, get. exact Hrun2.
  - done.
  - simpl. by apply insert_id.
  - unfold operator_ne, operator_eq. rewrite Ha. by rewrite bool_decide_eq_true_2.
  - unfold operator_eq, PoolAllocator_copy. simpl. rewrite Ha.
    by rewrite bool_decide_eq_true_2.
Qed.

Lemma equal_allocators_share_the_pool_witness :
  let pool := Alloc.PoolState (Some 8%N) {[ 0%N := None; 8%N := Some 0%N ]} 16 8 2 [true] in
  let a := PoolAllocator_ctor (Some 3%nat) in
  let b := PoolAllocator_copy a in
  let ps : pools := {[ 3%nat := pool ]} in
  operator_eq a b = true ∧ pool_ a = Some 3%nat ∧ ps !! 3%nat = Some pool ∧
  head_ pool = Some 8%N ∧ is_Some (links pool !! 8%N) ∧
  (8 + sizeof_Node <= buffer_size pool)%N ∧
  (length (Alloc.spurious pool) < 2)%nat ∧
  ∃ ps1 pool2,
    allocate 2 a 1 ps = Done (8%N, ps1) ∧
    deallocate 2 b (Some 8%N) 1 ps1 = Done (tt, <[3%nat := pool2]> ps) ∧
    head_ pool2 = head_ pool ∧ links pool2 = links pool ∧
    operator_ne a b = false ∧
    operator_eq (PoolAllocator_copy a) b = true.
Proof.
  intros pool a b ps.
  assert (H1 : operator_eq a b = true) by reflexivity.
  assert (H2 : pool_ a = Some 3%nat) by reflexivity.
  assert (H3 : ps !! 3%nat = Some pool) by reflexivity.
  assert (H4 : head_ pool = Some 8%N) by reflexivity.
  assert (H5 : is_Some (links pool !! 8%N)) by (by eexists).
  assert (H6 : (8 + sizeof_Node <= buffer_size pool)%N) by (vm_compute; discriminate).
  assert (H7 : (length (Alloc.spurious pool) < 2)%nat) by (simpl; lia).
  split; [exact H1 |]. split; [exact H2 |]. split; [exact H3 |]. split; [exact H4 |].
  split; [exact H5 |]. split; [exact H6 |]. split; [exact H7 |].
  exact (equal_allocators_share_the_pool 2 a b 3 pool ps 8 H1 H2 H3 H4 H5 H6 H7).
Defined.

End PoolAllocatorFacts.
